(** * CoffeeMarket voice pipeline: the response-streaming core

    A shallow embedding of the control layer of the repository:
    - [Text]: the Python [str] primitives the code relies on
      ([lower], [strip], [split], [find], [in], [join], slicing);
    - [Redactor]: [agent_manager/utils.py]
      ([find_spoken_portion], [redact_conversation_history]);
    - [Handler]: [agent_manager/handlers.py] ([StreamingCallbackHandler]);
    - [Coordinator]: [agent.py] ([generate_agent_response_stream]),
      one iteration of the polling loop being one step;
    - [Relay]: [llm_handler.py] ([llm_call_response_streaming]);
    - [Spec]: the vocabulary of the statements proved afterwards;
    - [Fine]: the polling loop and the timer callback of [Coordinator]
      again, one statement being one step;
    - [Tools]: the two call-ending tools of [agent_manager/tools.py];
    - [Conversation]: [conversation.py] ([conversationrelay],
      [cleanup_session_data]).

    Conventions.  A Python [str] is the list of its code points, each an
    [N].  Dictionary keys, roles, tool names and other identifiers that
    are only compared are [string]s.
    Log and [print] calls and wall-clock time stamps, which no branch
    reads, are left out. *)

From Stdlib Require Import Ascii String NArith.
From stdpp Require Import base list strings gmap.

Definition pystr : Type := list N.

(** A literal of the source, as a [pystr]. *)
Definition lit (s : string) : pystr := map N_of_ascii (list_ascii_of_string s).

(** Python truthiness of a [str]: the empty string is false. *)
Definition truthy (s : pystr) : bool :=
  match s with [] => false | _ :: _ => true end.

(* ================================================================= *)
(** ** Python string primitives *)

Module Text.

(** [str.isspace] on one code point, which is also the white space of
    [split()] and [strip()]: U+0009..U+000D, U+001C..U+0020, U+0085,
    U+00A0, U+1680, U+2000..U+200A, U+2028, U+2029, U+202F, U+205F and
    U+3000. *)
Definition isspace (c : N) : bool :=
  (((9 <=? c) && (c <=? 13)) || ((28 <=? c) && (c <=? 32))
   || (c =? 133) || (c =? 160) || (c =? 5760)
   || ((8192 <=? c) && (c <=? 8202))
   || (c =? 8232) || (c =? 8233) || (c =? 8239) || (c =? 8287)
   || (c =? 12288))%N.

(** The code points below 256. *)
Definition latin1 (c : N) : Prop := (c < 256)%N.

(** The lower-case letter of a capital below 256: A-Z, and U+00C0..U+00DE
    except the multiplication sign U+00D7. *)
Definition lower_char (c : N) : N :=
  (if ((65 <=? c) && (c <=? 90))
      || ((192 <=? c) && (c <=? 222) && negb (c =? 215))
   then c + 32 else c)%N.

(** What [str.lower] puts for one code point.  U+0130, the capital I
    with a dot above, is the one code point that it replaces by two: i
    and the combining dot U+0307. *)
Definition lower_full (c : N) : pystr :=
  if (c =? 304)%N then [105; 775]%N else [lower_char c].

(** [s.lower()].  The table is that of the code points below 256 and of
    U+0130.  The other code points are left as they are, which is
    [str.lower] for those without case only: the capitals from U+0100 on
    (among them the sigma U+03A3, which [str.lower] lowers by its
    context) are not tabulated, and what is proved with the table is
    stated for texts of code points below 256. *)
Definition lower (s : pystr) : pystr := flat_map lower_full s.

Fixpoint lstrip (s : pystr) : pystr :=
  match s with
  | [] => []
  | c :: s' => if isspace c then lstrip s' else s
  end.

Definition rstrip (s : pystr) : pystr := rev (lstrip (rev s)).

(** [s.strip()] *)
Definition strip (s : pystr) : pystr := rstrip (lstrip s).

(** [s.split()]: maximal runs of non-whitespace characters.  [cur] is the
    word being read. *)
Fixpoint split_from (cur : pystr) (s : pystr) : list pystr :=
  match s with
  | [] => if truthy cur then [cur] else []
  | c :: s' =>
      if isspace c
      then (if truthy cur then cur :: split_from [] s' else split_from [] s')
      else split_from (cur ++ [c]) s'
  end.

Definition split (s : pystr) : list pystr := split_from [] s.

(** [sep.join(ws)] *)
Fixpoint join (sep : pystr) (ws : list pystr) : pystr :=
  match ws with
  | [] => []
  | [w] => w
  | w :: ws' => w ++ sep ++ join sep ws'
  end.

Definition eqb_char (a b : N) : bool := (a =? b)%N.

(** [s.startswith(p)] *)
Fixpoint startswith (p s : pystr) : bool :=
  match p, s with
  | [], _ => true
  | _ :: _, [] => false
  | a :: p', b :: s' => eqb_char a b && startswith p' s'
  end.

(** [s.find(sub)]: the lowest index where [sub] occurs; [None] stands
    for Python's [-1]. *)
Fixpoint find (sub s : pystr) : option nat :=
  if startswith sub s then Some 0
  else match s with
       | [] => None
       | _ :: s' => S <$> find sub s'
       end.

(** [sub in s] *)
Definition contains (sub s : pystr) : bool :=
  match find sub s with Some _ => true | None => false end.

(** [s.split(marker, 1)[1]] when [marker in s]: what follows the first
    occurrence. *)
Definition after_first (marker s : pystr) : option pystr :=
  i ← find marker s; Some (drop (i + length marker) s).

(** [s.endswith((c1, c2, ...))] for one-character suffixes. *)
Definition endswith_any (cs : list N) (s : pystr) : bool :=
  match last s with
  | Some c => existsb (eqb_char c) cs
  | None => false
  end.

(** Equality test on strings, as [==] on [str]. *)
Definition eqb (a b : pystr) : bool := bool_decide (a = b).

End Text.

(* ================================================================= *)
(** ** agent_manager/utils.py *)

Module Redactor.

(** A history entry: the dict [{"role": .., "content": .., "type": ..}],
    where the key ["type"] may be absent. *)
Record Entry : Type := mkEntry {
  role : string;
  content : pystr;
  type_ : option string
}.

#[global] Instance Entry_eq_dec : EqDecision Entry.
Proof. solve_decision. Defined.

Definition set_content (c : pystr) (e : Entry) : Entry :=
  {| role := role e; content := c; type_ := type_ e |}.

(** [match_count] of the inner loop: the number of trailing words of the
    utterance that agree with the trailing words of the text segment,
    read from the right up to the first disagreement.  Both arguments
    are given reversed. *)
Fixpoint agree (ru rt : list pystr) : nat :=
  match ru, rt with
  | u :: ru', t :: rt' => if Text.eqb u t then S (agree ru' rt') else 0
  | _, _ => 0
  end.

Definition match_count (utterance_words text_words : list pystr) : nat :=
  agree (rev utterance_words) (rev text_words).

(** The loop [for end_pos in range(1, len(full_words) + 1)] with its
    [break]; [positions] is what is left of the range. *)
Fixpoint align (utterance_words full_words : list pystr)
    (positions : list nat) (best_match_pos : nat) : nat :=
  match positions with
  | [] => best_match_pos
  | end_pos :: rest =>
      let text_words := take end_pos full_words in
      let mc := match_count utterance_words text_words in
      if mc =? length utterance_words then end_pos
      else if 0 <? mc then align utterance_words full_words rest end_pos
      else align utterance_words full_words rest best_match_pos
  end.

Definition best_match_pos (utterance_words full_words : list pystr) : nat :=
  align utterance_words full_words (seq 1 (length full_words)) 0.

Definition find_spoken_portion (full_text utterance_until_interrupt : pystr)
    : pystr :=
  if negb (truthy utterance_until_interrupt) || negb (truthy full_text)
  then []
  else
    let full_lower := Text.lower full_text in
    let utterance_lower := Text.lower utterance_until_interrupt in
    match Text.find utterance_lower full_lower with
    | Some start_pos =>
        let end_pos := start_pos + length utterance_lower in
        take end_pos full_text
    | None =>
        let full_words := Text.split full_lower in
        let utterance_words := Text.split utterance_lower in
        let original_words := Text.split full_text in
        match utterance_words, full_words with
        | [], _ | _, [] => []
        | _, _ =>
            let p := best_match_pos utterance_words full_words in
            if 0 <? p then Text.join (lit " ") (take p original_words)
            else []
        end
    end.

(** The returned dict.  The three text fields are present on success
    only. *)
Record Result : Type := mkResult {
  success : bool;
  message : string;
  spoken_text : option pystr;
  original_text : option pystr;
  redacted_text : option pystr
}.

Definition failure (msg : string) : Result :=
  {| success := false; message := msg;
     spoken_text := None; original_text := None; redacted_text := None |}.

(** The test of the backward scan: role ["assistant"], and not tagged
    ["interstitial"]. *)
Definition is_assistant (e : Entry) : bool := bool_decide (role e = "assistant").

Definition is_interstitial (e : Entry) : bool :=
  bool_decide (type_ e = Some "interstitial").

Definition redactable (e : Entry) : bool :=
  is_assistant e && negb (is_interstitial e).

(** [for i in range(len(history) - 1, -1, -1)]: [scan history n] visits
    the indices [n-1, ..., 0] and stops at the first redactable entry. *)
Fixpoint scan (history : list Entry) (n : nat) : option (nat * Entry) :=
  match n with
  | 0 => None
  | S i =>
      match history !! i with
      | Some e => if redactable e then Some (i, e) else scan history i
      | None => scan history i
      end
  end.

Definition redact_conversation_history (session_id : string)
    (utterance_until_interrupt : pystr)
    (conversation_histories : gmap string (list Entry))
    : gmap string (list Entry) * Result :=
  match conversation_histories !! session_id with
  | None | Some [] =>
      (conversation_histories, failure "No conversation history found")
  | Some history =>
      match scan history (length history) with
      | Some (i, e) =>
          let full_response := content e in
          let spoken_portion :=
            find_spoken_portion full_response utterance_until_interrupt in
          let history' :=
            if truthy (Text.strip spoken_portion)
            then <[i := set_content spoken_portion e]> history
            else delete i history in
          (<[session_id := history']> conversation_histories,
           {| success := true;
              message := "Conversation history redacted";
              spoken_text := Some spoken_portion;
              original_text := Some full_response;
              redacted_text :=
                Some (if truthy spoken_portion
                      then drop (length spoken_portion) full_response
                      else full_response) |})
      | None =>
          (conversation_histories,
           failure "No assistant message found to redact")
      end
  end.

End Redactor.

(* ================================================================= *)
(** ** agent_manager/handlers.py *)

Module Handler.

(** The attribute [interstitial_timer]: absent until the first tool
    start ([hasattr] is false), then a [threading.Timer].  The thread of
    a timer is alive from [start()] until it has ended: it waits for the
    delay, runs the callback unless [cancel()] was called in between,
    and ends.  [cancel()] only sets the flag that the thread looks at
    when it wakes up, so that a cancelled timer is still alive until its
    thread has ended. *)
Inductive Timer : Type := NoTimer | TimerAlive | TimerCancelled | TimerDone.

#[global] Instance Timer_eq_dec : EqDecision Timer.
Proof. solve_decision. Defined.

(** [timer.is_alive()] *)
Definition is_alive (t : Timer) : bool :=
  match t with TimerAlive | TimerCancelled => true | _ => false end.

(** Whether [cancel()] was called on a timer whose thread has not ended. *)
Definition cancelled (t : Timer) : bool :=
  match t with TimerCancelled => true | _ => false end.

(** The fields of [StreamingCallbackHandler]. *)
Record t : Type := mk {
  buffer : pystr;
  tokens : list pystr;
  tool_executing : bool;
  call_end_detected : bool;
  handoff_detected : bool;
  current_tool : option string;
  phrase_index : nat;
  interstitial_sent : bool;
  interstitial_ready : bool;
  sent_interstitials : list pystr;
  interstitial_timer : Timer
}.

Definition interstitial_phrases : list pystr :=
  [ lit "Let me check that for you...";
    lit "One moment please...";
    lit "I'm looking into that...";
    lit "Just a second...";
    lit "Let me find that information...";
    lit "Give me just a moment..." ].

Definition no_interstitial_tools : list string :=
  [ "end_call"; "escalate_to_human_agent" ]%string.

(** [__init__] *)
Definition init : t :=
  {| buffer := []; tokens := []; tool_executing := false;
     call_end_detected := false; handoff_detected := false;
     current_tool := None; phrase_index := 0;
     interstitial_sent := false; interstitial_ready := false;
     sent_interstitials := []; interstitial_timer := NoTimer |}.

(** [timer.cancel()] under the guard [hasattr(..) and timer.is_alive()]. *)
Definition cancel_if_alive (tm : Timer) : Timer :=
  if is_alive tm then TimerCancelled else tm.

Definition on_llm_new_token (token : pystr) (h : t) : t :=
  {| buffer := buffer h ++ token;
     tokens := tokens h ++ [token];
     tool_executing := tool_executing h;
     call_end_detected := call_end_detected h;
     handoff_detected := handoff_detected h;
     current_tool := current_tool h;
     phrase_index := phrase_index h;
     interstitial_sent :=
       if interstitial_sent h && truthy (Text.strip token)
       then false else interstitial_sent h;
     interstitial_ready := interstitial_ready h;
     sent_interstitials := sent_interstitials h;
     interstitial_timer := cancel_if_alive (interstitial_timer h) |}.

Definition on_llm_start (h : t) : t :=
  {| buffer := buffer h; tokens := tokens h;
     tool_executing := tool_executing h;
     call_end_detected := call_end_detected h;
     handoff_detected := handoff_detected h;
     current_tool := current_tool h;
     phrase_index := phrase_index h;
     interstitial_sent := false;
     interstitial_ready := false;
     sent_interstitials := sent_interstitials h;
     interstitial_timer := interstitial_timer h |}.

Definition on_tool_start (tool_name : string) (h : t) : t :=
  let call_end :=
    if bool_decide (tool_name = "end_call") then true
    else call_end_detected h in
  let handoff :=
    if bool_decide (tool_name = "end_call") then handoff_detected h
    else if bool_decide (tool_name = "escalate_to_human_agent") then true
    else handoff_detected h in
  let timer :=
    if bool_decide (tool_name = "end_call") then interstitial_timer h
    else if bool_decide (tool_name = "escalate_to_human_agent")
    then interstitial_timer h
    else if bool_decide (tool_name ∈ no_interstitial_tools)
    then interstitial_timer h
    else if is_alive (interstitial_timer h) then interstitial_timer h
    else TimerAlive in
  {| buffer := buffer h; tokens := tokens h;
     tool_executing := true;
     call_end_detected := call_end;
     handoff_detected := handoff;
     current_tool := Some tool_name;
     phrase_index := phrase_index h;
     interstitial_sent := interstitial_sent h;
     interstitial_ready := interstitial_ready h;
     sent_interstitials := sent_interstitials h;
     interstitial_timer := timer |}.

Definition on_llm_end (h : t) : t :=
  {| buffer := buffer h; tokens := tokens h;
     tool_executing := tool_executing h;
     call_end_detected := call_end_detected h;
     handoff_detected := handoff_detected h;
     current_tool := current_tool h;
     phrase_index := phrase_index h;
     interstitial_sent := interstitial_sent h;
     interstitial_ready := interstitial_ready h;
     sent_interstitials := sent_interstitials h;
     interstitial_timer := cancel_if_alive (interstitial_timer h) |}.

Definition on_tool_end (h : t) : t :=
  {| buffer := buffer h; tokens := tokens h;
     tool_executing := false;
     call_end_detected := call_end_detected h;
     handoff_detected := handoff_detected h;
     current_tool := None;
     phrase_index := phrase_index h;
     interstitial_sent := interstitial_sent h;
     interstitial_ready := interstitial_ready h;
     sent_interstitials := sent_interstitials h;
     interstitial_timer := interstitial_timer h |}.

(** [_trigger_interstitial], the body the timer runs when it elapses. *)
Definition trigger_interstitial (h : t) : t :=
  let ready :=
    if negb (interstitial_sent h) && negb (interstitial_ready h)
    then (if call_end_detected h || handoff_detected h
          then interstitial_ready h else true)
    else interstitial_ready h in
  {| buffer := buffer h; tokens := tokens h;
     tool_executing := tool_executing h;
     call_end_detected := call_end_detected h;
     handoff_detected := handoff_detected h;
     current_tool := current_tool h;
     phrase_index := phrase_index h;
     interstitial_sent := interstitial_sent h;
     interstitial_ready := ready;
     sent_interstitials := sent_interstitials h;
     interstitial_timer := interstitial_timer h |}.

(** The thread of the timer waking up and running to its end
    ([threading.Timer.run]): the callback runs unless the timer was
    cancelled, and the thread ends.  Nothing happens when no timer thread
    is alive. *)
Definition timer_fires (h : t) : t :=
  if is_alive (interstitial_timer h)
  then let h' := if cancelled (interstitial_timer h) then h
                 else trigger_interstitial h in
       {| buffer := buffer h'; tokens := tokens h';
          tool_executing := tool_executing h';
          call_end_detected := call_end_detected h';
          handoff_detected := handoff_detected h';
          current_tool := current_tool h';
          phrase_index := phrase_index h';
          interstitial_sent := interstitial_sent h';
          interstitial_ready := interstitial_ready h';
          sent_interstitials := sent_interstitials h';
          interstitial_timer := TimerDone |}
  else h.

(** [get_next_interstitial]: the phrase, and the handler with the cursor
    advanced.  [None] is the [IndexError] of an out-of-range cursor. *)
Definition get_next_interstitial (h : t) : option (pystr * t) :=
  phrase ← interstitial_phrases !! phrase_index h;
  Some (phrase,
        {| buffer := buffer h; tokens := tokens h;
           tool_executing := tool_executing h;
           call_end_detected := call_end_detected h;
           handoff_detected := handoff_detected h;
           current_tool := current_tool h;
           phrase_index :=
             (phrase_index h + 1) `mod` length interstitial_phrases;
           interstitial_sent := interstitial_sent h;
           interstitial_ready := interstitial_ready h;
           sent_interstitials := sent_interstitials h;
           interstitial_timer := interstitial_timer h |}).

Definition should_send_interstitial (h : t) : bool :=
  interstitial_ready h && negb (interstitial_sent h)
  && negb (call_end_detected h) && negb (handoff_detected h).

(** What the agent thread reports through the LangChain callbacks. *)
Inductive Callback : Type :=
  | LlmStart
  | NewToken (token : pystr)
  | ToolStart (tool_name : string)
  | ToolEnd
  | LlmEnd.

Definition on (cb : Callback) (h : t) : t :=
  match cb with
  | LlmStart => on_llm_start h
  | NewToken token => on_llm_new_token token h
  | ToolStart tool_name => on_tool_start tool_name h
  | ToolEnd => on_tool_end h
  | LlmEnd => on_llm_end h
  end.

End Handler.

(* ================================================================= *)
(** ** agent.py *)

Module Coordinator.

Import Redactor.

(** The dict yielded by the generator. *)
Record Event : Type := mkEvent {
  chunk : pystr;
  is_final : bool;
  should_end_call : bool;
  should_handoff : bool;
  is_interstitial : bool
}.

#[global] Instance Event_eq_dec : EqDecision Event.
Proof. solve_decision. Defined.

(** One turn runs three activities side by side: the agent thread, which
    calls the handler and then exits with a result or an exception; the
    interstitial timer; and the generator's polling loop.  A schedule is
    an interleaving of their steps, each taken atomically: a schedule
    describes the turns in which no iteration of the loop and no callback
    of the timer is interrupted by another thread.  [Fine] has the
    others. *)
Inductive Action : Type :=
  | Agent (cb : Handler.Callback)
  | TimerFire
  | ThreadExit (raised : bool)
  | Poll.

(** The generator's frame.  [handler] is the object held in
    [AGENT_SESSIONS[session_id]]; [error] says whether
    [exception_container] has the key ['error']; [exhausted] says that
    the generator has returned. *)
Record Turn : Type := mkTurn {
  handler : Handler.t;
  conversation_histories : gmap string (list Entry);
  thread_alive : bool;
  error : bool;
  last_token_count : nat;
  interstitial_sent_this_response : bool;
  exhausted : bool
}.

Definition user_entry (user_message : pystr) : Entry :=
  {| role := "user"; content := user_message; type_ := None |}.

Definition assistant_entry (text : pystr) : Entry :=
  {| role := "assistant"; content := text; type_ := None |}.

Definition interstitial_entry (text : pystr) : Entry :=
  {| role := "assistant"; content := text; type_ := Some "interstitial"%string |}.

(** Lines 131-142: the per-request reset, which keeps [phrase_index]. *)
Definition reset (h : Handler.t) : Handler.t :=
  {| Handler.buffer := [];
     Handler.tokens := [];
     Handler.tool_executing := false;
     Handler.call_end_detected := false;
     Handler.handoff_detected := false;
     Handler.current_tool := Handler.current_tool h;
     Handler.phrase_index := Handler.phrase_index h;
     Handler.interstitial_sent := false;
     Handler.interstitial_ready := false;
     Handler.sent_interstitials := [];
     Handler.interstitial_timer :=
       Handler.cancel_if_alive (Handler.interstitial_timer h) |}.

(** Lines 106-158: up to the start of the agent thread.  [agent_session]
    is the entry of [AGENT_SESSIONS] for this session, if any. *)
Definition start (session_id : string) (user_message : pystr)
    (agent_session : option Handler.t)
    (histories : gmap string (list Entry)) : Turn :=
  let history := default [] (histories !! session_id) in
  {| handler := reset (default Handler.init agent_session);
     conversation_histories :=
       <[session_id := history ++ [user_entry user_message]]> histories;
     thread_alive := true;
     error := false;
     last_token_count := 0;
     interstitial_sent_this_response := false;
     exhausted := false |}.

Definition interstitial_event (phrase : pystr) : Event :=
  {| chunk := phrase; is_final := true; should_end_call := false;
     should_handoff := false; is_interstitial := true |}.

Definition token_event (h : Handler.t) (token : pystr) : Event :=
  {| chunk := token; is_final := false;
     should_end_call := Handler.call_end_detected h;
     should_handoff := Handler.handoff_detected h;
     is_interstitial := false |}.

Definition final_event (h : Handler.t) : Event :=
  {| chunk := []; is_final := true;
     should_end_call := Handler.call_end_detected h;
     should_handoff := Handler.handoff_detected h;
     is_interstitial := false |}.

Definition apology : pystr :=
  lit "I'm sorry, I'm having trouble processing your request right now.".

Definition fallback_event : Event :=
  {| chunk := apology; is_final := true; should_end_call := false;
     should_handoff := false; is_interstitial := false |}.

Definition mark_sent (phrase : pystr) (h : Handler.t) : Handler.t :=
  {| Handler.buffer := Handler.buffer h;
     Handler.tokens := Handler.tokens h;
     Handler.tool_executing := Handler.tool_executing h;
     Handler.call_end_detected := Handler.call_end_detected h;
     Handler.handoff_detected := Handler.handoff_detected h;
     Handler.current_tool := Handler.current_tool h;
     Handler.phrase_index := Handler.phrase_index h;
     Handler.interstitial_sent := true;
     Handler.interstitial_ready := false;
     Handler.sent_interstitials := Handler.sent_interstitials h ++ [phrase];
     Handler.interstitial_timer := Handler.interstitial_timer h |}.

Definition with_handler (h : Handler.t) (s : Turn) : Turn :=
  {| handler := h;
     conversation_histories := conversation_histories s;
     thread_alive := thread_alive s; error := error s;
     last_token_count := last_token_count s;
     interstitial_sent_this_response := interstitial_sent_this_response s;
     exhausted := exhausted s |}.

(** The [except Exception] branch: one apology, and the generator ends. *)
Definition fail (s : Turn) : Turn * list Event :=
  ({| handler := handler s;
      conversation_histories := conversation_histories s;
      thread_alive := thread_alive s; error := error s;
      last_token_count := last_token_count s;
      interstitial_sent_this_response := interstitial_sent_this_response s;
      exhausted := true |},
   [fallback_event]).

(** The reply stored in the history (lines 202-212). *)
Definition clean_response (h : Handler.t) : pystr :=
  let full_response := concat (Handler.tokens h) in
  if Handler.call_end_detected h && Text.contains (lit "CALL_END:") full_response
  then Text.strip (default [] (Text.after_first (lit "CALL_END:") full_response))
  else if Handler.handoff_detected h
          && Text.contains (lit "HANDOFF_HUMAN:") full_response
  then Text.strip
         (default [] (Text.after_first (lit "HANDOFF_HUMAN:") full_response))
  else full_response.

(** Lines 201-226: the history gets the reply and then the interstitials
    of the turn; [None] is the [KeyError] of a missing session key. *)
Definition finalize (session_id : string) (s : Turn)
    : option (gmap string (list Entry)) :=
  let h := handler s in
  history ← conversation_histories s !! session_id;
  Some (<[session_id :=
            history ++ assistant_entry (clean_response h)
                    :: map interstitial_entry (Handler.sent_interstitials h)]>
          (conversation_histories s)).

(** One evaluation of the [while] condition, followed either by the loop
    body or by the code after the loop, taken as one step with no step of
    another thread in between.  The turn in which the other threads run
    between the statements of the iteration, and between the reads of
    its test, is [Fine.run]; [run_uninterrupted] relates the two. *)
Definition poll (session_id : string) (s : Turn) : Turn * list Event :=
  if exhausted s then (s, []) else
  let h := handler s in
  if thread_alive s || (last_token_count s <? length (Handler.tokens h)) then
    let current_token_count := length (Handler.tokens h) in
    let fresh := drop (last_token_count s) (Handler.tokens h) in
    if Handler.should_send_interstitial h
       && negb (interstitial_sent_this_response s)
    then
      match Handler.get_next_interstitial h with
      | None => fail s
      | Some (interstitial, h1) =>
          let h2 := mark_sent interstitial h1 in
          ({| handler := h2;
              conversation_histories := conversation_histories s;
              thread_alive := thread_alive s; error := error s;
              last_token_count := current_token_count;
              interstitial_sent_this_response := true;
              exhausted := false |},
           interstitial_event interstitial :: map (token_event h2) fresh)
      end
    else
      ({| handler := h;
          conversation_histories := conversation_histories s;
          thread_alive := thread_alive s; error := error s;
          last_token_count := current_token_count;
          interstitial_sent_this_response := interstitial_sent_this_response s;
          exhausted := false |},
       map (token_event h) fresh)
  else if error s then fail s
  else
    match finalize session_id s with
    | None => fail s
    | Some histories =>
        ({| handler := h;
            conversation_histories := histories;
            thread_alive := thread_alive s; error := error s;
            last_token_count := last_token_count s;
            interstitial_sent_this_response := interstitial_sent_this_response s;
            exhausted := true |},
         [final_event h])
    end.

(** One step of a schedule.  The agent thread acts only while it runs. *)
Definition step (session_id : string) (a : Action) (s : Turn)
    : Turn * list Event :=
  match a with
  | Agent cb =>
      if thread_alive s then (with_handler (Handler.on cb (handler s)) s, [])
      else (s, [])
  | TimerFire => (with_handler (Handler.timer_fires (handler s)) s, [])
  | ThreadExit raised =>
      if thread_alive s
      then ({| handler := handler s;
               conversation_histories := conversation_histories s;
               thread_alive := false; error := raised;
               last_token_count := last_token_count s;
               interstitial_sent_this_response :=
                 interstitial_sent_this_response s;
               exhausted := exhausted s |}, [])
      else (s, [])
  | Poll => poll session_id s
  end.

(** The events yielded along a schedule, in order. *)
Fixpoint run (session_id : string) (schedule : list Action) (s : Turn)
    : Turn * list Event :=
  match schedule with
  | [] => (s, [])
  | a :: rest =>
      let '(s1, out1) := step session_id a s in
      let '(s2, out2) := run session_id rest s1 in
      (s2, out1 ++ out2)
  end.

(** Lines 113-126: the entry of [AGENT_SESSIONS] is used, or made when
    the session has none yet.  [create_agent] is called inside the [try],
    and [created] says whether it returns rather than raises, which the
    configuration ([constants.py]) decides. *)
Definition agent_available (created : bool)
    (agent_session : option Handler.t) : bool :=
  match agent_session with Some _ => true | None => created end.

(** Lines 106-126 when [create_agent] raises: the user's message is in
    the history, nothing was put into [AGENT_SESSIONS], no thread was
    started, and the exception is on its way to the [except] clause.
    There is no handler object: [handler] has the fields of a new one. *)
Definition unstarted (session_id : string) (user_message : pystr)
    (histories : gmap string (list Entry)) : Turn :=
  let history := default [] (histories !! session_id) in
  {| handler := Handler.init;
     conversation_histories :=
       <[session_id := history ++ [user_entry user_message]]> histories;
     thread_alive := false;
     error := true;
     last_token_count := 0;
     interstitial_sent_this_response := false;
     exhausted := false |}.

(** [generate_agent_response_stream] on one request: the turn along the
    schedule, or, when there is no agent and none can be made, the
    apology alone. *)
Definition generate_agent_response_stream (session_id : string)
    (user_message : pystr) (schedule : list Action)
    (created : bool) (agent_session : option Handler.t)
    (histories : gmap string (list Entry)) : Turn * list Event :=
  if agent_available created agent_session
  then run session_id schedule
         (start session_id user_message agent_session histories)
  else fail (unstarted session_id user_message histories).

(** The entry of [AGENT_SESSIONS] for the session after a turn that
    ended in the state [s]. *)
Definition stored (created : bool) (agent_session : option Handler.t)
    (s : Turn) : option Handler.t :=
  if agent_available created agent_session then Some (handler s) else None.

(** A session: requests served one after the other on the handler that
    [AGENT_SESSIONS] keeps for the session. *)
Fixpoint session (session_id : string)
    (requests : list (pystr * list Action))
    (created : bool) (agent_session : option Handler.t)
    (histories : gmap string (list Entry)) : list (Turn * list Event) :=
  match requests with
  | [] => []
  | (user_message, schedule) :: rest =>
      let r := generate_agent_response_stream session_id user_message
                 schedule created agent_session histories in
      r :: session session_id rest created (stored created agent_session r.1)
             (conversation_histories r.1)
  end.

End Coordinator.

(* ================================================================= *)
(** ** llm_handler.py *)

Module Relay.

Import Coordinator.

(** What goes to the websocket: a text message with its [token] and
    [last] fields, the hang-up, or the hand-off. *)
Inductive Message : Type :=
  | TextMsg (token : pystr) (last : bool)
  | EndMsg
  | HandoffMsg.

(** The locals of [llm_call_response_streaming]. *)
Record Loop : Type := mkLoop {
  full_response_parts : list pystr;
  should_end_call : bool;
  should_handoff : bool;
  end_call_logged : bool;
  handoff_logged : bool;
  token_buffer : pystr
}.

Definition init : Loop :=
  {| full_response_parts := []; should_end_call := false;
     should_handoff := false; end_call_logged := false;
     handoff_logged := false; token_buffer := [] |}.

Definition punctuation : list N := lit ".!?,;:".

(** Lines 110-113. *)
Definition send_chunk (token_buffer : pystr) : pystr :=
  if 200 <? length token_buffer
  then take 197 token_buffer ++ lit "..."
  else token_buffer.

(** The body of the [async for] on one yielded dict. *)
Definition consume (ev : Event) (st : Loop) : Loop * list Message :=
  if is_interstitial ev then (st, [TextMsg (chunk ev) true])
  else
    let parts := full_response_parts st ++ [chunk ev] in
    let buf := token_buffer st ++ chunk ev in
    let end_now := Coordinator.should_end_call ev && negb (end_call_logged st) in
    let hand_now := Coordinator.should_handoff ev && negb (handoff_logged st) in
    let words_in_buffer := length (Text.split (Text.strip buf)) in
    let should_send :=
      is_final ev || (3 <=? words_in_buffer)
      || Text.endswith_any punctuation (Text.strip (chunk ev)) in
    let sending := should_send && truthy (Text.strip buf) in
    ({| full_response_parts := parts;
        should_end_call := if end_now then true else should_end_call st;
        should_handoff := if hand_now then true else should_handoff st;
        end_call_logged := if end_now then true else end_call_logged st;
        handoff_logged := if hand_now then true else handoff_logged st;
        token_buffer := if sending then [] else buf |},
     if sending then [TextMsg (send_chunk buf) false] else []).

Fixpoint consume_all (evs : list Event) (st : Loop) : Loop * list Message :=
  match evs with
  | [] => (st, [])
  | ev :: rest =>
      let '(st1, out1) := consume ev st in
      let '(st2, out2) := consume_all rest st1 in
      (st2, out1 ++ out2)
  end.

(** What the function has decided once the generator is exhausted. *)
Record Outcome : Type := mkOutcome {
  end_call : bool;
  handoff : bool;
  full_response : pystr
}.

(** Lines 149-166: the marker fallback for the hand-off. *)
Definition decide_outcome (st : Loop) : Outcome :=
  let full := concat (full_response_parts st) in
  let marker := lit "HANDOFF_HUMAN:" in
  let stripped := Text.strip (default [] (Text.after_first marker full)) in
  if negb (should_handoff st) && Text.contains marker full
  then {| end_call := should_end_call st; handoff := true;
          full_response := stripped |}
  else if should_handoff st
  then {| end_call := should_end_call st; handoff := true;
          full_response := if Text.contains marker full then stripped else full |}
  else {| end_call := should_end_call st; handoff := should_handoff st;
          full_response := full |}.

(** Lines 128-204: the code after the [async for]. *)
Definition finish (st : Loop) : list Message * Outcome :=
  let o := decide_outcome st in
  ((if truthy (Text.strip (token_buffer st))
    then [TextMsg (token_buffer st) false] else [])
   ++ [TextMsg [] true]
   ++ (if handoff o then [HandoffMsg]
       else if end_call o then [EndMsg] else []),
   o).

(** [llm_call_response_streaming] over the generator of the turn: the
    messages sent, and the outcome once the generator is exhausted. *)
Definition llm_call_response_streaming (session_id : string)
    (text : pystr) (schedule : list Action)
    (created : bool) (agent_session : option Handler.t)
    (histories : gmap string (list Redactor.Entry))
    : list Message * option Outcome :=
  let '(s, evs) := generate_agent_response_stream session_id text schedule
                     created agent_session histories in
  let '(st, sent) := consume_all evs init in
  if exhausted s
  then let '(more, o) := finish st in (sent ++ more, Some o)
  else (sent, None).

(** The length of what a message carries. *)
Definition token_length (m : Message) : nat :=
  match m with TextMsg token _ => length token | _ => 0 end.

End Relay.

(* ================================================================= *)
(** * Vocabulary of the statements *)

Module Spec.

Import Redactor Handler Coordinator.

(** The match count of the prefix of [q] words. *)
Definition count_at (uw fw : list pystr) (q : nat) : nat :=
  match_count uw (take q fw).

(** The reading of "best partial trailing match" as the largest one: the
    position kept has the largest match count of all positions
    examined. *)
Definition keeps_largest_partial (uw fw : list pystr) (p : nat) : Prop :=
  ∀ q, 1 ≤ q ≤ length fw → count_at uw fw q ≤ count_at uw fw p.

(** The number of entries of a history that redaction may pick. *)
Definition real_assistant_entries (history : list Entry) : nat :=
  length (filter (λ e, redactable e = true) history).

(** Either call-ending flag of the handler is set. *)
Definition requested (h : Handler.t) : bool :=
  call_end_detected h || handoff_detected h.

(** The phrases of the interstitial events, in the order of emission. *)
Definition selections (evs : list Event) : list pystr :=
  map chunk (filter (λ e, is_interstitial e = true) evs).

(** A token chunk of the polling loop: neither interstitial nor final. *)
Definition streamed (e : Event) : Prop :=
  is_interstitial e = false ∧ is_final e = false.

(** What holds of the events [evs] yielded so far in state [s]: before
    the interstitial only token chunks were yielded, and they carry the
    first tokens of the turn. *)
Definition order_inv (s : Turn) (evs : list Event) : Prop :=
  if interstitial_sent_this_response s then
    ∃ pre p post,
      evs = pre ++ interstitial_event p :: post
      ∧ Forall streamed pre
      ∧ Forall (λ e, is_interstitial e = false) post
      ∧ map chunk pre = take (length pre) (tokens (handler s))
  else
    Forall (λ e, is_interstitial e = false) evs
    ∧ (exhausted s = false →
       Forall streamed evs
       ∧ map chunk evs = take (last_token_count s) (tokens (handler s))
       ∧ last_token_count s ≤ length (tokens (handler s))).

(** The reading of C1's order: nothing but interstitials comes before
    an interstitial. *)
Definition interstitial_first (evs : list Event) : Prop :=
  ∀ pre ev post,
    evs = pre ++ ev :: post → is_interstitial ev = true →
    Forall (λ e, is_interstitial e = true) pre.

(** An event the polling loop yields: the interstitial or a token chunk. *)
Definition in_loop (e : Event) : Prop :=
  is_interstitial e = true ∨ is_final e = false.

(** An event that ends the stream: final and not interstitial. *)
Definition closing (e : Event) : Prop :=
  is_final e = true ∧ is_interstitial e = false.

(** What holds of the events yielded so far with respect to the end of
    the stream; [H0] is the history store as the turn's start left it. *)
Definition end_inv (H0 : gmap string (list Entry))
    (s : Turn) (evs : list Event) : Prop :=
  (thread_alive s = true → error s = false)
  ∧ if exhausted s then
      ∃ pre e,
        evs = pre ++ [e] ∧ Forall in_loop pre
        ∧ ((e = fallback_event ∧ conversation_histories s = H0)
           ∨ (closing e ∧ error s = false ∧ thread_alive s = false))
    else Forall in_loop evs ∧ conversation_histories s = H0.

(** The texts of the events that are not interstitials, in order. *)
Definition texts (evs : list Event) : list pystr :=
  map chunk (filter (λ e, is_interstitial e = false) evs).

(** What holds of the texts yielded so far: while the loop runs they are
    the tokens drained; after a return without apology they concatenate
    to the whole reply. *)
Definition text_inv (s : Turn) (evs : list Event) : Prop :=
  if exhausted s then
    last evs = Some fallback_event
    ∨ (thread_alive s = false
       ∧ concat (texts evs) = concat (tokens (handler s)))
  else
    texts evs = take (last_token_count s) (tokens (handler s))
    ∧ last_token_count s ≤ length (tokens (handler s)).

(** What holds of the last event after a return without apology: it
    carries the two flags of the handler. *)
Definition flag_inv (s : Turn) (evs : list Event) : Prop :=
  exhausted s = true →
  last evs = Some fallback_event
  ∨ (thread_alive s = false
     ∧ ∃ e, last evs = Some e ∧ is_interstitial e = false
            ∧ should_end_call e = call_end_detected (handler s)
            ∧ should_handoff e = handoff_detected (handler s)).

(** The relay's flags and their log marks go together. *)
Definition logged_inv (st : Relay.Loop) : Prop :=
  (Relay.end_call_logged st = true → Relay.should_end_call st = true)
  ∧ (Relay.handoff_logged st = true → Relay.should_handoff st = true).

(** The round-robin order: [l] lists the phrases at the cursor
    positions [k], [k+1], ... taken modulo the number of phrases. *)
Fixpoint rotation (k : nat) (l : list pystr) : Prop :=
  match l with
  | [] => True
  | p :: l' =>
      interstitial_phrases !! k = Some p
      ∧ rotation ((k + 1) `mod` length interstitial_phrases) l'
  end.

(** The cursor after [n] selections. *)
Fixpoint advance (k n : nat) : nat :=
  match n with
  | 0 => k
  | S n' => advance ((k + 1) `mod` length interstitial_phrases) n'
  end.

End Spec.

(* ================================================================= *)
(** * The turn, statement by statement *)

(** In [Coordinator] one iteration of the polling loop is one step, and
    so is the callback of the timer.  In the code the generator runs on
    the thread of the event loop, the callbacks of the handler on the
    agent thread and [_trigger_interstitial] on the thread of the timer,
    and the three are interleaved between any two statements, and inside
    a test between any two reads of a field of the handler.  Here the
    loop of the generator and the callback of the timer advance by one
    statement at a time, and through their tests of the flags by one
    read at a time.  A callback of the handler is one step: each of the
    flags that the tests read is written by one assignment. *)
Module Fine.

Import Redactor Handler Coordinator.

(** Where the generator stands in the loop of [agent.py], before the
    statement named; [count] is the local [current_token_count] and
    [phrase] the local [interstitial]. *)
Inductive Pc : Type :=
  | AtWhile                                      (* line 160 *)
  | AtCount                                      (* line 161 *)
  | AtTest (count : nat)           (* line 164, [interstitial_ready] *)
  | AtTestSent (count : nat)       (* line 164, [interstitial_sent] *)
  | AtTestCallEnd (count : nat)    (* line 164, [call_end_detected] *)
  | AtTestHandoff (count : nat)    (* line 164, [handoff_detected] *)
  | AtSelect (count : nat)                       (* line 165 *)
  | AtMarkSent (count : nat) (phrase : pystr)    (* line 166 *)
  | AtClearReady (count : nat) (phrase : pystr)  (* line 167 *)
  | AtRecord (count : nat) (phrase : pystr)      (* lines 168-169 *)
  | AtYield (count : nat) (phrase : pystr)       (* line 171 *)
  | AtTokens (count : nat) (i : nat).            (* lines 180-190 *)

(** Where the thread of the timer stands: waiting for the delay, or in
    [_trigger_interstitial] before one of the reads of the test of line
    126 ([interstitial_sent], then [interstitial_ready]), before one of
    the reads of the test of line 128 ([call_end_detected], then
    [handoff_detected]), or before the assignment of line 132. *)
Inductive TimerPc : Type :=
  | TimerWaiting
  | TimerTestSent
  | TimerTestReady
  | TimerTestCallEnd
  | TimerTestHandoff
  | TimerSetReady.

Record State : Type := mkState {
  turn : Turn;
  pc : Pc;
  timer_pc : TimerPc
}.

(** The state in which the generator is about to evaluate the condition
    of the loop and the timer is not in its callback. *)
Definition enter (s : Turn) : State :=
  {| turn := s; pc := AtWhile; timer_pc := TimerWaiting |}.

Definition with_sent (b : bool) (h : Handler.t) : Handler.t :=
  {| buffer := buffer h; tokens := tokens h;
     tool_executing := tool_executing h;
     call_end_detected := call_end_detected h;
     handoff_detected := handoff_detected h;
     current_tool := current_tool h;
     phrase_index := phrase_index h;
     interstitial_sent := b;
     interstitial_ready := interstitial_ready h;
     sent_interstitials := sent_interstitials h;
     interstitial_timer := interstitial_timer h |}.

Definition with_ready (b : bool) (h : Handler.t) : Handler.t :=
  {| buffer := buffer h; tokens := tokens h;
     tool_executing := tool_executing h;
     call_end_detected := call_end_detected h;
     handoff_detected := handoff_detected h;
     current_tool := current_tool h;
     phrase_index := phrase_index h;
     interstitial_sent := interstitial_sent h;
     interstitial_ready := b;
     sent_interstitials := sent_interstitials h;
     interstitial_timer := interstitial_timer h |}.

Definition with_recorded (phrase : pystr) (h : Handler.t) : Handler.t :=
  {| buffer := buffer h; tokens := tokens h;
     tool_executing := tool_executing h;
     call_end_detected := call_end_detected h;
     handoff_detected := handoff_detected h;
     current_tool := current_tool h;
     phrase_index := phrase_index h;
     interstitial_sent := interstitial_sent h;
     interstitial_ready := interstitial_ready h;
     sent_interstitials := sent_interstitials h ++ [phrase];
     interstitial_timer := interstitial_timer h |}.

Definition with_timer (tm : Timer) (h : Handler.t) : Handler.t :=
  {| buffer := buffer h; tokens := tokens h;
     tool_executing := tool_executing h;
     call_end_detected := call_end_detected h;
     handoff_detected := handoff_detected h;
     current_tool := current_tool h;
     phrase_index := phrase_index h;
     interstitial_sent := interstitial_sent h;
     interstitial_ready := interstitial_ready h;
     sent_interstitials := sent_interstitials h;
     interstitial_timer := tm |}.

(** The generator moves to [p]; [f] is what the statement does to the
    frame. *)
Definition goto (p : Pc) (f : Turn → Turn) (st : State) : State :=
  {| turn := f (turn st); pc := p; timer_pc := timer_pc st |}.

(** An exception in the [try]: the [except] clause, and the return. *)
Definition raise (st : State) : State * list Event :=
  (goto AtWhile (λ s, (fail s).1) st, [fallback_event]).

(** Lines 195-226, once the condition of the loop is false: the agent
    thread has ended, so that nothing of what is read here is written by
    another thread. *)
Definition leave_loop (session_id : string) (st : State)
    : State * list Event :=
  let s := turn st in
  if error s then raise st
  else
    match finalize session_id s with
    | None => raise st
    | Some histories =>
        (goto AtWhile
           (λ s, {| handler := handler s;
                    conversation_histories := histories;
                    thread_alive := thread_alive s; error := error s;
                    last_token_count := last_token_count s;
                    interstitial_sent_this_response :=
                      interstitial_sent_this_response s;
                    exhausted := true |}) st,
         [final_event (handler s)])
    end.

(** One statement of the generator; in the test of line 164, which is
    [should_send_interstitial() and not interstitial_sent_this_response]
    with its conjunctions evaluated from the left, one read. *)
Definition next (session_id : string) (st : State) : State * list Event :=
  let s := turn st in
  let h := handler s in
  if exhausted s then (st, []) else
  match pc st with
  | AtWhile =>
      if thread_alive s || (last_token_count s <? length (tokens h))
      then (goto AtCount id st, [])
      else leave_loop session_id st
  | AtCount => (goto (AtTest (length (tokens h))) id st, [])
  | AtTest count =>
      if interstitial_ready h
      then (goto (AtTestSent count) id st, [])
      else (goto (AtTokens count (last_token_count s)) id st, [])
  | AtTestSent count =>
      if negb (interstitial_sent h)
      then (goto (AtTestCallEnd count) id st, [])
      else (goto (AtTokens count (last_token_count s)) id st, [])
  | AtTestCallEnd count =>
      if negb (call_end_detected h)
      then (goto (AtTestHandoff count) id st, [])
      else (goto (AtTokens count (last_token_count s)) id st, [])
  | AtTestHandoff count =>
      if negb (handoff_detected h)
         && negb (interstitial_sent_this_response s)
      then (goto (AtSelect count) id st, [])
      else (goto (AtTokens count (last_token_count s)) id st, [])
  | AtSelect count =>
      match get_next_interstitial h with
      | None => raise st
      | Some (interstitial, h1) =>
          (goto (AtMarkSent count interstitial) (with_handler h1) st, [])
      end
  | AtMarkSent count phrase =>
      (goto (AtClearReady count phrase)
         (with_handler (with_sent true h)) st, [])
  | AtClearReady count phrase =>
      (goto (AtRecord count phrase)
         (with_handler (with_ready false h)) st, [])
  | AtRecord count phrase =>
      (goto (AtYield count phrase)
         (λ s, {| handler := with_recorded phrase h;
                  conversation_histories := conversation_histories s;
                  thread_alive := thread_alive s; error := error s;
                  last_token_count := last_token_count s;
                  interstitial_sent_this_response := true;
                  exhausted := exhausted s |}) st, [])
  | AtYield count phrase =>
      (goto (AtTokens count (last_token_count s)) id st,
       [interstitial_event phrase])
  | AtTokens count i =>
      if i <? count
      then match tokens h !! i with
           | Some token =>
               (goto (AtTokens count (S i)) id st, [token_event h token])
           | None => raise st
           end
      else
        (goto AtWhile
           (λ s, {| handler := handler s;
                    conversation_histories := conversation_histories s;
                    thread_alive := thread_alive s; error := error s;
                    last_token_count := count;
                    interstitial_sent_this_response :=
                      interstitial_sent_this_response s;
                    exhausted := exhausted s |}) st, [])
  end.

(** The thread of the timer has ended. *)
Definition timer_ended (h : Handler.t) (st : State) : State :=
  {| turn := with_handler (with_timer TimerDone h) (turn st);
     pc := pc st; timer_pc := TimerWaiting |}.

Definition timer_at (p : TimerPc) (st : State) : State :=
  {| turn := turn st; pc := pc st; timer_pc := p |}.

(** One step of the thread of the timer: it wakes up and, unless the
    timer was cancelled, enters the callback; then one read or one
    assignment of [_trigger_interstitial] at a time. *)
Definition tick (st : State) : State :=
  let h := handler (turn st) in
  match timer_pc st with
  | TimerWaiting =>
      match interstitial_timer h with
      | TimerAlive => timer_at TimerTestSent st
      | TimerCancelled => timer_ended h st
      | NoTimer | TimerDone => st
      end
  | TimerTestSent =>
      if negb (interstitial_sent h)
      then timer_at TimerTestReady st
      else timer_ended h st
  | TimerTestReady =>
      if negb (interstitial_ready h)
      then timer_at TimerTestCallEnd st
      else timer_ended h st
  | TimerTestCallEnd =>
      if call_end_detected h
      then timer_ended h st
      else timer_at TimerTestHandoff st
  | TimerTestHandoff =>
      if handoff_detected h
      then timer_ended h st
      else timer_at TimerSetReady st
  | TimerSetReady => timer_ended (with_ready true h) st
  end.

(** What the three threads can do next: a callback of the agent thread,
    taken as one step; the end of the agent thread; one step of the
    timer thread; one statement of the generator. *)
Inductive Move : Type :=
  | Callback (cb : Handler.Callback)
  | Exit (raised : bool)
  | Tick
  | Next.

Definition step (session_id : string) (m : Move) (st : State)
    : State * list Event :=
  match m with
  | Callback cb =>
      (goto (pc st) (λ s, (Coordinator.step session_id (Agent cb) s).1) st,
       [])
  | Exit raised =>
      (goto (pc st)
         (λ s, (Coordinator.step session_id (ThreadExit raised) s).1) st,
       [])
  | Tick => (tick st, [])
  | Next => next session_id st
  end.

Fixpoint run (session_id : string) (moves : list Move) (st : State)
    : State * list Event :=
  match moves with
  | [] => (st, [])
  | m :: rest =>
      let '(st1, out1) := step session_id m st in
      let '(st2, out2) := run session_id rest st1 in
      (st2, out1 ++ out2)
  end.

(** In the test of line 164 the generator has read [call_end_detected],
    and it has not yet yielded the interstitial of line 171. *)
Definition selecting (p : Pc) : bool :=
  match p with
  | AtTestHandoff _ | AtSelect _ | AtMarkSent _ _ | AtClearReady _ _
  | AtRecord _ _ | AtYield _ _ => true
  | _ => false
  end.

(** In the test of line 128 the callback of the timer has read
    [call_end_detected], and it has not yet set [interstitial_ready]. *)
Definition setting_ready (p : TimerPc) : bool :=
  match p with TimerTestHandoff | TimerSetReady => true | _ => false end.

(** The interstitials that a generator can still yield without another
    test of line 164 passing: the one it is selecting, unless the read
    it is about to make will find the hand-off flag set. *)
Definition owed (st : State) : nat :=
  match pc st with
  | AtTestHandoff _ =>
      if handoff_detected (handler (turn st)) then 0 else 1
  | p => if selecting p then 1 else 0
  end.

(** The callback of the timer is not on its way to the assignment of
    line 132: it has not passed the test of line 128, or the read it is
    about to make will find the hand-off flag set. *)
Definition timer_safe (st : State) : bool :=
  match timer_pc st with
  | TimerSetReady => false
  | TimerTestHandoff => handoff_detected (handler (turn st))
  | _ => true
  end.

End Fine.

(* ================================================================= *)
(** * Schedules of concrete turns *)

Module Schedules.

Import Handler Coordinator.

(** The model says a few words, then calls a slow tool. *)
Definition words_then_tool : list Action :=
  [ Agent LlmStart; Agent (NewToken (lit "Sure. ")); Poll; Agent LlmEnd;
    Agent (ToolStart "check_stock"); TimerFire; Poll; Agent ToolEnd;
    Agent LlmStart; Agent (NewToken (lit "In stock.")); Agent LlmEnd;
    ThreadExit false; Poll; Poll ].

(** A slow tool, and nothing said. *)
Definition slow_tool : list Action :=
  [ Agent (ToolStart "check_stock"); TimerFire; Poll; Agent ToolEnd;
    ThreadExit false; Poll ].

(** The reply carries a marker and no tool was called. *)
Definition marker_only (marker : string) : list Action :=
  [ Agent LlmStart; Agent (NewToken (lit marker ++ lit " Goodbye!"));
    Agent LlmEnd; ThreadExit false; Poll; Poll ].

(** The agent thread raises after a first token. *)
Definition raising : list Action :=
  [ Agent LlmStart; Agent (NewToken (lit "Let")); ThreadExit true;
    Poll; Poll ].

(** One token of 201 characters, and the end of the turn. *)
Definition long_token : list Action :=
  [ Agent LlmStart; Agent (NewToken (repeat 97%N 201)); Agent LlmEnd;
    ThreadExit false; Poll; Poll ].

End Schedules.

(* ================================================================= *)
(** ** agent_manager/tools.py: the two call-ending tools *)

Module Tools.

Definition goodbye_messages : list pystr :=
  [ lit "Thank you for calling CoffeeMarket! Have a wonderful day and enjoy your coffee!";
    lit "Thanks for choosing CoffeeMarket! We appreciate your business. Goodbye!";
    lit "It was great helping you today! Thank you for calling CoffeeMarket. Have a great day!";
    lit "Thank you for calling CoffeeMarket! We're here whenever you need us. Goodbye!";
    lit "Thanks for calling! Enjoy your coffee and have a fantastic day!" ].

(** The local [message] of [end_call]. *)
Definition end_call_message (reason : pystr) : pystr :=
  let r := Text.lower reason in
  if Text.contains (lit "help") r || Text.contains (lit "complete") r
  then lit "Thank you for calling CoffeeMarket! I'm glad I could help you today. Have a wonderful day and enjoy your coffee!"
  else if Text.contains (lit "goodbye") r || Text.contains (lit "bye") r
  then lit "Thank you for calling CoffeeMarket! Have a great day and enjoy your coffee!"
  else default [] (goodbye_messages !! 0).

Definition end_call (reason : pystr) : pystr :=
  lit "CALL_END:" ++ end_call_message reason.

Definition handoff_message : pystr :=
  lit "I understand you'd like to speak with one of our team members. Let me connect you with a human agent right away. Please hold on for just a moment while I transfer your call.".

Definition escalate_to_human_agent (reason : pystr) : pystr :=
  lit "HANDOFF_HUMAN:" ++ handoff_message.

End Tools.

(* ================================================================= *)
(** ** conversation.py *)

Module Conversation.

Import Redactor.

(** The dict stored in [session_state]; its [start_time] is a time
    stamp. *)
Record SessionInfo : Type := mkSessionInfo {
  call_sid : option string;
  call_state : string
}.

(** The module-level dicts of [conversation.py], with [AGENT_SESSIONS]
    of [agent.py].  A websocket is known by a number; a logger by its
    presence.  [callSid] may be missing from a setup message, so the
    keys of [call_sid_to_session_id] include [None]. *)
Record World : Type := mkWorld {
  session_state : gmap string SessionInfo;
  connections : gmap string nat;
  session_conversation_loggers : gmap string unit;
  conversation_histories : gmap string (list Entry);
  call_sid_to_session_id : gmap (option string) string;
  agent_sessions : gmap string Handler.t
}.

(** Truthiness of an [Optional[str]]: neither [None] nor empty. *)
Definition given (o : option string) : bool :=
  match o with
  | Some id => bool_decide (id ≠ ""%string)
  | None => false
  end.

(** [cleanup_session_data]; [if k in d: del d[k]] is [delete k d]. *)
Definition cleanup_session_data (session_id call_sid : option string)
    (w : World) : World :=
  match session_id with
  | None => w
  | Some sid =>
      if negb (given session_id) then w
      else
        let call_sid' :=
          match session_state w !! sid with
          | Some info => if given call_sid then call_sid
                         else Conversation.call_sid info
          | None => call_sid
          end in
        {| session_state := delete sid (session_state w);
           connections := delete sid (connections w);
           session_conversation_loggers :=
             delete sid (session_conversation_loggers w);
           conversation_histories := conversation_histories w;
           call_sid_to_session_id :=
             if given call_sid'
             then delete call_sid' (call_sid_to_session_id w)
             else call_sid_to_session_id w;
           agent_sessions := agent_sessions w |}
  end.

(** A message of the relay, after [json.loads] and the defaults of
    [data.get]. *)
Inductive Incoming : Type :=
  | Malformed
  | Setup (sessionId callSid : option string)
  | Prompt (voicePrompt lang : pystr)
  | Interrupt (utteranceUntilInterrupt : pystr)
  | ErrorReport
  | Other.

(** The frame of [conversationrelay]: its local [session_id], and the
    module state. *)
Record Conn : Type := mkConn {
  session_id : option string;
  world : World
}.

Definition unsupported_language : pystr :=
  lit "I'm sorry, I don't understand that language. Please try again in English.".

(** The call of [llm_call_response_streaming] from the prompt branch:
    the messages it sends, and what the turn leaves in the shared
    history store and in [AGENT_SESSIONS].  [created] says whether
    [create_agent] returns when it is called. *)
Definition respond (sid : string) (text : pystr)
    (schedule : list Coordinator.Action) (created : bool) (w : World)
    : World * list Relay.Message :=
  let g := Coordinator.generate_agent_response_stream sid text schedule
             created (agent_sessions w !! sid) (conversation_histories w) in
  let r := Relay.llm_call_response_streaming sid text schedule
             created (agent_sessions w !! sid) (conversation_histories w) in
  ({| session_state := session_state w;
      connections := connections w;
      session_conversation_loggers := session_conversation_loggers w;
      conversation_histories := Coordinator.conversation_histories g.1;
      call_sid_to_session_id := call_sid_to_session_id w;
      agent_sessions :=
        match Coordinator.stored created (agent_sessions w !! sid) g.1 with
        | Some h => <[sid := h]> (agent_sessions w)
        | None => agent_sessions w
        end |},
   r.1).

Definition with_histories (hs : gmap string (list Entry)) (w : World) : World :=
  {| session_state := session_state w;
     connections := connections w;
     session_conversation_loggers := session_conversation_loggers w;
     conversation_histories := hs;
     call_sid_to_session_id := call_sid_to_session_id w;
     agent_sessions := agent_sessions w |}.

(** One iteration of the receive loop on the websocket [ws].  [schedule]
    is how the turn runs if the message starts one, and [created] whether
    an agent can be made for it. *)
Definition receive (ws : nat) (msg : Incoming)
    (schedule : list Coordinator.Action) (created : bool) (c : Conn)
    : Conn * list Relay.Message :=
  match msg with
  | Malformed => (c, [])
  | Setup sessionId callSid =>
      match sessionId with
      | Some sid =>
          if negb (given sessionId)
          then ({| session_id := sessionId; world := world c |}, [])
          else
            let w := world c in
            ({| session_id := sessionId;
                world :=
                  {| session_state :=
                       <[sid := {| call_sid := callSid;
                                   call_state := "on_call" |}]>
                         (session_state w);
                     connections := <[sid := ws]> (connections w);
                     session_conversation_loggers :=
                       <[sid := ()]> (session_conversation_loggers w);
                     conversation_histories := conversation_histories w;
                     call_sid_to_session_id :=
                       <[callSid := sid]> (call_sid_to_session_id w);
                     agent_sessions := agent_sessions w |} |}, [])
      | None => ({| session_id := None; world := world c |}, [])
      end
  | Prompt voicePrompt lang =>
      match session_id c with
      | Some sid =>
          if negb (given (session_id c)) then (c, [])
          else if negb (Text.contains (lit "en") lang)
          then (c, [Relay.TextMsg unsupported_language true])
          else if negb (truthy (Text.strip voicePrompt)) then (c, [])
          else
            let text := Text.strip voicePrompt in
            match session_conversation_loggers (world c) !! sid with
            | Some _ =>
                let '(w, sent) := respond sid text schedule created (world c) in
                ({| session_id := session_id c; world := w |}, sent)
            | None => (c, [])
            end
      | None => (c, [])
      end
  | Interrupt utterance =>
      match session_id c with
      | Some sid =>
          if negb (given (session_id c)) then (c, [])
          else
            let r := redact_conversation_history sid utterance
                       (conversation_histories (world c)) in
            ({| session_id := session_id c;
                world := with_histories r.1 (world c) |}, [])
      | None => (c, [])
      end
  | ErrorReport => (c, [])
  | Other => (c, [])
  end.

(** The receive loop over the messages of a call. *)
Fixpoint serve (ws : nat) (msgs : list (Incoming * list Coordinator.Action))
    (created : bool) (c : Conn) : Conn * list Relay.Message :=
  match msgs with
  | [] => (c, [])
  | (msg, schedule) :: rest =>
      let '(c1, out1) := receive ws msg schedule created c in
      let '(c2, out2) := serve ws rest created c1 in
      (c2, out1 ++ out2)
  end.

(** [WebSocketDisconnect], and the [finally] clause. *)
Definition disconnect (c : Conn) : World :=
  if given (session_id c)
  then cleanup_session_data (session_id c) None (world c)
  else world c.

End Conversation.

(* ================================================================= *)
(** * Vocabulary of the further statements *)

Module Frame.

Import Redactor Handler Coordinator.

(** The length of [" ".join(ws)]. *)
Definition joined_length (ws : list pystr) : nat :=
  length (Text.join (lit " ") ws).

(** A word: not empty, and without white space. *)
Definition word (w : pystr) : Prop :=
  w ≠ [] ∧ Forall (λ c, Text.isspace c = false) w.

(** What a turn keeps true of its state [s] and of the events [evs]
    yielded so far; [histories] is the store and [user_message] the
    request the turn started with. *)
Definition turn_inv (session_id : string)
    (histories : gmap string (list Entry)) (user_message : pystr)
    (s : Turn) (evs : list Event) : Prop :=
  let before := default [] (histories !! session_id) in
  buffer (handler s) = concat (tokens (handler s))
  ∧ sent_interstitials (handler s) = Spec.selections evs
  ∧ last_token_count s ≤ length (tokens (handler s))
  ∧ if exhausted s then
      (last evs = Some fallback_event
       ∧ conversation_histories s
         = <[session_id := before ++ [user_entry user_message]]> histories)
      ∨ (thread_alive s = false
         ∧ Spec.texts evs = tokens (handler s) ++ [[]]
         ∧ last evs = Some (final_event (handler s))
         ∧ conversation_histories s
           = <[session_id :=
                 before ++ user_entry user_message
                   :: assistant_entry (clean_response (handler s))
                   :: map interstitial_entry (Spec.selections evs)]> histories)
    else
      Spec.texts evs = take (last_token_count s) (tokens (handler s))
      ∧ conversation_histories s
        = <[session_id := before ++ [user_entry user_message]]> histories.


(** The payloads of the text messages sent with [last] false. *)
Fixpoint payload (msgs : list Relay.Message) : pystr :=
  match msgs with
  | [] => []
  | Relay.TextMsg token false :: rest => token ++ payload rest
  | _ :: rest => payload rest
  end.

(** A text message that carries something. *)
Definition carries_text (m : Relay.Message) : Prop :=
  ∃ token last, m = Relay.TextMsg token last ∧ token ≠ [].

(** The interstitial messages among the messages sent: text, marked
    last, not empty. *)
Definition fillers (msgs : list Relay.Message) : list pystr :=
  omap (λ m, match m with
             | Relay.TextMsg token true =>
                 if truthy token then Some token else None
             | _ => None
             end) msgs.

End Frame.

(* ================================================================= *)
(** * Properties of the string primitives *)

(** A literal has code points below 256. *)
Ltac below_256 :=
  vm_compute; repeat (constructor; [reflexivity|]); constructor.

Section TextFacts.

Import Text.

Lemma eqb_char_true (a b : N) : eqb_char a b = true ↔ a = b.
Proof. unfold eqb_char. apply N.eqb_eq. Qed.

Lemma startswith_app (p s : pystr) :
  startswith p s = true ↔ ∃ post, s = p ++ post.
Proof.
  revert s. induction p as [|a p IH]; intros s; simpl.
  - split; [intros _; by exists s | done].
  - destruct s as [|b s].
    + split; [done | intros [post Hpost]; discriminate].
    + rewrite andb_true_iff, eqb_char_true, IH. split.
      * intros [-> [post ->]]. by exists post.
      * intros [post Hpost]. injection Hpost as -> ->. eauto.
Qed.

(** [find] returns the start of an occurrence, and the leftmost one. *)
Lemma find_Some (sub s : pystr) (i : nat) :
  find sub s = Some i →
  ∃ pre post, s = pre ++ sub ++ post ∧ length pre = i
    ∧ ∀ pre' post', s = pre' ++ sub ++ post' → i ≤ length pre'.
Proof.
  revert i. induction s as [|c s IH]; intros i; simpl.
  - destruct (startswith sub []) eqn:E; [|done].
    intros [= <-]. apply startswith_app in E as [post E].
    exists [], post. repeat split; [done | intros; lia].
  - destruct (startswith sub (c :: s)) eqn:E.
    + intros [= <-]. apply startswith_app in E as [post E].
      exists [], post. repeat split; [done | intros; lia].
    + destruct (find sub s) as [j|] eqn:F; [|done].
      intros [= <-]. destruct (IH j eq_refl) as (pre & post & -> & Hlen & Hmin).
      exists (c :: pre), post. repeat split; [simpl; lia |].
      intros pre' post' Heq. destruct pre' as [|c' pre'].
      * exfalso. assert (startswith sub (c :: pre ++ sub ++ post) = true) as E'.
        { apply startswith_app. exists post'. exact Heq. }
        congruence.
      * injection Heq as -> Heq. simpl. apply Hmin in Heq. lia.
Qed.

Lemma find_None (sub s pre post : pystr) :
  find sub s = None → s ≠ pre ++ sub ++ post.
Proof.
  revert pre. induction s as [|c s IH]; intros pre; simpl.
  - destruct (startswith sub []) eqn:E; [done|]. intros _ Heq.
    destruct pre; [|done]. simpl in Heq.
    assert (startswith sub [] = true) by (apply startswith_app; eauto).
    congruence.
  - destruct (startswith sub (c :: s)) eqn:E; [done|].
    destruct (find sub s) eqn:F; [done|]. intros _ Heq.
    destruct pre as [|c' pre].
    + assert (startswith sub (c :: s) = true) by (apply startswith_app; eauto).
      congruence.
    + injection Heq as -> Heq. by eapply IH.
Qed.

Lemma find_is_Some (sub s pre post : pystr) :
  s = pre ++ sub ++ post → is_Some (find sub s).
Proof.
  intros Heq. destruct (find sub s) eqn:F; [eauto|].
  by eapply find_None in F.
Qed.

Lemma lower_cons (c : N) (s : pystr) : lower (c :: s) = lower_full c ++ lower s.
Proof. reflexivity. Qed.

(** Lowering never shortens a text. *)
Lemma length_lower_le (s : pystr) : length s ≤ length (lower s).
Proof.
  induction s as [|c s IH]; [done|].
  rewrite lower_cons, length_app. unfold lower_full.
  destruct (c =? 304)%N; simpl; lia.
Qed.

Lemma lower_nil_inv (s : pystr) : lower s = [] → s = [].
Proof.
  intros H. pose proof (length_lower_le s) as Hle. rewrite H in Hle.
  destruct s; [done | simpl in Hle; lia].
Qed.

(** On code points below 256 lowering is letter by letter. *)
Lemma lower_latin1 (s : pystr) :
  Forall latin1 s → lower s = map lower_char s.
Proof.
  induction 1 as [|c s Hc _ IH]; [done|].
  rewrite lower_cons, IH. unfold lower_full.
  destruct (N.eqb_spec c 304) as [-> | _]; [|done].
  unfold latin1 in Hc. lia.
Qed.

Lemma length_lower (s : pystr) :
  Forall latin1 s → length (lower s) = length s.
Proof. intros H. rewrite (lower_latin1 s H). apply length_map. Qed.

Lemma lower_take (n : nat) (s : pystr) :
  Forall latin1 s → lower (take n s) = take n (lower s).
Proof.
  intros H. rewrite (lower_latin1 s H), lower_latin1 by by apply Forall_take.
  by rewrite <- fmap_take.
Qed.

Lemma lower_char_latin1 (c : N) : latin1 c → latin1 (lower_char c).
Proof.
  unfold latin1, lower_char. intros Hc.
  destruct (((65 <=? c) && (c <=? 90))
            || ((192 <=? c) && (c <=? 222) && negb (c =? 215)))%N eqn:E; [|done].
  apply orb_true_iff in E as [E | E].
  - apply andb_true_iff in E as [_ E]. apply N.leb_le in E. lia.
  - apply andb_true_iff in E as [E _]. apply andb_true_iff in E as [_ E].
    apply N.leb_le in E. lia.
Qed.

Lemma Forall_latin1_lower (s : pystr) :
  Forall latin1 s → Forall latin1 (lower s).
Proof.
  intros H. rewrite (lower_latin1 s H). apply Forall_fmap.
  eapply Forall_impl; [exact H|]. intros c. apply lower_char_latin1.
Qed.


Lemma truthy_false (s : pystr) : truthy s = false ↔ s = [].
Proof. by destruct s. Qed.

Lemma truthy_true (s : pystr) : truthy s = true ↔ s ≠ [].
Proof. by destruct s. Qed.

End TextFacts.

(* ================================================================= *)
(** * The redactor *)

Section RedactorFacts.

Import Text Redactor Spec.

Lemma find_spoken_portion_empty_utterance (T : pystr) :
  find_spoken_portion T [] = [].
Proof. reflexivity. Qed.




(** *** Word alignment *)

(** What the scan over the positions [a, a+1, ..., a+n-1] returns, from
    the running value [b]: the first position with a full match; failing
    that the last position with a non-zero match; failing that [b]. *)
Lemma align_seq (uw fw : list pystr) (n : nat) :
  ∀ a b,
  let p := align uw fw (seq a n) b in
  (a ≤ p < a + n ∧ count_at uw fw p = length uw
     ∧ ∀ r, a ≤ r < p → count_at uw fw r ≠ length uw)
  ∨ ((∀ q, a ≤ q < a + n → count_at uw fw q ≠ length uw)
     ∧ ((a ≤ p < a + n ∧ 0 < count_at uw fw p
           ∧ ∀ r, p < r < a + n → count_at uw fw r = 0)
        ∨ ((∀ q, a ≤ q < a + n → count_at uw fw q = 0) ∧ p = b))).
Proof.
  induction n as [|n IH]; intros a b; simpl.
  - right. split; [intros; lia|]. right. split; [intros; lia | done].
  - fold (count_at uw fw a).
    destruct (Nat.eqb_spec (count_at uw fw a) (length uw)) as [Hfull|Hnot].
    + left. repeat split; [lia | lia | done | intros; lia].
    + assert (∀ (P : nat → Prop), P a → (∀ q, S a ≤ q < S a + n → P q)
                → ∀ q, a ≤ q < a + S n → P q) as Hext.
      { intros P Ha Hrest q Hq. destruct (decide (q = a)) as [-> | ]; [done|].
        apply Hrest. lia. }
      destruct (Nat.ltb_spec 0 (count_at uw fw a)) as [Hpos|Hzero].
      * destruct (IH (S a) a) as [(Hp & Hf & Hmin)|[Hno [(Hp & Hc & Hmax)|[Hz -> ]]]].
        -- left. repeat split; [lia | lia | done |].
           intros r Hr. destruct (decide (r = a)) as [-> | ]; [done|].
           apply Hmin. lia.
        -- right. split; [by apply Hext|]. left.
           repeat split; [lia | lia | done | intros; apply Hmax; lia].
        -- right. split; [by apply Hext|]. left.
           repeat split; [lia | lia | done | intros; apply Hz; lia].
      * destruct (IH (S a) b) as [(Hp & Hf & Hmin)|[Hno [(Hp & Hc & Hmax)|[Hz Hb]]]].
        -- left. repeat split; [lia | lia | done |].
           intros r Hr. destruct (decide (r = a)) as [-> | ]; [done|].
           apply Hmin. lia.
        -- right. split; [by apply Hext|]. left.
           repeat split; [lia | lia | done | intros; apply Hmax; lia].
        -- right. split; [by apply Hext|]. right.
           split; [apply Hext; [lia | done] | done].
Qed.

(** C3, refuted as stated.  On the text ["y z q z"] and the utterance
    ["x y z"] the fallback is taken and no prefix matches all three
    utterance words; the prefix of two words matches two trailing words,
    but the redactor keeps the prefix of four words, which matches one. *)
Lemma last_partial_match_is_not_largest :
  let T := lit "y z q z" in
  let U := lit "x y z" in
  let uw := split (lower U) in
  let fw := split (lower T) in
  find (lower U) (lower T) = None
  ∧ (∀ q, 1 ≤ q ≤ length fw → count_at uw fw q ≠ length uw)
  ∧ best_match_pos uw fw = 4
  ∧ count_at uw fw 2 = 2
  ∧ count_at uw fw 4 = 1
  ∧ find_spoken_portion T U = lit "y z q z"
  ∧ ¬ keeps_largest_partial uw fw (best_match_pos uw fw).
Proof.
  repeat split; try (vm_compute; reflexivity).
  - intros q Hq. vm_compute in Hq.
    assert (q = 1 ∨ q = 2 ∨ q = 3 ∨ q = 4) as [-> | [-> | [-> | -> ]]] by lia;
      vm_compute; lia.
  - intros H. specialize (H 2 ltac:(vm_compute; lia)).
    vm_compute in H. lia.
Qed.

(** C3, as the code has it.  In the word-alignment fallback (the
    lower-cased utterance does not occur in the lower-cased text, and the
    utterance has at least one word) the redactor returns the first [p]
    words of the text joined by single spaces, where [p] is the smallest
    prefix length whose trailing words match all utterance words; if no
    prefix length does, [p] is the largest prefix length whose last word
    matches the last utterance word (a non-zero trailing match); and if
    there is none either, nothing is returned. *)
Theorem word_alignment_fallback (T U : pystr) :
  let uw := split (lower U) in
  let fw := split (lower T) in
  let p := best_match_pos uw fw in
  find (lower U) (lower T) = None →
  uw ≠ [] →
  find_spoken_portion T U
    = (if 0 <? p then join (lit " ") (take p (split T)) else [])
  ∧ ((1 ≤ p ≤ length fw ∧ count_at uw fw p = length uw
        ∧ ∀ r, 1 ≤ r < p → count_at uw fw r ≠ length uw)
     ∨ ((∀ q, 1 ≤ q ≤ length fw → count_at uw fw q ≠ length uw)
        ∧ 1 ≤ p ≤ length fw ∧ 0 < count_at uw fw p
        ∧ ∀ r, p < r ≤ length fw → count_at uw fw r = 0)
     ∨ ((∀ q, 1 ≤ q ≤ length fw → count_at uw fw q = 0)
        ∧ p = 0 ∧ find_spoken_portion T U = [])).
Proof.
  intros uw fw p Hfind Huw.
  assert (find_spoken_portion T U
          = (if 0 <? p then join (lit " ") (take p (split T)) else [])) as Hres.
  { unfold find_spoken_portion.
    destruct U as [|c U]; [done|]. destruct T as [|d T]; [done|].
    cbn [truthy negb orb]. rewrite Hfind.
    fold uw fw. destruct uw as [|u uw']; [done|].
    destruct fw as [|f fw'] eqn:Efw; [done|]. reflexivity. }
  split; [exact Hres|].
  pose proof (align_seq uw fw (length fw) 1 0) as Hspec.
  fold (best_match_pos uw fw) in Hspec. fold p in Hspec. simpl in Hspec.
  destruct Hspec as [(Hp & Hf & Hmin)|[Hno [(Hp & Hc & Hmax)|[Hz Hp]]]].
  - left. repeat split; [lia | lia | done | done].
  - right. left. repeat split; [|lia|lia|done|].
    + intros q Hq. apply Hno. lia.
    + intros r Hr. apply Hmax. lia.
  - right. right. repeat split; [|done|].
    + intros q Hq. apply Hz. lia.
    + rewrite Hres, Hp. reflexivity.
Qed.

Lemma word_alignment_fallback_witness :
  find_spoken_portion (lit "I can check  that for you right now")
                      (lit "check that for")
  = lit "I can check that for".
Proof.
  destruct (word_alignment_fallback
              (lit "I can check  that for you right now")
              (lit "check that for")
              ltac:(vm_compute; reflexivity) ltac:(vm_compute; discriminate))
    as [Hres _].
  rewrite Hres. vm_compute. reflexivity.
Defined.

(** *** Redaction of the history *)

Lemma scan_Some (history : list Entry) (n i : nat) (e : Entry) :
  scan history n = Some (i, e) →
  i < n ∧ history !! i = Some e ∧ redactable e = true
  ∧ ∀ j e', i < j < n → history !! j = Some e' → redactable e' = false.
Proof.
  induction n as [|n IH]; simpl; [done|].
  destruct (history !! n) as [e0|] eqn:En.
  - destruct (redactable e0) eqn:Er.
    + intros [= <- <-]. repeat split; [lia | done | done | intros; lia].
    + intros H. destruct (IH H) as (Hi & Hl & Hr & Hafter).
      repeat split; [lia | done | done |].
      intros j e' Hj Hje. destruct (decide (j = n)) as [-> | ]; [congruence|].
      eapply Hafter; [|done]. lia.
  - intros H. destruct (IH H) as (Hi & Hl & Hr & Hafter).
    repeat split; [lia | done | done |].
    intros j e' Hj Hje. destruct (decide (j = n)) as [-> | ]; [congruence|].
    eapply Hafter; [|done]. lia.
Qed.

Lemma scan_None (history : list Entry) (n : nat) :
  scan history n = None ↔
  ∀ j e', j < n → history !! j = Some e' → redactable e' = false.
Proof.
  induction n as [|n IH]; simpl.
  - split; [intros; lia | done].
  - destruct (history !! n) as [e0|] eqn:En.
    + destruct (redactable e0) eqn:Er.
      * split; [done|]. intros H. specialize (H n e0 ltac:(lia) En). congruence.
      * rewrite IH. split.
        -- intros H j e' Hj Hje. destruct (decide (j = n)) as [-> | ]; [congruence|].
           eapply H; [|done]. lia.
        -- intros H j e' Hj. apply H. lia.
    + rewrite IH. split.
      * intros H j e' Hj Hje. destruct (decide (j = n)) as [-> | ]; [congruence|].
        eapply H; [|done]. lia.
      * intros H j e' Hj. apply H. lia.
Qed.

(** The scan is determined by what it finds. *)
Lemma scan_found (history : list Entry) (n i : nat) (e : Entry) :
  i < n → history !! i = Some e → redactable e = true →
  (∀ j e', i < j < n → history !! j = Some e' → redactable e' = false) →
  scan history n = Some (i, e).
Proof.
  intros Hi Hl Hr Hafter.
  destruct (scan history n) as [[i' e']|] eqn:Hs.
  - apply scan_Some in Hs as (Hi' & Hl' & Hr' & Hafter').
    destruct (lt_eq_lt_dec i i') as [[Hlt | -> ] | Hgt].
    + specialize (Hafter i' e' ltac:(lia) Hl'). congruence.
    + congruence.
    + specialize (Hafter' i e ltac:(lia) Hl). congruence.
  - pose proof (proj1 (scan_None history n) Hs i e Hi Hl). congruence.
Qed.

(** C10.  Redaction adds no entry.  Either it reports failure and all
    histories are as before; or it reports success and, in the history
    of the session only, one entry with role assistant either has its
    content replaced or is deleted, every other entry staying as it was
    and where it was relative to the others. *)
Theorem redaction_frame (session_id : string) (U : pystr)
    (histories : gmap string (list Entry)) :
  let r := redact_conversation_history session_id U histories in
  (success r.2 = false ∧ r.1 = histories)
  ∨ (success r.2 = true
     ∧ ∃ history i e,
         histories !! session_id = Some history
         ∧ history !! i = Some e
         ∧ role e = "assistant"%string
         ∧ ((∃ c, r.1 = <[session_id := <[i := set_content c e]> history]> histories
                  ∧ length (<[i := set_content c e]> history) = length history)
            ∨ (r.1 = <[session_id := delete i history]> histories
               ∧ S (length (delete i history)) = length history))).
Proof.
  unfold redact_conversation_history.
  destruct (histories !! session_id) as [history|] eqn:Hh; [|by left].
  destruct history as [|e0 history0] eqn:Ehist; [by left|].
  rewrite <- Ehist. clear Ehist.
  destruct (scan history (length history)) as [[i e]|] eqn:Hs; [|by left].
  apply scan_Some in Hs as (Hi & Hl & Hr & _).
  right. split; [done|]. exists history, i, e.
  split; [done|]. split; [done|]. split.
  { unfold redactable, is_assistant in Hr.
    apply andb_true_iff in Hr as [Hr _]. by apply bool_decide_eq_true in Hr. }
  simpl. destruct (truthy (strip (find_spoken_portion (content e) U))).
  - left. eexists. split; [done|]. apply length_insert.
  - right. split; [done|]. rewrite length_delete; [lia|]. eauto.
Qed.

Lemma redactable_set_content (c : pystr) (e : Entry) :
  redactable (set_content c e) = redactable e.
Proof. reflexivity. Qed.

Lemma sole_entry_elsewhere (history : list Entry) (i : nat) (e : Entry) :
  history !! i = Some e → redactable e = true →
  real_assistant_entries history = 1 →
  ∀ j e', j ≠ i → history !! j = Some e' → redactable e' = false.
Proof.
  intros Hl Hr Hone j e' Hne Hj.
  destruct (redactable e') eqn:Hr'; [exfalso|done].
  unfold real_assistant_entries in Hone.
  rewrite <- (take_drop_middle history i e Hl) in Hone, Hj.
  rewrite filter_app, filter_cons_True, length_app in Hone by done.
  simpl in Hone.
  assert (filter (λ e, redactable e = true) (take i history) = []
          ∧ filter (λ e, redactable e = true) (drop (S i) history) = [])
    as [Hpre Hpost].
  { split; apply length_zero_iff_nil; lia. }
  assert (i < length history) as Hi by (by eapply lookup_lt_Some).
  assert (length (take i history) = i) as Htake by (rewrite length_take; lia).
  assert (e' ∈ take i history ∨ e' ∈ drop (S i) history) as [Hin|Hin].
  { destruct (decide (j < i)).
    - left. rewrite lookup_app_l in Hj by lia. by eapply list_elem_of_lookup_2.
    - right. rewrite lookup_app_r in Hj by lia.
      rewrite Htake in Hj. destruct (j - i) as [|k] eqn:Ek; [lia|].
      simpl in Hj. by eapply list_elem_of_lookup_2. }
  - assert (e' ∈ filter (λ e, redactable e = true) (take i history)) as Hf
      by (by apply list_elem_of_filter).
    rewrite Hpre in Hf. by apply not_elem_of_nil in Hf.
  - assert (e' ∈ filter (λ e, redactable e = true) (drop (S i) history)) as Hf
      by (by apply list_elem_of_filter).
    rewrite Hpost in Hf. by apply not_elem_of_nil in Hf.
Qed.

Lemma some_entry_redactable (history : list Entry) :
  0 < real_assistant_entries history →
  ∃ i e, scan history (length history) = Some (i, e).
Proof.
  intros Hpos. destruct (scan history (length history)) as [[i e]|] eqn:Hs;
    [eauto|exfalso].
  unfold real_assistant_entries in Hpos.
  destruct (filter (λ e, redactable e = true) history) as [|e l] eqn:Hf;
    [simpl in Hpos; lia|].
  assert (e ∈ filter (λ e, redactable e = true) history) as Hin
    by (rewrite Hf; apply list_elem_of_here).
  apply list_elem_of_filter in Hin as [Hr Hin].
  apply list_elem_of_lookup_1 in Hin as [j Hj].
  pose proof (proj1 (scan_None _ _) Hs j e (lookup_lt_Some _ _ _ Hj) Hj).
  congruence.
Qed.

Lemma redact_found (session_id : string) (U : pystr)
    (histories : gmap string (list Entry)) (history : list Entry)
    (i : nat) (e : Entry) :
  histories !! session_id = Some history →
  scan history (length history) = Some (i, e) →
  let spoken := find_spoken_portion (content e) U in
  redact_conversation_history session_id U histories
  = (<[session_id := if truthy (strip spoken)
                     then <[i := set_content spoken e]> history
                     else delete i history]> histories,
     {| success := true; message := "Conversation history redacted";
        spoken_text := Some spoken;
        original_text := Some (content e);
        redacted_text := Some (if truthy spoken
                               then drop (length spoken) (content e)
                               else content e) |}).
Proof.
  intros Hh Hs. unfold redact_conversation_history. rewrite Hh.
  destruct history as [|e0 h0]; [done|]. by rewrite Hs.
Qed.

Lemma redact_not_found (session_id : string) (U : pystr)
    (histories : gmap string (list Entry)) (history : list Entry) :
  histories !! session_id = Some history →
  scan history (length history) = None →
  redact_conversation_history session_id U histories
  = (histories,
     failure (if bool_decide (length history = 0)
              then "No conversation history found"
              else "No assistant message found to redact")).
Proof.
  intros Hh Hs. unfold redact_conversation_history. rewrite Hh.
  destruct history as [|e0 h0]; [done|]. by rewrite Hs.
Qed.

(** C9, refuted as stated.  The history has one real assistant entry and
    the utterance is a prefix of it: the first call shortens the entry to
    what was spoken, and the second call finds that entry again and
    reports success. *)
Lemma second_redaction_finds_updated_entry :
  let history :=
    [ Coordinator.user_entry (lit "hi");
      Coordinator.assistant_entry (lit "Hello there friend") ] in
  let histories : gmap string (list Entry) := {[ "s"%string := history ]} in
  let first := redact_conversation_history "s" (lit "hello") histories in
  let second := redact_conversation_history "s" (lit "hello") first.1 in
  real_assistant_entries history = 1
  ∧ first.1 !! "s"%string
    = Some [ Coordinator.user_entry (lit "hi");
             Coordinator.assistant_entry (lit "Hello") ]
  ∧ success second.2 = true
  ∧ message second.2 ≠ "No assistant message found to redact"%string.
Proof.
  intros history histories.
  assert (redact_conversation_history "s" (lit "hello") histories
          = (<["s"%string := [ Coordinator.user_entry (lit "hi");
                               Coordinator.assistant_entry (lit "Hello") ]]>
               histories,
             {| success := true; message := "Conversation history redacted";
                spoken_text := Some (lit "Hello");
                original_text := Some (lit "Hello there friend");
                redacted_text := Some (lit " there friend") |})) as ->.
  { unfold redact_conversation_history, histories.
    rewrite lookup_singleton_eq. reflexivity. }
  simpl. unfold redact_conversation_history.
  rewrite lookup_insert_eq.
  repeat split; by vm_compute.
Qed.

(** C9, as the code has it.  On a history with exactly one real
    assistant entry the first call succeeds.  If the spoken portion it
    found is not blank the entry is kept, shortened, and a second call
    with the same text finds it again and succeeds.  If the spoken
    portion is blank the entry is removed, and the second call changes
    nothing and fails: with "No assistant message found to redact" when
    other entries remain, and with "No conversation history found" when
    the removed entry was the only entry. *)
Theorem second_redaction (session_id : string) (U : pystr)
    (histories : gmap string (list Entry)) (history : list Entry) :
  histories !! session_id = Some history →
  real_assistant_entries history = 1 →
  let first := redact_conversation_history session_id U histories in
  let second := redact_conversation_history session_id U first.1 in
  success first.2 = true
  ∧ ∃ spoken,
      spoken_text first.2 = Some spoken
      ∧ (truthy (strip spoken) = true → success second.2 = true)
      ∧ (truthy (strip spoken) = false →
         success second.2 = false
         ∧ second.1 = first.1
         ∧ message second.2
           = if bool_decide (length history = 1)
             then "No conversation history found"%string
             else "No assistant message found to redact"%string).
Proof.
  intros Hh Hone first second.
  destruct (some_entry_redactable history ltac:(lia)) as (i & e & Hs).
  pose proof (scan_Some _ _ _ _ Hs) as (Hi & Hl & Hr & Hafter).
  pose proof (sole_entry_elsewhere _ _ _ Hl Hr Hone) as Hsole.
  assert (history ≠ []) as Hne by (intros ->; simpl in Hi; lia).
  set (spoken := find_spoken_portion (content e) U).
  set (history' := if truthy (strip spoken)
                   then <[i := set_content spoken e]> history
                   else delete i history).
  assert (first = (<[session_id := history']> histories,
                   {| success := true; message := "Conversation history redacted";
                      spoken_text := Some spoken;
                      original_text := Some (content e);
                      redacted_text := Some (if truthy spoken
                                             then drop (length spoken) (content e)
                                             else content e) |})) as Hfirst.
  { unfold first. by erewrite redact_found. }
  rewrite Hfirst. simpl.
  split; [done|]. exists spoken. split; [done|].
  unfold second. rewrite Hfirst. simpl. unfold history'.
  split; intros Hsp'; rewrite Hsp'.
  - erewrite redact_found; [done | apply lookup_insert_eq |].
    apply scan_found.
    + by rewrite length_insert.
    + by apply list_lookup_insert_eq.
    + by rewrite redactable_set_content.
    + intros j e' Hj. rewrite list_lookup_insert_ne by lia.
      apply Hsole. lia.
  - assert (S (length (delete i history)) = length history) as Hlen.
    { rewrite length_delete; [lia | eauto]. }
    erewrite redact_not_found; [| apply lookup_insert_eq |].
    + simpl. repeat split.
      destruct (decide (length history = 1)) as [H1|H1].
      * rewrite !bool_decide_eq_true_2 by lia. done.
      * rewrite !bool_decide_eq_false_2 by lia. done.
    + apply scan_None. intros j e' _ Hj.
      rewrite list_lookup_delete in Hj.
      destruct (decide (j < i)); eapply Hsole; [|done| |done]; lia.
Qed.

Lemma second_redaction_witness :
  let histories : gmap string (list Entry) :=
    {[ "s"%string := [ Coordinator.user_entry (lit "hi");
                       Coordinator.assistant_entry (lit "Hello there") ] ]} in
  let first := redact_conversation_history "s" (lit "goodbye") histories in
  let second := redact_conversation_history "s" (lit "goodbye") first.1 in
  success first.2 = true
  ∧ ∃ spoken,
      spoken_text first.2 = Some spoken
      ∧ (truthy (strip spoken) = true → success second.2 = true)
      ∧ (truthy (strip spoken) = false →
         success second.2 = false
         ∧ second.1 = first.1
         ∧ message second.2 = "No assistant message found to redact"%string).
Proof.
  exact (second_redaction "s" (lit "goodbye")
           {[ "s"%string := [ Coordinator.user_entry (lit "hi");
                              Coordinator.assistant_entry (lit "Hello there") ] ]}
           [ Coordinator.user_entry (lit "hi");
             Coordinator.assistant_entry (lit "Hello there") ]
           (lookup_singleton_eq _ _) eq_refl).
Defined.

End RedactorFacts.

(* ================================================================= *)
(** * The handler and the turn *)

Section HandlerFacts.

Import Handler Spec.

Lemma on_tokens (cb : Callback) (h : Handler.t) :
  ∃ more, tokens (on cb h) = tokens h ++ more.
Proof.
  destruct cb; simpl; try (exists []; by rewrite app_nil_r).
  by exists [token].
Qed.

Lemma on_phrase_index (cb : Callback) (h : Handler.t) :
  phrase_index (on cb h) = phrase_index h.
Proof. by destruct cb. Qed.

Lemma on_sent_interstitials (cb : Callback) (h : Handler.t) :
  sent_interstitials (on cb h) = sent_interstitials h.
Proof. by destruct cb. Qed.

Lemma on_requested (cb : Callback) (h : Handler.t) :
  requested h = true → requested (on cb h) = true.
Proof.
  unfold requested. destruct cb; simpl; try done.
  intros H. repeat case_bool_decide; simpl; try done.
  by rewrite orb_true_r.
Qed.

Lemma on_ready (cb : Callback) (h : Handler.t) :
  interstitial_ready h = false → interstitial_ready (on cb h) = false.
Proof. by destruct cb. Qed.

Lemma timer_fires_tokens (h : Handler.t) : tokens (timer_fires h) = tokens h.
Proof. unfold timer_fires. by destruct (interstitial_timer h). Qed.

Lemma timer_fires_phrase_index (h : Handler.t) :
  phrase_index (timer_fires h) = phrase_index h.
Proof. unfold timer_fires. by destruct (interstitial_timer h). Qed.

Lemma timer_fires_sent_interstitials (h : Handler.t) :
  sent_interstitials (timer_fires h) = sent_interstitials h.
Proof. unfold timer_fires. by destruct (interstitial_timer h). Qed.

Lemma timer_fires_requested (h : Handler.t) :
  requested (timer_fires h) = requested h.
Proof. unfold timer_fires. by destruct (interstitial_timer h). Qed.

(** With a call-ending flag set the timer callback is a no-op on
    [interstitial_ready]. *)
Lemma timer_fires_ready (h : Handler.t) :
  requested h = true →
  interstitial_ready (timer_fires h) = interstitial_ready h.
Proof.
  unfold timer_fires, requested. intros H.
  destruct (interstitial_timer h); try done. simpl. rewrite H.
  by destruct (negb _ && negb _).
Qed.

Lemma should_send_requested (h : Handler.t) :
  requested h = true → should_send_interstitial h = false.
Proof.
  unfold requested, should_send_interstitial.
  destruct (call_end_detected h), (handoff_detected h); simpl; try done;
    intros _; by rewrite ?andb_false_r.
Qed.

Lemma get_next_interstitial_Some (h h' : Handler.t) (phrase : pystr) :
  get_next_interstitial h = Some (phrase, h') →
  interstitial_phrases !! phrase_index h = Some phrase
  ∧ phrase_index h' = (phrase_index h + 1) `mod` length interstitial_phrases
  ∧ tokens h' = tokens h
  ∧ call_end_detected h' = call_end_detected h
  ∧ handoff_detected h' = handoff_detected h
  ∧ sent_interstitials h' = sent_interstitials h.
Proof.
  unfold get_next_interstitial.
  destruct (interstitial_phrases !! phrase_index h) as [p|]; [|done].
  simpl. intros [= <- <-]. done.
Qed.

End HandlerFacts.

Section TurnFacts.

Import Handler Coordinator Spec.

Variable session_id : string.

Lemma run_app (sched1 sched2 : list Action) (s : Turn) :
  run session_id (sched1 ++ sched2) s
  = let r1 := run session_id sched1 s in
    let r2 := run session_id sched2 r1.1 in
    (r2.1, r1.2 ++ r2.2).
Proof.
  revert s. induction sched1 as [|a sched1 IH]; intros s; simpl.
  - by destruct (run session_id sched2 s).
  - destruct (step session_id a s) as [s1 out1]. rewrite IH. simpl.
    destruct (run session_id sched1 s1) as [s2 out2]. simpl.
    destruct (run session_id sched2 s2) as [s3 out3]. simpl.
    by rewrite app_assoc.
Qed.

(** A turn is a run: along the schedule from the state in which the
    agent thread was started, or, when no agent could be made, the one
    resumption that takes the exception to the [except] clause. *)
Lemma generate_as_run (user_message : pystr) (sched : list Action)
    (created : bool) (agent_session : option Handler.t)
    (histories : gmap string (list Redactor.Entry)) :
  ∃ sched' s0,
    generate_agent_response_stream session_id user_message sched created
      agent_session histories
    = run session_id sched' s0
    ∧ ((sched' = sched
        ∧ s0 = start session_id user_message agent_session histories)
       ∨ (sched' = [Poll]
          ∧ s0 = unstarted session_id user_message histories
          ∧ agent_available created agent_session = false)).
Proof.
  unfold generate_agent_response_stream.
  destruct (agent_available created agent_session).
  - exists sched, (start session_id user_message agent_session histories).
    split; [done | by left].
  - exists [Poll], (unstarted session_id user_message histories).
    split; [done | by right].
Qed.

(** *** After a call-ending flag *)

Lemma step_after_request (a : Action) (s : Turn) :
  requested (handler s) = true →
  let r := step session_id a s in
  requested (handler r.1) = true
  ∧ Forall (λ ev, is_interstitial ev = false) r.2
  ∧ sent_interstitials (handler r.1) = sent_interstitials (handler s)
  ∧ phrase_index (handler r.1) = phrase_index (handler s)
  ∧ (interstitial_ready (handler s) = false →
     interstitial_ready (handler r.1) = false).
Proof.
  intros Hreq. destruct a as [cb| |raised|]; simpl.
  - destruct (thread_alive s); simpl; [|done].
    repeat split; [by apply on_requested | done | apply on_sent_interstitials
                  | apply on_phrase_index | apply on_ready].
  - repeat split; [by rewrite timer_fires_requested | done
                  | apply timer_fires_sent_interstitials
                  | apply timer_fires_phrase_index |].
    by rewrite timer_fires_ready.
  - by destruct (thread_alive s).
  - unfold poll. destruct (exhausted s); [done|].
    rewrite (should_send_requested _ Hreq). simpl.
    destruct (thread_alive s || _).
    + simpl. repeat split; try done.
      apply Forall_forall. intros ev Hev.
      apply list_elem_of_fmap in Hev as (tok & -> & _). done.
    + destruct (error s); [by repeat constructor|].
      destruct (finalize session_id s); by repeat constructor.
Qed.

(** When the iterations of the loop and the callback of the timer are
    not interrupted: once [call_end_detected] or [handoff_detected] is
    set, the flag stays set, no interstitial event is emitted, none is
    recorded, the rotation cursor does not move, and a handler that is
    not ready does not become ready. *)
Lemma run_after_request (sched : list Action) (s : Turn) :
  requested (handler s) = true →
  let r := run session_id sched s in
  requested (handler r.1) = true
  ∧ Forall (λ ev, is_interstitial ev = false) r.2
  ∧ sent_interstitials (handler r.1) = sent_interstitials (handler s)
  ∧ phrase_index (handler r.1) = phrase_index (handler s)
  ∧ (interstitial_ready (handler s) = false →
     interstitial_ready (handler r.1) = false).
Proof.
  revert s. induction sched as [|a sched IH]; intros s Hreq; simpl; [done|].
  pose proof (step_after_request a s Hreq) as Hstep.
  destruct (step session_id a s) as [s1 out1]. simpl in Hstep.
  destruct Hstep as (Hreq1 & Hout1 & Hsent1 & Hidx1 & Hready1).
  specialize (IH s1 Hreq1).
  destruct (run session_id sched s1) as [s2 out2]. simpl in *.
  destruct IH as (Hreq2 & Hout2 & Hsent2 & Hidx2 & Hready2).
  repeat split; [done | by apply Forall_app | congruence | congruence | auto].
Qed.

(** *** The place of the interstitial in the stream *)

Lemma chunks_prefix_le (pre : list Event) (l : list pystr) :
  map chunk pre = take (length pre) l → length pre ≤ length l.
Proof.
  intros H. apply (f_equal length) in H.
  rewrite length_map, length_take in H. lia.
Qed.

Lemma order_inv_grow (s s' : Turn) (evs more : list Event) (toks : list pystr) :
  interstitial_sent_this_response s' = interstitial_sent_this_response s →
  exhausted s' = exhausted s →
  last_token_count s' = last_token_count s →
  tokens (handler s') = tokens (handler s) ++ toks →
  Forall (λ e, is_interstitial e = false) more →
  (more = [] ∨ exhausted s = true) →
  order_inv s evs → order_inv s' (evs ++ more).
Proof.
  unfold order_inv. intros -> -> -> -> Hmore Hcase.
  destruct (interstitial_sent_this_response s).
  - intros (pre & p & post & -> & Hpre & Hpost & Hchunks).
    exists pre, p, (post ++ more). repeat split; [| done | by apply Forall_app |].
    + by rewrite <- app_assoc.
    + rewrite take_app_le; [done|]. by apply chunks_prefix_le.
  - intros [Hno Hloop]. split; [by apply Forall_app|].
    intros Hex. destruct Hcase as [->|?]; [|congruence].
    rewrite app_nil_r. destruct (Hloop Hex) as (Hs & Hc & Hl).
    repeat split; [done | | rewrite length_app; lia].
    by rewrite take_app_le.
Qed.

Lemma token_events_streamed (h : Handler.t) (toks : list pystr) :
  Forall streamed (map (token_event h) toks)
  ∧ map chunk (map (token_event h) toks) = toks.
Proof.
  split.
  - apply Forall_forall. intros e He.
    apply list_elem_of_fmap in He as (tok & -> & _). by split.
  - rewrite map_map. simpl. apply map_id.
Qed.

Lemma streamed_not_interstitial (evs : list Event) :
  Forall streamed evs → Forall (λ e, is_interstitial e = false) evs.
Proof. intros H. eapply Forall_impl; [exact H|]. by intros e [? _]. Qed.

Lemma poll_order_inv (s : Turn) (evs : list Event) :
  order_inv s evs →
  order_inv (poll session_id s).1 (evs ++ (poll session_id s).2).
Proof.
  intros Hinv. unfold poll.
  destruct (exhausted s) eqn:Hex.
  { simpl. by rewrite app_nil_r. }
  assert (order_inv (fail s).1 (evs ++ (fail s).2)) as Hfail.
  { revert Hinv. unfold order_inv, fail. simpl.
    destruct (interstitial_sent_this_response s).
    - intros (pre & p & post & -> & Hpre & Hpost & Hchunks).
      exists pre, p, (post ++ [fallback_event]).
      repeat split; [by rewrite <- app_assoc | done | | done].
      apply Forall_app. split; [done | by repeat constructor].
    - intros [Hno _]. split; [|done].
      apply Forall_app. split; [done | by repeat constructor]. }
  destruct (thread_alive s || _) eqn:Hloop.
  - destruct (should_send_interstitial (handler s)
              && negb (interstitial_sent_this_response s)) eqn:Hsend.
    + destruct (get_next_interstitial (handler s)) as [[phrase h1]|] eqn:Hnext;
        [|exact Hfail].
      apply get_next_interstitial_Some in Hnext as (_ & _ & Htok & _).
      apply andb_true_iff in Hsend as [_ Hfirst].
      apply negb_true_iff in Hfirst.
      revert Hinv. unfold order_inv. rewrite Hfirst. simpl.
      intros [_ Hstream]. destruct (Hstream Hex) as (Hs & Hc & Hl).
      exists evs, phrase, (map (token_event (mark_sent phrase h1))
                           (drop (last_token_count s) (tokens (handler s)))).
      repeat split; [done | |].
      * apply streamed_not_interstitial, token_events_streamed.
      * rewrite Htok. assert (length evs = last_token_count s) as ->; [|done].
        rewrite <- (length_map chunk), Hc, length_take. lia.
    + revert Hinv. unfold order_inv. simpl.
      destruct (token_events_streamed (handler s)
                  (drop (last_token_count s) (tokens (handler s))))
        as [Hfresh Hfreshc].
      destruct (interstitial_sent_this_response s).
      * intros (pre & p & post & -> & Hpre & Hpost & Hchunks).
        eexists pre, p, _. repeat split; [| done | | done].
        -- rewrite <- app_assoc. simpl. reflexivity.
        -- apply Forall_app. split; [done|].
           by apply streamed_not_interstitial.
      * intros [Hno Hstream]. destruct (Hstream Hex) as (Hs & Hc & Hl).
        split; [apply Forall_app; split; [done|];
                by apply streamed_not_interstitial|].
        intros _. repeat split; [by apply Forall_app | | done].
        rewrite map_app, Hc, Hfreshc, take_drop. by rewrite firstn_all.
  - destruct (error s); [exact Hfail|].
    destruct (finalize session_id s) as [histories|]; [|exact Hfail].
    revert Hinv. unfold order_inv. simpl.
    destruct (interstitial_sent_this_response s).
    + intros (pre & p & post & -> & Hpre & Hpost & Hchunks).
      exists pre, p, (post ++ [final_event (handler s)]).
      repeat split; [by rewrite <- app_assoc | done | | done].
      apply Forall_app. split; [done | by repeat constructor].
    + intros [Hno _]. split; [|done].
      apply Forall_app. split; [done | by repeat constructor].
Qed.

Lemma step_order_inv (a : Action) (s : Turn) (evs : list Event) :
  order_inv s evs →
  order_inv (step session_id a s).1 (evs ++ (step session_id a s).2).
Proof.
  intros Hinv. destruct a as [cb| |raised|]; simpl.
  - destruct (thread_alive s); simpl; [|by rewrite app_nil_r].
    destruct (on_tokens cb (handler s)) as [toks Htoks].
    eapply (order_inv_grow s _ evs [] toks); eauto.
  - eapply (order_inv_grow s _ evs [] []); eauto.
    simpl. by rewrite timer_fires_tokens, app_nil_r.
  - destruct (thread_alive s); simpl; [|by rewrite app_nil_r].
    eapply (order_inv_grow s _ evs [] []); eauto.
    simpl. by rewrite app_nil_r.
  - by apply poll_order_inv.
Qed.

Lemma run_order_inv (sched : list Action) (s : Turn) (evs : list Event) :
  order_inv s evs →
  order_inv (run session_id sched s).1 (evs ++ (run session_id sched s).2).
Proof.
  revert s evs. induction sched as [|a sched IH]; intros s evs Hinv; simpl.
  - by rewrite app_nil_r.
  - pose proof (step_order_inv a s evs Hinv) as Hstep.
    destruct (step session_id a s) as [s1 out1]. simpl in Hstep.
    specialize (IH s1 _ Hstep).
    destruct (run session_id sched s1) as [s2 out2]. simpl in *.
    by rewrite app_assoc.
Qed.

Lemma split_at_mark {A} (P : A → Prop) (pre pre' post post' : list A) (a b : A) :
  pre ++ a :: post = pre' ++ b :: post' →
  P a → P b → Forall (λ x, ¬ P x) pre → Forall (λ x, ¬ P x) post →
  pre' = pre ∧ b = a ∧ post' = post.
Proof.
  revert pre'. induction pre as [|x pre IH]; intros pre' Heq Ha Hb Hpre Hpost.
  - destruct pre' as [|y pre']; simpl in Heq.
    + by injection Heq as -> ->.
    + injection Heq as -> ->. exfalso.
      rewrite Forall_forall in Hpost. eapply Hpost; [|exact Hb].
      apply elem_of_app. right. apply list_elem_of_here.
  - destruct pre' as [|y pre']; simpl in Heq.
    + injection Heq as -> _. exfalso. by inversion Hpre.
    + injection Heq as -> Heq. inversion Hpre; subst.
      destruct (IH pre' Heq) as (-> & -> & ->); done.
Qed.

Lemma not_interstitial_not (evs : list Event) :
  Forall (λ e, is_interstitial e = false) evs →
  Forall (λ e, ¬ is_interstitial e = true) evs.
Proof. intros H. eapply Forall_impl; [exact H|]. intros e He. congruence. Qed.

Lemma selections_none (evs : list Event) :
  Forall (λ e, is_interstitial e = false) evs → selections evs = [].
Proof.
  unfold selections. induction 1 as [|e evs He _ IH]; [done|].
  rewrite filter_cons_False by congruence. exact IH.
Qed.

Lemma selections_app (evs1 evs2 : list Event) :
  selections (evs1 ++ evs2) = selections evs1 ++ selections evs2.
Proof. unfold selections. by rewrite filter_app, map_app. Qed.

Lemma selections_interstitial (p : pystr) (evs : list Event) :
  selections (interstitial_event p :: evs) = p :: selections evs.
Proof. unfold selections. by rewrite filter_cons_True by done. Qed.

Lemma poll_interstitial_leads (s : Turn) (pre post : list Event) (ev : Event) :
  (poll session_id s).2 = pre ++ ev :: post →
  is_interstitial ev = true → pre = [].
Proof.
  intros Heq Hev.
  assert (∀ evs pre', Forall (λ e, is_interstitial e = false) evs →
                      evs = pre' ++ ev :: post → False) as Habs.
  { intros evs pre' Hall ->. apply Forall_app in Hall as [_ Hall].
    inversion Hall; congruence. }
  assert (∀ h toks, Forall (λ e, is_interstitial e = false)
                           (map (token_event h) toks)) as Htok.
  { intros h toks. apply streamed_not_interstitial, token_events_streamed. }
  revert Heq. unfold poll, fail.
  repeat match goal with
         | |- context [if ?b then _ else _] => destruct b
         | |- context [match ?o with Some _ => _ | None => _ end] =>
             destruct o as [[? ?]|] || destruct o
         end; simpl; intros Heq;
    try (exfalso; eapply Habs; [|exact Heq];
         first [apply Htok | by repeat constructor]).
  destruct pre as [|e0 pre]; [done|]. injection Heq as _ Heq.
  exfalso. eapply Habs; [|exact Heq]. apply Htok.
Qed.

(** C1, as the code has it.  In every turn at most one interstitial event
    is emitted.  The events before it are token chunks only: the first
    tokens of the turn, which earlier polls had drained; the poll that
    sends the interstitial yields it ahead of the tokens it drains, so
    the interstitial comes first exactly when no token was drained before
    that poll. *)
Theorem one_interstitial_per_turn (user_message : pystr)
    (sched : list Action) (created : bool) (agent_session : option Handler.t)
    (histories : gmap string (list Redactor.Entry)) :
  let r := generate_agent_response_stream session_id user_message sched
             created agent_session histories in
  length (selections r.2) ≤ 1
  ∧ (∀ pre ev post,
       r.2 = pre ++ ev :: post → is_interstitial ev = true →
       Forall streamed pre
       ∧ map chunk pre = take (length pre) (tokens (handler r.1))
       ∧ Forall (λ e, is_interstitial e = false) post)
  ∧ (∀ s pre ev post,
       (poll session_id s).2 = pre ++ ev :: post →
       is_interstitial ev = true → pre = []).
Proof.
  intros r.
  assert (order_inv r.1 r.2) as Hinv.
  { unfold r, generate_agent_response_stream.
    destruct (agent_available created agent_session).
    - apply (run_order_inv sched (start session_id user_message agent_session
                                    histories) []).
      unfold order_inv. simpl. repeat split; [done | done | lia].
    - apply (run_order_inv [Poll] (unstarted session_id user_message
                                     histories) []).
      unfold order_inv. simpl. repeat split; [done | done | lia]. }
  unfold order_inv in Hinv. clearbody r. destruct r as [s1 evs]. simpl in *.
  split; [|split].
  - destruct (interstitial_sent_this_response s1).
    + destruct Hinv as (pre & p & post & -> & Hpre & Hpost & _).
      rewrite selections_app. change (interstitial_event p :: post)
        with ([interstitial_event p] ++ post).
      rewrite selections_app, (selections_none pre), (selections_none post);
        [|done|by apply streamed_not_interstitial].
      unfold selections. rewrite filter_cons_True by done. simpl. lia.
    + destruct Hinv as [Hno _]. rewrite selections_none by done. simpl. lia.
  - intros pre ev post Heq Hev.
    destruct (interstitial_sent_this_response s1).
    + destruct Hinv as (pre0 & p & post0 & Heq0 & Hpre & Hpost & Hchunks).
      rewrite Heq0 in Heq.
      destruct (split_at_mark (λ e, is_interstitial e = true)
                  pre0 pre post0 post (interstitial_event p) ev Heq)
        as (-> & -> & ->); try done.
      * by apply not_interstitial_not, streamed_not_interstitial.
      * by apply not_interstitial_not.
    + destruct Hinv as [Hno _]. exfalso. rewrite Heq in Hno.
      apply Forall_app in Hno as [_ Hno]. inversion Hno; congruence.
  - intros s pre ev post. apply poll_interstitial_leads.
Qed.

(** *** The end of the stream *)

Lemma fail_end_inv (H0 : gmap string (list Redactor.Entry))
    (s : Turn) (evs : list Event) :
  exhausted s = false → end_inv H0 s evs →
  end_inv H0 (fail s).1 (evs ++ (fail s).2).
Proof.
  unfold end_inv, fail. simpl. intros -> (Herr & Hloop & Hh).
  split; [done|]. exists evs, fallback_event. repeat split; [done|]. by left.
Qed.

Lemma poll_end_inv (H0 : gmap string (list Redactor.Entry))
    (s : Turn) (evs : list Event) :
  end_inv H0 s evs →
  end_inv H0 (poll session_id s).1 (evs ++ (poll session_id s).2).
Proof.
  intros Hinv. unfold poll.
  destruct (exhausted s) eqn:Hex.
  { simpl. by rewrite app_nil_r. }
  pose proof (fail_end_inv H0 s evs Hex Hinv) as Hfail.
  unfold end_inv in Hinv. rewrite Hex in Hinv.
  destruct Hinv as (Herr & Hloop & Hh).
  assert (∀ h toks, Forall in_loop (map (token_event h) toks)) as Htok.
  { intros h toks. apply Forall_forall. intros e He.
    apply list_elem_of_fmap in He as (tok & -> & _). by right. }
  destruct (thread_alive s || _) eqn:Halive.
  - destruct (should_send_interstitial (handler s) && _).
    + destruct (get_next_interstitial (handler s)) as [[phrase h1]|];
        [|exact Hfail].
      unfold end_inv. simpl. repeat split; [done | | done].
      apply Forall_app. split; [done|]. constructor; [by left | apply Htok].
    + unfold end_inv. simpl. repeat split; [done | | done].
      apply Forall_app. split; [done | apply Htok].
  - apply orb_false_iff in Halive as [Halive _].
    destruct (error s) eqn:He; [exact Hfail|].
    destruct (finalize session_id s) as [histories|]; [|exact Hfail].
    unfold end_inv. simpl. split; [done|].
    exists evs, (final_event (handler s)). repeat split; [done|].
    right. by repeat split.
Qed.

Lemma step_end_inv (H0 : gmap string (list Redactor.Entry))
    (a : Action) (s : Turn) (evs : list Event) :
  end_inv H0 s evs →
  end_inv H0 (step session_id a s).1 (evs ++ (step session_id a s).2).
Proof.
  intros Hinv. destruct a as [cb| |raised|]; simpl.
  - destruct (thread_alive s); simpl; by rewrite app_nil_r.
  - by rewrite app_nil_r.
  - destruct (thread_alive s) eqn:Halive; simpl; rewrite app_nil_r; [|done].
    revert Hinv. unfold end_inv. simpl. intros [Herr Hinv].
    split; [done|]. destruct (exhausted s); [|done].
    destruct Hinv as (pre & e & -> & Hpre & [Hfb|(_ & _ & Hdead)]);
      [|congruence].
    exists pre, e. repeat split; [done|]. by left.
  - by apply poll_end_inv.
Qed.

Lemma run_end_inv (H0 : gmap string (list Redactor.Entry))
    (sched : list Action) (s : Turn) (evs : list Event) :
  end_inv H0 s evs →
  end_inv H0 (run session_id sched s).1 (evs ++ (run session_id sched s).2).
Proof.
  revert s evs. induction sched as [|a sched IH]; intros s evs Hinv; simpl.
  - by rewrite app_nil_r.
  - pose proof (step_end_inv H0 a s evs Hinv) as Hstep.
    destruct (step session_id a s) as [s1 out1]. simpl in Hstep.
    specialize (IH s1 _ Hstep).
    destruct (run session_id sched s1) as [s2 out2]. simpl in *.
    by rewrite app_assoc.
Qed.

Lemma generate_end_inv (user_message : pystr) (sched : list Action)
    (created : bool) (agent_session : option Handler.t)
    (histories : gmap string (list Redactor.Entry)) :
  let r := generate_agent_response_stream session_id user_message sched
             created agent_session histories in
  end_inv (<[session_id := default [] (histories !! session_id)
                             ++ [user_entry user_message]]> histories)
          r.1 r.2.
Proof.
  unfold generate_agent_response_stream.
  destruct (agent_available created agent_session).
  - apply (run_end_inv _ sched (start session_id user_message agent_session
                                  histories) []).
    unfold end_inv. simpl. done.
  - apply (run_end_inv _ [Poll] (unstarted session_id user_message
                                   histories) []).
    unfold end_inv. simpl. done.
Qed.

(** A generator that has returned ended its stream with one closing
    event; everything before it came out of the polling loop. *)
Lemma exhausted_stream_closed (user_message : pystr) (sched : list Action)
    (created : bool) (agent_session : option Handler.t)
    (histories : gmap string (list Redactor.Entry)) :
  let r := generate_agent_response_stream session_id user_message sched
             created agent_session histories in
  exhausted r.1 = true →
  ∃ pre e, r.2 = pre ++ [e] ∧ Forall in_loop pre ∧ closing e.
Proof.
  intros r Hex.
  pose proof (generate_end_inv user_message sched
      created agent_session histories)
    as Hinv.
  fold r in Hinv. unfold end_inv in Hinv. rewrite Hex in Hinv.
  destruct Hinv as (_ & pre & e & Heq & Hpre & [[He _]|[Hc _]]);
    exists pre, e; repeat split; try done.
  - by rewrite He.
  - by rewrite He.
  - apply Hc.
  - apply Hc.
Qed.

(** C5, as the code has it.  When the agent thread has stored an
    exception and the generator has returned, the stream consists of the
    events of the polling loop followed by exactly one closing event, the
    apology; and the history store is the one the start of the turn left:
    the user's message has been appended to the session's history, and no
    assistant entry was added, changed or removed. *)
Theorem generation_failure (user_message : pystr) (sched : list Action)
    (created : bool) (agent_session : option Handler.t)
    (histories : gmap string (list Redactor.Entry)) :
  let r := generate_agent_response_stream session_id user_message sched
             created agent_session histories in
  error r.1 = true → exhausted r.1 = true →
  (∃ pre, r.2 = pre ++ [fallback_event] ∧ Forall in_loop pre)
  ∧ conversation_histories r.1
    = <[session_id := default [] (histories !! session_id)
                       ++ [user_entry user_message]]> histories.
Proof.
  intros r Herr Hex.
  pose proof (generate_end_inv user_message sched
      created agent_session histories)
    as Hinv.
  fold r in Hinv. unfold end_inv in Hinv. rewrite Hex in Hinv.
  destruct Hinv as (_ & pre & e & Heq & Hpre & [[-> Hh]|(_ & Hok & _)]);
    [|congruence].
  split; [by exists pre | done].
Qed.

(** *** The rotation of the phrases *)

Lemma rotation_app (k : nat) (l1 l2 : list pystr) :
  rotation k (l1 ++ l2) ↔ rotation k l1 ∧ rotation (advance k (length l1)) l2.
Proof.
  revert k. induction l1 as [|p l1 IH]; intros k; simpl; [tauto|].
  rewrite IH. tauto.
Qed.

Lemma advance_add (k n m : nat) :
  advance k (n + m) = advance (advance k n) m.
Proof. revert k. induction n as [|n IH]; intros k; simpl; [done|]. apply IH. Qed.

Lemma step_rotation (a : Action) (s : Turn) :
  let r := step session_id a s in
  rotation (phrase_index (handler s)) (selections r.2)
  ∧ phrase_index (handler r.1)
    = advance (phrase_index (handler s)) (length (selections r.2)).
Proof.
  destruct a as [cb| |raised|]; simpl.
  - destruct (thread_alive s); simpl; [|done]. by rewrite on_phrase_index.
  - by rewrite timer_fires_phrase_index.
  - by destruct (thread_alive s).
  - assert (∀ h toks, selections (map (token_event h) toks) = []) as Htok.
    { intros h toks. apply selections_none, streamed_not_interstitial,
        token_events_streamed. }
    unfold poll, fail. destruct (exhausted s); [done|].
    destruct (thread_alive s || _).
    + destruct (should_send_interstitial (handler s) && _).
      * destruct (get_next_interstitial (handler s)) as [[phrase h1]|] eqn:Hn;
          [|done].
        apply get_next_interstitial_Some in Hn as (Hl & Hidx & _).
        cbn [fst snd handler]. rewrite selections_interstitial, Htok.
        simpl. done.
      * cbn [fst snd handler]. by rewrite Htok.
    + destruct (error s); [done|]. by destruct (finalize session_id s).
Qed.

Lemma run_rotation (sched : list Action) (s : Turn) :
  let r := run session_id sched s in
  rotation (phrase_index (handler s)) (selections r.2)
  ∧ phrase_index (handler r.1)
    = advance (phrase_index (handler s)) (length (selections r.2)).
Proof.
  revert s. induction sched as [|a sched IH]; intros s; simpl; [done|].
  pose proof (step_rotation a s) as Hstep.
  destruct (step session_id a s) as [s1 out1]. simpl in Hstep.
  specialize (IH s1). destruct (run session_id sched s1) as [s2 out2].
  simpl in *. destruct Hstep as [Hr1 Hi1], IH as [Hr2 Hi2].
  rewrite selections_app, rotation_app, length_app, advance_add.
  rewrite <- Hi1. done.
Qed.

(** The cursor a session starts from: that of the stored handler, or of
    a new one. *)
Lemma session_rotation (requests : list (pystr * list Action))
    (created : bool) (agent_session : option Handler.t)
    (histories : gmap string (list Redactor.Entry)) :
  rotation (phrase_index (default Handler.init agent_session))
    (selections (concat (map snd
       (session session_id requests created agent_session histories)))).
Proof.
  revert agent_session histories.
  induction requests as [|[user_message sched] requests IH];
    intros agent_session histories; simpl; [done|].
  rewrite selections_app, rotation_app.
  unfold generate_agent_response_stream, stored.
  destruct (agent_available created agent_session) eqn:Hav.
  - pose proof (run_rotation sched
                  (start session_id user_message agent_session histories))
      as [Hr Hi].
    simpl in Hr, Hi. split; [exact Hr|]. rewrite <- Hi. apply (IH (Some _)).
  - destruct agent_session; [done|]. split; [done|]. apply (IH None).
Qed.

Lemma rotation_adjacent (k : nat) (l1 l2 : list pystr) (a b : pystr) :
  rotation k (l1 ++ a :: b :: l2) → a ≠ b.
Proof.
  rewrite rotation_app. intros [_ [Ha [Hb _]]]. revert Ha Hb.
  generalize (advance k (length l1)). intros j Ha Hb.
  assert (j < 6) as Hj by (apply lookup_lt_Some in Ha; exact Ha).
  do 6 (destruct j as [|j]; [vm_compute in Ha, Hb; congruence|]). lia.
Qed.

(** C8.  The per-request reset keeps the rotation cursor and clears the
    state of the turn (buffer, tokens, the tool, call-end, hand-off,
    sent and ready flags, the list of interstitials sent), and it
    cancels a timer that is alive, whose thread may outlive the reset;
    a selection returns the phrase at the cursor and moves the cursor by
    one modulo the number of phrases; so over a whole session, whatever
    the turns do, the phrases selected follow the rotation from the
    cursor the session started with, and two consecutive selections are
    never the same phrase. *)
Theorem rotation_cursor_persists :
  (∀ h,
     phrase_index (reset h) = phrase_index h
     ∧ buffer (reset h) = [] ∧ tokens (reset h) = []
     ∧ tool_executing (reset h) = false
     ∧ call_end_detected (reset h) = false
     ∧ handoff_detected (reset h) = false
     ∧ interstitial_sent (reset h) = false
     ∧ interstitial_ready (reset h) = false
     ∧ sent_interstitials (reset h) = []
     ∧ (is_alive (interstitial_timer (reset h)) = true →
        cancelled (interstitial_timer (reset h)) = true))
  ∧ (∀ h phrase h',
       get_next_interstitial h = Some (phrase, h') →
       interstitial_phrases !! phrase_index h = Some phrase
       ∧ phrase_index h'
         = (phrase_index h + 1) `mod` length interstitial_phrases)
  ∧ (∀ requests created agent_session histories,
       let all := selections (concat (map snd
                    (session session_id requests created agent_session histories))) in
       rotation (phrase_index (default Handler.init agent_session)) all
       ∧ ∀ l1 a b l2, all = l1 ++ a :: b :: l2 → a ≠ b).
Proof.
  split; [|split].
  - intros h. repeat split. simpl. by destruct (interstitial_timer h).
  - intros h phrase h' Hn.
    apply get_next_interstitial_Some in Hn as (? & ? & _). done.
  - intros requests created agent_session histories all.
    pose proof (session_rotation requests created agent_session histories) as Hrot.
    fold all in Hrot. split; [done|].
    intros l1 a b l2 Heq. rewrite Heq in Hrot.
    by eapply rotation_adjacent.
Qed.

End TurnFacts.

(* ================================================================= *)
(** * The relay to the websocket *)

Section RelayFacts.

Import Handler Coordinator Relay Spec.

Lemma send_chunk_bounded (buf : pystr) :
  length (send_chunk buf) ≤ 200
  ∧ (200 < length buf → send_chunk buf = take 197 buf ++ lit "...")
  ∧ (length buf ≤ 200 → send_chunk buf = buf).
Proof.
  unfold send_chunk. destruct (Nat.ltb_spec 200 (length buf)) as [Hlong|Hshort].
  - split; [|split; [done | lia]].
    rewrite length_app, length_take.
    change (length (lit "...")) with 3. lia.
  - split; [done | split; [lia | done]].
Qed.

Lemma consume_all_app (evs1 evs2 : list Event) (st : Loop) :
  consume_all (evs1 ++ evs2) st
  = let r1 := consume_all evs1 st in
    let r2 := consume_all evs2 r1.1 in
    (r2.1, r1.2 ++ r2.2).
Proof.
  revert st. induction evs1 as [|ev evs1 IH]; intros st; simpl.
  - by destruct (consume_all evs2 st).
  - destruct (consume ev st) as [st1 out1]. rewrite IH. simpl.
    destruct (consume_all evs1 st1) as [st2 out2]. simpl.
    destruct (consume_all evs2 st2) as [st3 out3]. simpl.
    by rewrite app_assoc.
Qed.

(** Inside the loop every message is an interstitial phrase or a capped
    buffer. *)
Lemma consume_bounded (ev : Event) (st : Loop) :
  (is_interstitial ev = true → length (chunk ev) ≤ 200) →
  Forall (λ m, token_length m ≤ 200) (consume ev st).2.
Proof.
  intros Hphrase. unfold consume.
  destruct (is_interstitial ev); simpl.
  - constructor; [simpl; auto | constructor].
  - destruct (_ && truthy _); simpl; [|done].
    constructor; [simpl; apply send_chunk_bounded | constructor].
Qed.

Lemma consume_all_bounded (evs : list Event) (st : Loop) :
  Forall (λ ev, is_interstitial ev = true → length (chunk ev) ≤ 200) evs →
  Forall (λ m, token_length m ≤ 200) (consume_all evs st).2.
Proof.
  intros Hall. revert st. induction Hall as [|ev evs Hev _ IH]; intros st; simpl;
    [done|].
  pose proof (consume_bounded ev st Hev) as H1.
  destruct (consume ev st) as [st1 out1]. specialize (IH st1).
  destruct (consume_all evs st1) as [st2 out2]. simpl in *.
  by apply Forall_app.
Qed.

(** A closing event flushes the buffer, or finds it blank. *)
Lemma consume_closing (ev : Event) (st : Loop) :
  closing ev → truthy (Text.strip (token_buffer (consume ev st).1)) = false.
Proof.
  intros [Hfinal Hint]. unfold consume. rewrite Hint, Hfinal. simpl.
  destruct (truthy (Text.strip (token_buffer st ++ chunk ev))) eqn:Hb; done.
Qed.

Lemma phrases_short (phrase : pystr) :
  phrase ∈ interstitial_phrases → length phrase ≤ 200.
Proof.
  unfold interstitial_phrases. rewrite !elem_of_cons, elem_of_nil.
  intros [->|[->|[->|[->|[->|[->|[]]]]]]]; vm_compute; lia.
Qed.

Lemma rotation_phrases (k : nat) (l : list pystr) :
  rotation k l → Forall (λ p, p ∈ interstitial_phrases) l.
Proof.
  revert k. induction l as [|p l IH]; intros k; simpl; [done|].
  intros [Hp Hrest]. constructor; [|by eapply IH].
  by eapply list_elem_of_lookup_2.
Qed.

Lemma selections_elem (evs : list Event) (ev : Event) :
  ev ∈ evs → is_interstitial ev = true → chunk ev ∈ selections evs.
Proof.
  intros Hin Hev. unfold selections. apply list_elem_of_fmap.
  exists ev. split; [done|]. by apply list_elem_of_filter.
Qed.

Lemma generated_interstitials_short (session_id : string)
    (user_message : pystr) (sched : list Action)
    (created : bool) (agent_session : option Handler.t)
    (histories : gmap string (list Redactor.Entry)) :
  Forall (λ ev, is_interstitial ev = true → length (chunk ev) ≤ 200)
    (generate_agent_response_stream session_id user_message sched
       created agent_session histories).2.
Proof.
  unfold generate_agent_response_stream.
  destruct (agent_available created agent_session);
    [|by constructor; [|constructor]].
  pose proof (run_rotation session_id sched
                (start session_id user_message agent_session histories))
    as [Hrot _].
  apply rotation_phrases in Hrot. rewrite Forall_forall in Hrot.
  apply Forall_forall. intros ev Hin Hev.
  apply phrases_short, Hrot. by apply selections_elem.
Qed.

(** C2.  Whatever the agent, the timer and the polling loop do in a turn,
    every text message sent to the websocket carries at most 200
    characters.  A buffer sent from the loop goes through the cap, which
    replaces a buffer of more than 200 characters by its first 197
    followed by three dots; and when the generator has returned, its
    closing event has left the buffer blank, so that the flush after the
    loop has nothing to send. *)
Theorem outbound_chunks_bounded (session_id : string) (text : pystr)
    (sched : list Action) (created : bool) (agent_session : option Handler.t)
    (histories : gmap string (list Redactor.Entry)) :
  let r := llm_call_response_streaming session_id text sched
             created agent_session histories in
  let g := generate_agent_response_stream session_id text sched
             created agent_session histories in
  Forall (λ m, token_length m ≤ 200) r.1
  ∧ (∀ buf, length (send_chunk buf) ≤ 200
            ∧ (200 < length buf → send_chunk buf = take 197 buf ++ lit "...")
            ∧ (length buf ≤ 200 → send_chunk buf = buf))
  ∧ (exhausted g.1 = true →
     truthy (Text.strip (token_buffer (consume_all g.2 init).1)) = false).
Proof.
  intros r g.
  assert (exhausted g.1 = true →
          truthy (Text.strip (token_buffer (consume_all g.2 init).1)) = false)
    as Hblank.
  { intros Hex.
    destruct (exhausted_stream_closed session_id text sched
                created agent_session histories Hex) as (pre & e & Heq & _ & Hclosing).
    fold g in Heq. rewrite Heq, consume_all_app. simpl.
    pose proof (consume_closing e (consume_all pre init).1 Hclosing) as Hc.
    destruct (consume e (consume_all pre init).1) as [st1 out1]. done. }
  split; [|split; [apply send_chunk_bounded | exact Hblank]].
  pose proof (consume_all_bounded g.2 init
                (generated_interstitials_short session_id text sched
                   created agent_session histories)) as Hloop.
  unfold r, llm_call_response_streaming. fold g.
  destruct g as [s evs]. simpl in *.
  destruct (consume_all evs init) as [st sent]. simpl in *.
  destruct (exhausted s); [|done].
  unfold finish. rewrite (Hblank eq_refl). simpl.
  apply Forall_app. split; [done|].
  constructor; [simpl; lia|].
  destruct (handoff (decide_outcome st)).
  { constructor; [simpl; lia | constructor]. }
  destruct (end_call (decide_outcome st)); [|constructor].
  constructor; [simpl; lia | constructor].
Qed.

(** The tool channel.  Every start of the tool [end_call] sets the
    call-end flag, and every start of [escalate_to_human_agent] sets the
    hand-off flag. *)
Lemma tool_channel_sets_flags (h : Handler.t) :
  call_end_detected (on_tool_start "end_call" h) = true
  ∧ handoff_detected (on_tool_start "escalate_to_human_agent" h) = true.
Proof. done. Qed.

(** The marker channel of the hand-off: a [HANDOFF_HUMAN:] marker in
    the text relayed sets the hand-off, whatever the flags said. *)
Lemma handoff_marker_detected (st : Loop) :
  Text.contains (lit "HANDOFF_HUMAN:") (concat (full_response_parts st)) = true →
  handoff (decide_outcome st) = true.
Proof.
  intros Hm. unfold decide_outcome. rewrite Hm.
  by destruct (should_handoff st).
Qed.

(** The marker channel of the call end: the outcome's call-end flag
    is the one the events carried; the text is not looked at. *)
Lemma call_end_ignores_text (st : Loop) :
  end_call (decide_outcome st) = should_end_call st.
Proof.
  unfold decide_outcome.
  by destruct (negb (should_handoff st) && _), (should_handoff st).
Qed.

(** Without a start of the tool [end_call] the call-end flag stays
    clear and no event carries it. *)
Lemma run_without_end_call (session_id : string) (sched : list Action)
    (s : Turn) :
  Forall (λ a, a ≠ Agent (ToolStart "end_call")) sched →
  call_end_detected (handler s) = false →
  let r := run session_id sched s in
  call_end_detected (handler r.1) = false
  ∧ Forall (λ ev, Coordinator.should_end_call ev = false) r.2.
Proof.
  intros Hsched. revert s.
  induction Hsched as [|a sched Ha _ IH]; intros s Hflag; simpl; [done|].
  assert (call_end_detected (handler (step session_id a s).1) = false
          ∧ Forall (λ ev, Coordinator.should_end_call ev = false)
                   (step session_id a s).2) as [Hflag1 Hout1].
  { assert (∀ h toks, call_end_detected h = false →
              Forall (λ ev, Coordinator.should_end_call ev = false)
                     (map (token_event h) toks)) as Htok.
    { intros h toks Hh. apply Forall_forall. intros e He.
      by apply list_elem_of_fmap in He as (tok & -> & _). }
    destruct a as [cb| |raised|]; simpl.
    - destruct (thread_alive s); simpl; [|done]. split; [|done].
      destruct cb as [|token|tool_name| |]; simpl; try done.
      case_bool_decide as Hname; [|done]. by subst.
    - split; [|done]. unfold timer_fires.
      by destruct (interstitial_timer (handler s)).
    - by destruct (thread_alive s).
    - unfold poll, fail. destruct (exhausted s); [done|].
      destruct (thread_alive s || _).
      + destruct (should_send_interstitial (handler s) && _).
        * destruct (get_next_interstitial (handler s)) as [[phrase h1]|] eqn:Hn;
            simpl; [|by repeat constructor].
          apply get_next_interstitial_Some in Hn as (_ & _ & _ & Hce & _).
          rewrite Hce. split; [done|]. constructor; [done|].
          apply Htok. simpl. congruence.
        * simpl. split; [done|]. by apply Htok.
      + destruct (error s); simpl; [by repeat constructor|].
        destruct (finalize session_id s); simpl; by repeat constructor. }
  destruct (step session_id a s) as [s1 out1]. simpl in *.
  specialize (IH s1 Hflag1). destruct (run session_id sched s1) as [s2 out2].
  simpl in *. destruct IH as [Hflag2 Hout2].
  split; [done | by apply Forall_app].
Qed.

Lemma consume_all_without_end_call (evs : list Event) (st : Loop) :
  Forall (λ ev, Coordinator.should_end_call ev = false) evs →
  should_end_call st = false →
  should_end_call (consume_all evs st).1 = false.
Proof.
  intros Hall. revert st. induction Hall as [|ev evs Hev _ IH]; intros st Hst;
    simpl; [done|].
  assert (should_end_call (consume ev st).1 = false) as H1.
  { unfold consume. destruct (is_interstitial ev); simpl; [done|].
    by rewrite Hev. }
  destruct (consume ev st) as [st1 out1]. specialize (IH st1 H1).
  by destruct (consume_all evs st1).
Qed.

(** The marker channel of the call end, in general: in a turn in
    which the agent never starts the tool [end_call], no call end is
    decided, whatever text was generated. *)
Lemma call_end_needs_tool (session_id : string) (text : pystr)
    (sched : list Action) (created : bool) (agent_session : option Handler.t)
    (histories : gmap string (list Redactor.Entry)) (o : Outcome) :
  Forall (λ a, a ≠ Agent (ToolStart "end_call")) sched →
  (llm_call_response_streaming session_id text sched created agent_session
     histories).2 = Some o →
  end_call o = false.
Proof.
  intros Hsched. unfold llm_call_response_streaming.
  destruct (generate_as_run session_id text sched created agent_session
              histories) as (sched' & s0 & -> & Hcase).
  assert (Forall (λ a, a ≠ Agent (ToolStart "end_call")) sched'
          ∧ call_end_detected (handler s0) = false) as [Hsched' Hs0].
  { destruct Hcase as [[-> ->] | (-> & -> & _)]; [done|].
    split; [by repeat constructor | done]. }
  pose proof (run_without_end_call session_id sched' s0 Hsched' Hs0)
    as [_ Hevs].
  destruct (run session_id sched' s0) as [s evs]. simpl in Hevs.
  pose proof (consume_all_without_end_call evs init Hevs eq_refl) as Hst.
  destruct (consume_all evs init) as [st sent]. simpl in Hst.
  destruct (exhausted s); [|done]. simpl. intros [= <-].
  by rewrite call_end_ignores_text.
Qed.

(** *** The relayed text *)

Lemma texts_app (evs1 evs2 : list Event) :
  texts (evs1 ++ evs2) = texts evs1 ++ texts evs2.
Proof. unfold texts. by rewrite filter_app, map_app. Qed.

Lemma texts_tokens (h : Handler.t) (toks : list pystr) :
  texts (map (token_event h) toks) = toks.
Proof.
  induction toks as [|tok toks IH]; [done|]. unfold texts in *.
  cbn [map]. rewrite filter_cons_True by done. cbn [map]. by rewrite IH.
Qed.

Lemma texts_interstitial (p : pystr) (evs : list Event) :
  texts (interstitial_event p :: evs) = texts evs.
Proof. unfold texts. by rewrite filter_cons_False by done. Qed.

Lemma poll_text_inv (session_id : string) (s : Turn) (evs : list Event) :
  text_inv s evs →
  text_inv (poll session_id s).1 (evs ++ (poll session_id s).2).
Proof.
  intros Hinv. unfold poll.
  destruct (exhausted s) eqn:Hex.
  { simpl. by rewrite app_nil_r. }
  assert (text_inv (fail s).1 (evs ++ (fail s).2)) as Hfail.
  { unfold text_inv, fail. simpl. left. by rewrite last_snoc. }
  unfold text_inv in Hinv. rewrite Hex in Hinv. destruct Hinv as [Htexts Hle].
  destruct (thread_alive s || _) eqn:Hloop.
  - assert (texts evs ++ drop (last_token_count s) (tokens (handler s))
            = take (length (tokens (handler s))) (tokens (handler s))) as Hall.
    { by rewrite Htexts, take_drop, firstn_all. }
    destruct (should_send_interstitial (handler s) && _).
    + destruct (get_next_interstitial (handler s)) as [[phrase h1]|] eqn:Hn;
        [|exact Hfail].
      apply get_next_interstitial_Some in Hn as (_ & _ & Htok & _).
      unfold text_inv. simpl.
      rewrite texts_app, texts_interstitial, texts_tokens, Htok. done.
    + unfold text_inv. simpl. rewrite texts_app, texts_tokens. done.
  - apply orb_false_iff in Hloop as [Hdead Hdrained].
    apply Nat.ltb_ge in Hdrained.
    destruct (error s); [exact Hfail|].
    destruct (finalize session_id s); [|exact Hfail].
    unfold text_inv. simpl. right. split; [done|].
    rewrite texts_app, Htexts, concat_app. simpl.
    rewrite app_nil_r, take_ge by lia. done.
Qed.

Lemma step_text_inv (session_id : string) (a : Action) (s : Turn)
    (evs : list Event) :
  text_inv s evs →
  text_inv (step session_id a s).1 (evs ++ (step session_id a s).2).
Proof.
  intros Hinv. destruct a as [cb| |raised|]; simpl.
  - destruct (thread_alive s) eqn:Halive; simpl; rewrite app_nil_r; [|done].
    revert Hinv. unfold text_inv. simpl.
    destruct (exhausted s).
    + intros [Hfb|[Hdead _]]; [by left | congruence].
    + destruct (on_tokens cb (handler s)) as [toks ->].
      intros [Htexts Hle]. rewrite take_app_le, length_app by done.
      split; [done | lia].
  - rewrite app_nil_r. revert Hinv. unfold text_inv. simpl.
    by rewrite timer_fires_tokens.
  - destruct (thread_alive s) eqn:Halive; simpl; rewrite app_nil_r; [|done].
    revert Hinv. unfold text_inv. simpl.
    destruct (exhausted s); [|done].
    intros [Hfb|[Hdead _]]; [by left | congruence].
  - by apply poll_text_inv.
Qed.

Lemma run_text_inv (session_id : string) (sched : list Action) (s : Turn)
    (evs : list Event) :
  text_inv s evs →
  text_inv (run session_id sched s).1 (evs ++ (run session_id sched s).2).
Proof.
  revert s evs. induction sched as [|a sched IH]; intros s evs Hinv; simpl.
  - by rewrite app_nil_r.
  - pose proof (step_text_inv session_id a s evs Hinv) as Hstep.
    destruct (step session_id a s) as [s1 out1]. simpl in Hstep.
    specialize (IH s1 _ Hstep).
    destruct (run session_id sched s1) as [s2 out2]. simpl in *.
    by rewrite app_assoc.
Qed.

(** The relay collects the texts of the events. *)
Lemma consume_all_parts (evs : list Event) (st : Loop) :
  full_response_parts (consume_all evs st).1
  = full_response_parts st ++ texts evs.
Proof.
  revert st. induction evs as [|ev evs IH]; intros st; simpl.
  - by rewrite app_nil_r.
  - assert (full_response_parts (consume ev st).1 ++ texts evs
            = full_response_parts st ++ texts (ev :: evs)) as H1.
    { unfold consume, texts. destruct (is_interstitial ev) eqn:Hev; simpl.
      - by rewrite filter_cons_False by congruence.
      - rewrite filter_cons_True by done. simpl. by rewrite <- app_assoc. }
    destruct (consume ev st) as [st1 out1]. specialize (IH st1).
    destruct (consume_all evs st1) as [st2 out2]. simpl in *. congruence.
Qed.

(** The hand-off through the whole pipeline: when the generator has
    returned without the apology and the generated reply contains the
    marker [HANDOFF_HUMAN:], the hand-off is decided and sent, whether or
    not the tool was started. *)
Lemma handoff_by_marker (session_id : string) (text : pystr)
    (sched : list Action) (created : bool) (agent_session : option Handler.t)
    (histories : gmap string (list Redactor.Entry)) :
  let g := generate_agent_response_stream session_id text sched
             created agent_session histories in
  let r := llm_call_response_streaming session_id text sched
             created agent_session histories in
  exhausted g.1 = true →
  last g.2 ≠ Some fallback_event →
  Text.contains (lit "HANDOFF_HUMAN:") (concat (tokens (handler g.1))) = true →
  (∃ o, r.2 = Some o ∧ handoff o = true) ∧ HandoffMsg ∈ r.1.
Proof.
  intros g r Hex Hlast Hmarker.
  assert (text_inv g.1 g.2) as Hinv.
  { unfold g, generate_agent_response_stream.
    destruct (agent_available created agent_session).
    - apply (run_text_inv session_id sched
               (start session_id text agent_session histories) []).
      unfold text_inv. simpl. split; [done | lia].
    - apply (run_text_inv session_id [Poll]
               (unstarted session_id text histories) []).
      unfold text_inv. simpl. split; [done | lia]. }
  unfold text_inv in Hinv. rewrite Hex in Hinv.
  destruct Hinv as [Hfb|[_ Htexts]]; [done|].
  unfold r, llm_call_response_streaming. fold g.
  pose proof (consume_all_parts g.2 init) as Hparts. simpl in Hparts.
  destruct g as [s evs]. simpl in *.
  destruct (consume_all evs init) as [st sent]. simpl in *.
  rewrite Hex. simpl.
  assert (handoff (decide_outcome st) = true) as Hh.
  { apply handoff_marker_detected. by rewrite Hparts, Htexts. }
  split; [eauto|]. rewrite Hh.
  apply elem_of_app. right. apply elem_of_app. right.
  apply list_elem_of_further, list_elem_of_here.
Qed.

(** *** The flags through the pipeline *)

Lemma step_flag_inv (session_id : string) (a : Action) (s : Turn)
    (evs : list Event) :
  flag_inv s evs →
  flag_inv (step session_id a s).1 (evs ++ (step session_id a s).2).
Proof.
  intros Hinv. destruct a as [cb| |raised|]; simpl.
  - destruct (thread_alive s) eqn:Halive; simpl; rewrite app_nil_r; [|done].
    unfold flag_inv in *. simpl. intros Hex.
    destruct (Hinv Hex) as [Hfb|[Hdead _]]; [by left | congruence].
  - rewrite app_nil_r. unfold flag_inv in *. simpl. intros Hex.
    destruct (Hinv Hex) as [Hfb|[Hdead He]]; [by left | right].
    split; [done|]. unfold timer_fires.
    by destruct (interstitial_timer (handler s)).
  - destruct (thread_alive s) eqn:Halive; simpl; rewrite app_nil_r; [|done].
    unfold flag_inv in *. simpl. intros Hex.
    destruct (Hinv Hex) as [Hfb|[Hdead _]]; [by left | congruence].
  - unfold poll. destruct (exhausted s) eqn:Hex.
    { simpl. by rewrite app_nil_r. }
    assert (flag_inv (fail s).1 (evs ++ (fail s).2)) as Hfail.
    { unfold flag_inv, fail. simpl. intros _. left. by rewrite last_snoc. }
    destruct (thread_alive s || _) eqn:Hloop.
    + destruct (should_send_interstitial (handler s) && _).
      * destruct (get_next_interstitial (handler s)) as [[phrase h1]|];
          [|exact Hfail]. unfold flag_inv. simpl. done.
      * unfold flag_inv. simpl. done.
    + apply orb_false_iff in Hloop as [Hdead _].
      destruct (error s); [exact Hfail|].
      destruct (finalize session_id s); [|exact Hfail].
      unfold flag_inv. simpl. intros _. right. split; [done|].
      exists (final_event (handler s)). by rewrite last_snoc.
Qed.

Lemma run_flag_inv (session_id : string) (sched : list Action) (s : Turn)
    (evs : list Event) :
  flag_inv s evs →
  flag_inv (run session_id sched s).1 (evs ++ (run session_id sched s).2).
Proof.
  revert s evs. induction sched as [|a sched IH]; intros s evs Hinv; simpl.
  - by rewrite app_nil_r.
  - pose proof (step_flag_inv session_id a s evs Hinv) as Hstep.
    destruct (step session_id a s) as [s1 out1]. simpl in Hstep.
    specialize (IH s1 _ Hstep).
    destruct (run session_id sched s1) as [s2 out2]. simpl in *.
    by rewrite app_assoc.
Qed.

Lemma consume_logged (ev : Event) (st : Loop) :
  logged_inv st →
  logged_inv (consume ev st).1
  ∧ (is_interstitial ev = false →
     (Coordinator.should_end_call ev = true →
      should_end_call (consume ev st).1 = true)
     ∧ (Coordinator.should_handoff ev = true →
        should_handoff (consume ev st).1 = true)).
Proof.
  intros [Hend Hhand]. unfold consume, logged_inv.
  destruct (is_interstitial ev); simpl; [done|].
  destruct (Coordinator.should_end_call ev), (Coordinator.should_handoff ev),
    (end_call_logged st), (handoff_logged st); simpl; auto.
Qed.

Lemma consume_all_logged (evs : list Event) (st : Loop) :
  logged_inv st → logged_inv (consume_all evs st).1.
Proof.
  revert st. induction evs as [|ev evs IH]; intros st Hst; simpl; [done|].
  pose proof (consume_logged ev st Hst) as [H1 _].
  destruct (consume ev st) as [st1 out1]. specialize (IH st1 H1).
  by destruct (consume_all evs st1).
Qed.

(** The tool channel through the whole pipeline: when the generator
    has returned without the apology, a call-end flag set by the start
    of [end_call] and a hand-off flag set by the start of
    [escalate_to_human_agent] are in the outcome. *)
Lemma flags_by_tool (session_id : string) (text : pystr)
    (sched : list Action) (created : bool) (agent_session : option Handler.t)
    (histories : gmap string (list Redactor.Entry)) :
  let g := generate_agent_response_stream session_id text sched
             created agent_session histories in
  let r := llm_call_response_streaming session_id text sched
             created agent_session histories in
  exhausted g.1 = true →
  last g.2 ≠ Some fallback_event →
  ∃ o, r.2 = Some o
       ∧ (call_end_detected (handler g.1) = true → end_call o = true)
       ∧ (handoff_detected (handler g.1) = true → handoff o = true).
Proof.
  intros g r Hex Hlast.
  assert (flag_inv g.1 g.2) as Hinv.
  { unfold g, generate_agent_response_stream.
    destruct (agent_available created agent_session).
    - apply (run_flag_inv session_id sched
               (start session_id text agent_session histories) []).
      unfold flag_inv. simpl. done.
    - apply (run_flag_inv session_id [Poll]
               (unstarted session_id text histories) []).
      unfold flag_inv. simpl. done. }
  destruct (Hinv Hex) as [Hfb|(_ & e & He & Hint & Hce & Hho)]; [done|].
  unfold r, llm_call_response_streaming. fold g.
  destruct g as [s evs]. simpl in *.
  destruct (last_Some evs e) as [[pre ->] _]; [done|].
  rewrite consume_all_app. simpl.
  pose proof (consume_all_logged pre init) as Hlogged.
  destruct (consume_all pre init) as [st0 sent0]. simpl in *.
  destruct (consume_logged e st0 (Hlogged ltac:(done))) as [_ Hflags].
  destruct (Hflags Hint) as [Hend Hhand].
  destruct (consume e st0) as [st sent]. simpl in *.
  rewrite Hex. simpl. eexists. split; [done|].
  rewrite call_end_ignores_text. split.
  - intros Hflag. apply Hend. congruence.
  - intros Hflag. unfold decide_outcome.
    rewrite Hhand by congruence. simpl. done.
Qed.

End RelayFacts.

(* ================================================================= *)
(** * Concrete turns *)

Section Scenarios.

Import Handler Coordinator Relay Spec Schedules.

(** C1, refuted as stated.  The model says a few words and then calls a
    tool that takes longer than the timer: the words are streamed first,
    and the interstitial is the second event of the turn. *)
Lemma interstitial_after_first_chunk :
  let r := generate_agent_response_stream "s" (lit "any beans left?")
             words_then_tool true None ∅ in
  map (λ e, (chunk e, is_interstitial e)) r.2
  = [ (lit "Sure. ", false); (lit "Let me check that for you...", true);
      (lit "In stock.", false); ([], false) ]
  ∧ ¬ interstitial_first r.2.
Proof.
  split; [by vm_compute|].
  intros H.
  specialize (H [token_event Handler.init (lit "Sure. ")]
                (interstitial_event (lit "Let me check that for you..."))
                [token_event Handler.init (lit "In stock.");
                 final_event Handler.init]
                ltac:(by vm_compute) eq_refl).
  inversion H as [|e l He _]; subst. discriminate He.
Qed.

Lemma one_interstitial_per_turn_witness :
  let r := generate_agent_response_stream "s" (lit "any beans left?")
             words_then_tool true None ∅ in
  length (selections r.2) ≤ 1
  ∧ map chunk [token_event Handler.init (lit "Sure. ")]
    = take 1 (tokens (handler r.1)).
Proof.
  destruct (one_interstitial_per_turn "s" (lit "any beans left?")
              words_then_tool true None ∅) as (Hone & Hbefore & _).
  split; [exact Hone|].
  destruct (Hbefore [token_event Handler.init (lit "Sure. ")]
              (interstitial_event (lit "Let me check that for you..."))
              [token_event Handler.init (lit "In stock.");
               final_event Handler.init]
              ltac:(vm_compute; reflexivity) eq_refl) as (_ & Hchunks & _).
  exact Hchunks.
Defined.

(** C5, refuted as stated.  The agent thread raises in the first turn of
    a session: the stream ends with the apology, and the history of the
    session, which did not exist, now holds the user's message. *)
Lemma failed_turn_keeps_user_message :
  let histories : gmap string (list Redactor.Entry) := ∅ in
  let r := generate_agent_response_stream "s" (lit "hi") raising true None
             histories in
  error r.1 = true ∧ exhausted r.1 = true
  ∧ last r.2 = Some fallback_event
  ∧ histories !! "s"%string = None
  ∧ conversation_histories r.1 !! "s"%string = Some [user_entry (lit "hi")]
  ∧ conversation_histories r.1 ≠ histories.
Proof.
  assert (conversation_histories
            (generate_agent_response_stream "s" (lit "hi") raising true None ∅).1
          = <["s"%string := [user_entry (lit "hi")]]> ∅) as Hh by reflexivity.
  cbv zeta. rewrite Hh. repeat split; by vm_compute.
Qed.

Lemma generation_failure_witness :
  let r := generate_agent_response_stream "s" (lit "hi") raising true None ∅ in
  (∃ pre, r.2 = pre ++ [fallback_event] ∧ Forall in_loop pre)
  ∧ conversation_histories r.1
    = <["s"%string := default [] ((∅ : gmap string (list Redactor.Entry))
                                     !! "s"%string)
                       ++ [user_entry (lit "hi")]]> ∅.
Proof.
  exact (generation_failure "s" (lit "hi") raising true None ∅ eq_refl eq_refl).
Defined.

Lemma rotation_cursor_persists_witness :
  let all := selections (concat (map snd
               (session "s" [(lit "hi", slow_tool); (lit "and?", slow_tool)]
                        true None ∅))) in
  all = [ lit "Let me check that for you..."; lit "One moment please..." ]
  ∧ lit "Let me check that for you..." ≠ lit "One moment please..."
  ∧ phrase_index (reset Handler.init) = 0.
Proof.
  destruct (rotation_cursor_persists "s") as (Hreset & Hnext & Hsession).
  destruct (Hsession [(lit "hi", slow_tool); (lit "and?", slow_tool)] true None ∅)
    as [_ Hadjacent].
  destruct (Hnext (reset Handler.init) (lit "Let me check that for you...") _
              eq_refl) as [_ Hcursor].
  split; [vm_compute; reflexivity|]. split.
  - apply (Hadjacent [] _ _ []). vm_compute. reflexivity.
  - apply Hreset.
Defined.

Lemma outbound_chunks_bounded_witness :
  let long := repeat 97%N 201 in
  let sched := long_token in
  let r := llm_call_response_streaming "s" (lit "hi") sched true None ∅ in
  let g := generate_agent_response_stream "s" (lit "hi") sched true None ∅ in
  Forall (λ m, token_length m ≤ 200) r.1
  ∧ r.1 = [ TextMsg (repeat 97%N 197 ++ lit "...") false; TextMsg [] true ]
  ∧ send_chunk long = take 197 long ++ lit "..."
  ∧ truthy (Text.strip (token_buffer (consume_all g.2 init).1)) = false.
Proof.
  intros long sched r g.
  destruct (outbound_chunks_bounded "s" (lit "hi") sched true None ∅)
    as (Hall & Hcap & Hblank).
  split; [exact Hall|]. split; [vm_compute; reflexivity|]. split.
  - apply (Hcap long). unfold long. rewrite repeat_length. lia.
  - apply Hblank. vm_compute. reflexivity.
Defined.

(** C4 on the code.  The reply ["CALL_END: Goodbye!"] arrives without a
    start of the tool [end_call]: no call end is decided, no hang-up is
    sent, and the marker stays in the relayed text and in the history.
    The reply ["HANDOFF_HUMAN: Goodbye!"], also without its tool, is
    detected from the text, stripped, and followed by the hand-off. *)
Lemma call_end_marker_alone_is_missed :
  let by_call_end := llm_call_response_streaming "s" (lit "bye")
                       (marker_only "CALL_END:") true None ∅ in
  let by_handoff := llm_call_response_streaming "s" (lit "bye")
                      (marker_only "HANDOFF_HUMAN:") true None ∅ in
  by_call_end.2 = Some {| end_call := false; handoff := false;
                          full_response := lit "CALL_END: Goodbye!" |}
  ∧ by_call_end.1 = [ TextMsg (lit "CALL_END: Goodbye!") false;
                      TextMsg [] true ]
  ∧ by_handoff.2 = Some {| end_call := false; handoff := true;
                           full_response := lit "Goodbye!" |}
  ∧ by_handoff.1 = [ TextMsg (lit "HANDOFF_HUMAN: Goodbye!") false;
                     TextMsg [] true; HandoffMsg ].
Proof. repeat split; vm_compute; reflexivity. Qed.

(** C6, refuted as stated.  The agent calls [end_call], which sets the
    call-end flag and starts no timer; the next tool it starts is not in
    the exclusion list, and its start arms the interstitial timer
    although the flag is set. *)
Lemma timer_started_after_call_end :
  let s0 := start "s" (lit "bye") None ∅ in
  let before :=
    (run "s" [Agent (ToolStart "end_call"); Agent ToolEnd] s0).1 in
  let after := (step "s" (Agent (ToolStart "check_stock")) before).1 in
  call_end_detected (handler before) = true
  ∧ is_alive (interstitial_timer (handler before)) = false
  ∧ call_end_detected (handler after) = true
  ∧ is_alive (interstitial_timer (handler after)) = true.
Proof. repeat split. Qed.

End Scenarios.

(* ================================================================= *)
(** * The call-ending flags, statement by statement *)

Section FineFacts.

Import Handler Coordinator Spec Fine.

Ltac close_step :=
  simpl; repeat (intros; split); intros;
  try done; try lia; try by repeat constructor.

Lemma on_handoff (cb : Handler.Callback) (h : Handler.t) :
  handoff_detected h = true → handoff_detected (on cb h) = true.
Proof.
  destruct cb; simpl; try done. intros ->. by repeat case_bool_decide.
Qed.

Lemma requested_handoff (h : Handler.t) :
  requested h = true → call_end_detected h = false →
  handoff_detected h = true.
Proof. unfold requested. intros H Hc. by rewrite Hc in H. Qed.

Lemma tick_frame (st : State) :
  pc (tick st) = pc st
  ∧ call_end_detected (handler (turn (tick st)))
    = call_end_detected (handler (turn st))
  ∧ handoff_detected (handler (turn (tick st)))
    = handoff_detected (handler (turn st))
  ∧ sent_interstitials (handler (turn (tick st)))
    = sent_interstitials (handler (turn st))
  ∧ phrase_index (handler (turn (tick st))) = phrase_index (handler (turn st)).
Proof.
  unfold tick. destruct (timer_pc st).
  - by destruct (interstitial_timer (handler (turn st))).
  - by destruct (negb _).
  - by destruct (negb _).
  - by destruct (call_end_detected (handler (turn st))) eqn:E; rewrite <- ?E.
  - by destruct (handoff_detected (handler (turn st))) eqn:E; rewrite <- ?E.
  - done.
Qed.

Lemma tick_after_request (st : State) :
  requested (handler (turn st)) = true →
  requested (handler (turn (tick st))) = true
  ∧ owed (tick st) = owed st
  ∧ sent_interstitials (handler (turn (tick st)))
    = sent_interstitials (handler (turn st))
  ∧ phrase_index (handler (turn (tick st))) = phrase_index (handler (turn st))
  ∧ (timer_safe st = true →
     interstitial_ready (handler (turn st)) = false →
     timer_safe (tick st) = true
     ∧ interstitial_ready (handler (turn (tick st))) = false).
Proof.
  intros Hreq.
  destruct (tick_frame st) as (Hpc & Hce & Hho & Hsent & Hidx).
  split; [unfold requested; by rewrite Hce, Hho|].
  split; [unfold owed; by rewrite Hpc, Hho|].
  split; [done|]. split; [done|].
  unfold timer_safe. rewrite Hho. clear Hpc Hce Hho Hsent Hidx.
  unfold tick. destruct (timer_pc st) eqn:Ht.
  - destruct (interstitial_timer (handler (turn st))); close_step;
      by rewrite Ht.
  - destruct (negb _); close_step.
  - destruct (negb _); close_step.
  - destruct (call_end_detected (handler (turn st))) eqn:Hc; [close_step|].
    pose proof (requested_handoff _ Hreq Hc). close_step.
  - intros ->. close_step.
  - close_step.
Qed.

Lemma next_after_request (session_id : string) (st : State) :
  requested (handler (turn st)) = true →
  let r := next session_id st in
  requested (handler (turn r.1)) = true
  ∧ length (selections r.2) + owed r.1 ≤ owed st
  ∧ (owed st = 0 →
     Forall (λ ev, is_interstitial ev = false) r.2
     ∧ sent_interstitials (handler (turn r.1))
       = sent_interstitials (handler (turn st))
     ∧ phrase_index (handler (turn r.1)) = phrase_index (handler (turn st)))
  ∧ timer_safe r.1 = timer_safe st
  ∧ (interstitial_ready (handler (turn st)) = false →
     interstitial_ready (handler (turn r.1)) = false).
Proof.
  intros Hreq. unfold next, owed, timer_safe.
  destruct (exhausted (turn st)); [close_step|].
  destruct (pc st) as [| |count|count|count|count|count|count phrase
                      |count phrase|count phrase|count phrase|count i] eqn:Hpc.
  - destruct (thread_alive _ || _).
    { close_step; by destruct (timer_pc st). }
    unfold leave_loop, raise. destruct (error (turn st)).
    { close_step; by destruct (timer_pc st). }
    destruct (finalize session_id (turn st)); close_step;
      by destruct (timer_pc st).
  - close_step; by destruct (timer_pc st).
  - destruct (interstitial_ready (handler (turn st))) eqn:E; close_step;
      try congruence; by destruct (timer_pc st).
  - destruct (interstitial_sent (handler (turn st))) eqn:E; close_step;
      by destruct (timer_pc st).
  - destruct (call_end_detected (handler (turn st))) eqn:Hc.
    { close_step; by destruct (timer_pc st). }
    pose proof (requested_handoff _ Hreq Hc) as Hh.
    close_step; rewrite ?Hh; try done; by destruct (timer_pc st).
  - destruct (handoff_detected (handler (turn st))) eqn:Hh;
      [|destruct (interstitial_sent_this_response (turn st))];
      close_step; by destruct (timer_pc st).
  - destruct (get_next_interstitial (handler (turn st))) as [[phrase h1]|] eqn:Hn.
    + unfold get_next_interstitial in Hn.
      destruct (interstitial_phrases !! _); [|done]. injection Hn as <- <-.
      close_step; by destruct (timer_pc st).
    + unfold raise. close_step; by destruct (timer_pc st).
  - close_step; by destruct (timer_pc st).
  - close_step; by destruct (timer_pc st).
  - close_step; by destruct (timer_pc st).
  - close_step; by destruct (timer_pc st).
  - destruct (i <? count).
    + destruct (tokens (handler (turn st)) !! i); unfold raise; close_step;
        by destruct (timer_pc st).
    + close_step; by destruct (timer_pc st).
Qed.

Lemma callback_step (session_id : string) (cb : Handler.Callback)
    (st : State) :
  let r := Fine.step session_id (Callback cb) st in
  r.2 = [] ∧ pc r.1 = pc st ∧ timer_pc r.1 = timer_pc st
  ∧ (handler (turn r.1) = on cb (handler (turn st))
     ∨ handler (turn r.1) = handler (turn st)).
Proof.
  cbn [Fine.step Coordinator.step fst snd]. unfold goto.
  cbn [turn pc timer_pc]. destruct (thread_alive (turn st)); auto.
Qed.

Lemma exit_step (session_id : string) (raised : bool) (st : State) :
  let r := Fine.step session_id (Exit raised) st in
  r.2 = [] ∧ pc r.1 = pc st ∧ timer_pc r.1 = timer_pc st
  ∧ handler (turn r.1) = handler (turn st).
Proof.
  cbn [Fine.step Coordinator.step fst snd]. unfold goto.
  cbn [turn pc timer_pc]. destruct (thread_alive (turn st)); auto.
Qed.

Lemma fine_step_after_request (session_id : string) (m : Move) (st : State) :
  requested (handler (turn st)) = true →
  let r := Fine.step session_id m st in
  requested (handler (turn r.1)) = true
  ∧ length (selections r.2) + owed r.1 ≤ owed st
  ∧ (owed st = 0 →
     Forall (λ ev, is_interstitial ev = false) r.2
     ∧ sent_interstitials (handler (turn r.1))
       = sent_interstitials (handler (turn st))
     ∧ phrase_index (handler (turn r.1)) = phrase_index (handler (turn st)))
  ∧ (timer_safe st = true →
     interstitial_ready (handler (turn st)) = false →
     timer_safe r.1 = true
     ∧ interstitial_ready (handler (turn r.1)) = false).
Proof.
  intros Hreq. destruct m as [cb|raised| |].
  - destruct (callback_step session_id cb st) as (Hout & Hpc & Ht & Hh).
    intros r. fold r in Hout, Hpc, Ht, Hh.
    unfold owed, timer_safe. rewrite Hout, Hpc, Ht.
    destruct Hh as [-> | ->]; [|close_step].
    pose proof (on_handoff cb (handler (turn st))) as Hmono.
    split; [by apply on_requested|]. split; [|split].
    + change (length (selections [])) with 0.
      destruct (pc st); cbn [selecting]; try lia.
      destruct (handoff_detected (handler (turn st)));
        [by rewrite Hmono|].
      destruct (handoff_detected (on cb (handler (turn st)))); lia.
    + intros _. split; [constructor|].
      split; [apply on_sent_interstitials | apply on_phrase_index].
    + intros Hsafe Hready. split; [|by apply on_ready].
      destruct (timer_pc st); try done. auto.
  - destruct (exit_step session_id raised st) as (Hout & Hpc & Ht & Hh).
    intros r. fold r in Hout, Hpc, Ht, Hh.
    unfold owed, timer_safe. rewrite Hout, Hpc, Ht, Hh. close_step.
  - destruct (tick_after_request st Hreq) as (Hr & Hp & Hs & Hi & Hready).
    cbn [Fine.step fst snd]. rewrite Hp. close_step; by apply Hready.
  - destruct (next_after_request session_id st Hreq)
      as (Hr & Hp & Hsel & Ht & Hready).
    cbn [Fine.step]. close_step; try (by apply Hsel); try (by apply Hready).
    by rewrite Ht.
Qed.

Lemma fine_run_after_request (session_id : string) (moves : list Move)
    (st : State) :
  requested (handler (turn st)) = true →
  let r := Fine.run session_id moves st in
  requested (handler (turn r.1)) = true
  ∧ length (selections r.2) ≤ owed st
  ∧ (owed st = 0 →
     Forall (λ ev, is_interstitial ev = false) r.2
     ∧ sent_interstitials (handler (turn r.1))
       = sent_interstitials (handler (turn st))
     ∧ phrase_index (handler (turn r.1)) = phrase_index (handler (turn st)))
  ∧ (timer_safe st = true →
     interstitial_ready (handler (turn st)) = false →
     interstitial_ready (handler (turn r.1)) = false).
Proof.
  revert st. induction moves as [|m moves IH]; intros st Hreq.
  { close_step. }
  pose proof (fine_step_after_request session_id m st Hreq) as Hstep.
  cbn [Fine.run].
  destruct (Fine.step session_id m st) as [st1 out1]. cbn [fst snd] in Hstep.
  destruct Hstep as (Hreq1 & Hpend1 & Hsel1 & Hready1).
  specialize (IH st1 Hreq1).
  destruct (Fine.run session_id moves st1) as [st2 out2]. cbn [fst snd] in *.
  destruct IH as (Hreq2 & Hpend2 & Hsel2 & Hready2).
  split; [done|]. split; [|split].
  - rewrite selections_app, length_app. lia.
  - intros Hsel. destruct (Hsel1 Hsel) as (Hout1 & Hsent1 & Hidx1).
    destruct (Hsel2 ltac:(lia)) as (Hout2 & Hsent2 & Hidx2).
    split; [by apply Forall_app|]. split; congruence.
  - intros Ht Hready. destruct (Hready1 Ht Hready) as [Ht1 Hr1]. auto.
Qed.

(** C6, as the code has it.  Once [call_end_detected] or
    [handoff_detected] is set, then along every continuation of the
    turn, taken statement by statement and, in the tests of the flags,
    read by read: the flag stays set; a test of line 164 that has not
    yet read [call_end_detected] fails, so that at most one interstitial
    can still be emitted, and only by a generator that had read
    [call_end_detected] in the test of line 164 before and has not yet
    reached the end of the [yield] of line 171; from any other place of
    the generator no interstitial is emitted, none is recorded and the
    rotation cursor does not move; and a handler that is not ready does
    not become ready, unless the callback of the timer had read
    [call_end_detected] in the test of line 128 before. *)
Theorem no_interstitial_after_request (session_id : string)
    (moves : list Move) (st : State) :
  requested (handler (turn st)) = true →
  let r := Fine.run session_id moves st in
  requested (handler (turn r.1)) = true
  ∧ length (selections r.2) ≤ (if selecting (pc st) then 1 else 0)
  ∧ (selecting (pc st) = false →
     Forall (λ ev, is_interstitial ev = false) r.2
     ∧ sent_interstitials (handler (turn r.1))
       = sent_interstitials (handler (turn st))
     ∧ phrase_index (handler (turn r.1)) = phrase_index (handler (turn st)))
  ∧ (setting_ready (timer_pc st) = false →
     interstitial_ready (handler (turn st)) = false →
     interstitial_ready (handler (turn r.1)) = false).
Proof.
  intros Hreq r.
  destruct (fine_run_after_request session_id moves st Hreq)
    as (Hreq' & Howed & Hsel & Hready).
  fold r in Hreq', Howed, Hsel, Hready.
  assert (owed st ≤ (if selecting (pc st) then 1 else 0)) as Hle.
  { unfold owed. destruct (pc st); simpl; try lia.
    destruct (handoff_detected _); lia. }
  split; [done|]. split; [lia|]. split.
  - intros Hs. apply Hsel. rewrite Hs in Hle. lia.
  - intros Ht. apply Hready. unfold timer_safe.
    by destruct (timer_pc st).
Qed.

(** A turn in which the interstitial comes after the call-ending flag:
    the timer of a first tool has made the handler ready and the
    generator has passed the test of line 164 when the agent starts
    [end_call]; the statements that follow the test select, record and
    yield the interstitial with the flag set. *)
Lemma interstitial_sent_after_call_end :
  let moves1 := [ Callback (ToolStart "check_stock");
                  Tick; Tick; Tick; Tick; Tick; Tick;
                  Next; Next; Next; Next; Next; Next;
                  Callback ToolEnd; Callback (ToolStart "end_call") ] in
  let moves2 := [ Next; Next; Next; Next; Next ] in
  let st1 := (Fine.run "s" moves1
                (enter (start "s" (lit "bye") None ∅))).1 in
  let r := Fine.run "s" moves2 st1 in
  call_end_detected (handler (turn st1)) = true
  ∧ selecting (pc st1) = true
  ∧ r.2 = [ interstitial_event (lit "Let me check that for you...") ]
  ∧ sent_interstitials (handler (turn r.1))
    = [ lit "Let me check that for you..." ]
  ∧ phrase_index (handler (turn r.1)) = 1.
Proof. vm_compute. repeat split. Qed.

(** *** Uninterrupted iterations *)

Lemma fine_run_app (session_id : string) (moves1 moves2 : list Move)
    (st : State) :
  Fine.run session_id (moves1 ++ moves2) st
  = let r1 := Fine.run session_id moves1 st in
    let r2 := Fine.run session_id moves2 r1.1 in
    (r2.1, r1.2 ++ r2.2).
Proof.
  revert st. induction moves1 as [|m moves1 IH]; intros st; simpl.
  - by destruct (Fine.run session_id moves2 st).
  - destruct (Fine.step session_id m st) as [st1 out1]. rewrite IH. simpl.
    destruct (Fine.run session_id moves1 st1) as [st2 out2]. simpl.
    destruct (Fine.run session_id moves2 st2) as [st3 out3]. simpl.
    by rewrite app_assoc.
Qed.

(** The loop of lines 180-188 and the assignment of line 190. *)
Lemma next_tokens (session_id : string) (k : nat) :
  ∀ (st : State) (count i : nat),
  exhausted (turn st) = false → pc st = AtTokens count i →
  count ≤ length (tokens (handler (turn st))) → k = count - i →
  Fine.run session_id (repeat Next (S k)) st
  = ({| turn := {| handler := handler (turn st);
                   conversation_histories := conversation_histories (turn st);
                   thread_alive := thread_alive (turn st);
                   error := error (turn st);
                   last_token_count := count;
                   interstitial_sent_this_response :=
                     interstitial_sent_this_response (turn st);
                   exhausted := false |};
        pc := AtWhile; timer_pc := timer_pc st |},
     map (token_event (handler (turn st)))
       (take k (drop i (tokens (handler (turn st)))))).
Proof.
  induction k as [|k IH]; intros st count i Hex Hpc Hcount Hk.
  - cbn [repeat Fine.run Fine.step]. unfold next. rewrite Hex, Hpc.
    destruct (Nat.ltb_spec i count) as [Hlt|Hge]; [lia|].
    unfold goto. by rewrite Hex.
  - change (repeat Next (S (S k))) with (Next :: repeat Next (S k)).
    cbn [Fine.run Fine.step]. unfold next at 1. rewrite Hex, Hpc.
    destruct (Nat.ltb_spec i count) as [Hlt|Hge]; [|lia].
    destruct (lookup_lt_is_Some_2 (tokens (handler (turn st))) i
                ltac:(lia)) as [token Htoken].
    rewrite Htoken.
    rewrite (IH (goto (AtTokens count (S i)) id st) count (S i));
      [|done|done|done|lia].
    cbn [goto turn timer_pc id]. f_equal.
    rewrite (drop_S _ _ _ Htoken). done.
Qed.

Lemma fine_run_next (session_id : string) (n : nat) (st st1 : State)
    (out1 : list Event) (r : State * list Event) :
  next session_id st = (st1, out1) →
  Fine.run session_id (repeat Next n) st1 = r →
  Fine.run session_id (repeat Next (S n)) st = (r.1, out1 ++ r.2).
Proof.
  intros Hnext <-. cbn [repeat Fine.run Fine.step]. rewrite Hnext.
  by destruct (Fine.run session_id (repeat Next n) st1).
Qed.

(** The tests of a statement, decided by what is known of the state. *)
Ltac decide_tests :=
  repeat match goal with
         | H : _ = true |- _ => rewrite H
         | H : _ = false |- _ => rewrite H
         | H : _ = Some _ |- _ => rewrite H
         | H : _ = None |- _ => rewrite H
         end;
  cbn [negb andb orb].

(** The next statement of the generator in a run of statements. *)
Ltac walk :=
  erewrite fine_run_next;
  [ cbn [fst snd]
  | unfold next;
    cbn [enter goto turn pc timer_pc id with_handler exhausted handler];
    decide_tests; reflexivity
  | reflexivity ].

(** Both sides are the same run from the same statement. *)
Ltac settle :=
  unfold goto, enter, id; cbn [turn pc timer_pc app];
  by destruct (Fine.run _ _ _).

(** One iteration of the loop, or the code after the loop, as
    [Coordinator.poll] has it, is a run of the statements of the
    generator with nothing in between. *)
Lemma poll_uninterrupted (session_id : string) (s : Turn) :
  ∃ n, Fine.run session_id (repeat Next n) (enter s)
       = (enter (poll session_id s).1, (poll session_id s).2).
Proof.
  unfold poll. destruct (exhausted s) eqn:Hex.
  { exists 0. done. }
  destruct (thread_alive s || (last_token_count s <? length (tokens (handler s))))
    eqn:Hcond.
  - set (count := length (tokens (handler s))).
    set (k := count - last_token_count s).
    assert (take k (drop (last_token_count s) (tokens (handler s)))
            = drop (last_token_count s) (tokens (handler s))) as Hfresh.
    { apply take_ge. rewrite length_drop. unfold k, count. lia. }
    assert (∀ n,
      Fine.run session_id (repeat Next n) (enter s)
      = Fine.run session_id (repeat Next (S k))
          (goto (AtTokens count (last_token_count s)) id (enter s)) →
      Fine.run session_id (repeat Next n) (enter s)
      = (enter {| handler := handler s;
                  conversation_histories := conversation_histories s;
                  thread_alive := thread_alive s; error := error s;
                  last_token_count := count;
                  interstitial_sent_this_response :=
                    interstitial_sent_this_response s;
                  exhausted := false |},
         map (token_event (handler s))
           (drop (last_token_count s) (tokens (handler s))))) as Hskip.
    { intros n ->.
      rewrite (next_tokens session_id k _ count (last_token_count s));
        [|done|done|done|done].
      unfold enter, goto. simpl. by rewrite Hfresh. }
    unfold should_send_interstitial.
    destruct (interstitial_ready (handler s)) eqn:Hr; cbn [andb negb fst snd].
    2: { exists (3 + S k). apply Hskip. cbn [Nat.add]. do 3 walk. settle. }
    destruct (interstitial_sent (handler s)) eqn:Hs; cbn [andb negb fst snd].
    { exists (4 + S k). apply Hskip. cbn [Nat.add]. do 4 walk. settle. }
    destruct (call_end_detected (handler s)) eqn:Hc; cbn [andb negb fst snd].
    { exists (5 + S k). apply Hskip. cbn [Nat.add]. do 5 walk. settle. }
    destruct (handoff_detected (handler s)) eqn:Hh; cbn [andb negb fst snd].
    { exists (6 + S k). apply Hskip. cbn [Nat.add]. do 6 walk. settle. }
    destruct (interstitial_sent_this_response s) eqn:Ho;
      cbn [andb negb fst snd].
    { exists (6 + S k). apply Hskip. cbn [Nat.add]. do 6 walk. settle. }
    destruct (get_next_interstitial (handler s)) as [[phrase h1]|] eqn:Hn.
    + exists (11 + S k). cbn [Nat.add].
      assert (tokens h1 = tokens (handler s)) as Htok.
      { unfold get_next_interstitial in Hn.
        destruct (interstitial_phrases !! _); [|done].
        by injection Hn as <- <-. }
      do 11 walk.
      rewrite (next_tokens session_id k _ count (last_token_count s));
        [|done|done|cbn; by rewrite Htok|done].
      unfold mark_sent, with_recorded, with_ready, with_sent, enter, goto.
      simpl. rewrite !Htok, Hfresh. done.
    + exists 7. do 6 walk.
      erewrite fine_run_next;
        [ cbn [fst snd]
        | unfold next;
          cbn [enter goto turn pc timer_pc id with_handler exhausted handler];
          decide_tests; unfold raise; reflexivity
        | reflexivity ].
      done.
  - exists 1.
    assert (∀ r, leave_loop session_id (enter s) = r →
                 Fine.run session_id [Next] (enter s) = (r.1, r.2 ++ []))
      as Hleave.
    { intros r <-. cbn [Fine.run Fine.step]. unfold next.
      cbn [enter turn pc]. rewrite Hex, Hcond.
      by destruct (leave_loop _ _). }
    cbn [repeat]. rewrite (Hleave _ eq_refl).
    unfold leave_loop, raise, goto, fail. cbn [enter turn timer_pc fst].
    destruct (error s); [by rewrite app_nil_r|].
    destruct (finalize session_id s); by rewrite app_nil_r.
Qed.

(** The end of the thread of the timer, on both sides. *)
Ltac timer_leaf :=
  unfold trigger_interstitial, timer_ended, with_timer, with_ready, enter,
    with_handler;
  simpl; decide_tests; simpl; done.

(** The callback of the timer, as [Handler.timer_fires] has it, is a
    run of the steps of the timer thread with nothing in between. *)
Lemma timer_fires_uninterrupted (session_id : string) (s : Turn) :
  ∃ n, Fine.run session_id (repeat Tick n) (enter s)
       = (enter (with_handler (timer_fires (handler s)) s), []).
Proof.
  set (at_ p := {| turn := s; pc := AtWhile; timer_pc := p |}).
  unfold timer_fires.
  destruct (interstitial_timer (handler s)) eqn:Htimer; cbn [is_alive cancelled].
  - exists 0. by destruct s.
  - assert (tick (enter s) = at_ TimerTestSent) as E1.
    { unfold tick. cbn [enter turn timer_pc]. by rewrite Htimer. }
    destruct (interstitial_sent (handler s)) eqn:Hs.
    { exists 2. cbn [repeat Fine.run Fine.step]. rewrite E1.
      unfold tick. cbn [at_ turn timer_pc]. timer_leaf. }
    assert (tick (at_ TimerTestSent) = at_ TimerTestReady) as E2.
    { unfold tick. cbn [at_ turn timer_pc]. by rewrite Hs. }
    destruct (interstitial_ready (handler s)) eqn:Hr.
    { exists 3. cbn [repeat Fine.run Fine.step]. rewrite E1, E2.
      unfold tick. cbn [at_ turn timer_pc]. timer_leaf. }
    assert (tick (at_ TimerTestReady) = at_ TimerTestCallEnd) as E3.
    { unfold tick. cbn [at_ turn timer_pc]. by rewrite Hr. }
    destruct (call_end_detected (handler s)) eqn:Hc.
    { exists 4. cbn [repeat Fine.run Fine.step]. rewrite E1, E2, E3.
      unfold tick. cbn [at_ turn timer_pc]. timer_leaf. }
    assert (tick (at_ TimerTestCallEnd) = at_ TimerTestHandoff) as E4.
    { unfold tick. cbn [at_ turn timer_pc]. by rewrite Hc. }
    destruct (handoff_detected (handler s)) eqn:Hh.
    { exists 5. cbn [repeat Fine.run Fine.step]. rewrite E1, E2, E3, E4.
      unfold tick. cbn [at_ turn timer_pc]. timer_leaf. }
    assert (tick (at_ TimerTestHandoff) = at_ TimerSetReady) as E5.
    { unfold tick. cbn [at_ turn timer_pc]. by rewrite Hh. }
    exists 6. cbn [repeat Fine.run Fine.step]. rewrite E1, E2, E3, E4, E5.
    unfold tick. cbn [at_ turn timer_pc]. timer_leaf.
  - exists 1. cbn [repeat Fine.run Fine.step]. unfold tick.
    cbn [enter turn timer_pc]. rewrite Htimer. done.
  - exists 0. by destruct s.
Qed.

(** Every turn of [Coordinator], in which the iterations and the
    callbacks of the timer are single steps, is a turn taken statement by
    statement. *)
Lemma run_uninterrupted (session_id : string) (sched : list Action)
    (s : Turn) :
  ∃ moves, Fine.run session_id moves (enter s)
           = (enter (Coordinator.run session_id sched s).1,
              (Coordinator.run session_id sched s).2).
Proof.
  revert s. induction sched as [|a sched IH]; intros s.
  { by exists []. }
  assert (∃ moves1, Fine.run session_id moves1 (enter s)
                    = (enter (Coordinator.step session_id a s).1,
                       (Coordinator.step session_id a s).2))
    as [moves1 H1].
  { destruct a as [cb| |raised|].
    - exists [Callback cb]. cbn [Fine.run Fine.step].
      unfold goto, enter. cbn [turn pc timer_pc Coordinator.step].
      by destruct (thread_alive s).
    - destruct (timer_fires_uninterrupted session_id s) as [n Hn]. eauto.
    - exists [Exit raised]. cbn [Fine.run Fine.step].
      unfold goto, enter. cbn [turn pc timer_pc Coordinator.step].
      by destruct (thread_alive s).
    - destruct (poll_uninterrupted session_id s) as [n Hn]. eauto. }
  destruct (IH (Coordinator.step session_id a s).1) as [moves2 H2].
  exists (moves1 ++ moves2). rewrite fine_run_app, H1. cbn [fst snd].
  rewrite H2. cbn [Coordinator.run fst snd].
  destruct (Coordinator.step session_id a s) as [s1 out1]. cbn [fst snd].
  by destruct (Coordinator.run session_id sched s1).
Qed.

Lemma no_interstitial_after_request_witness :
  let st := (Fine.run "s" [ Callback (ToolStart "end_call"); Callback ToolEnd;
                            Callback (ToolStart "check_stock");
                            Tick; Next; Tick; Next ]
               (enter (start "s" (lit "bye") None ∅))).1 in
  let r := Fine.run "s" [ Tick; Next; Tick; Next; Next; Exit false;
                          Next; Next; Next ] st in
  requested (handler (turn r.1)) = true
  ∧ Forall (λ ev, is_interstitial ev = false) r.2
  ∧ interstitial_ready (handler (turn r.1)) = false.
Proof.
  intros st r.
  destruct (no_interstitial_after_request "s"
              [ Tick; Next; Tick; Next; Next; Exit false; Next; Next; Next ] st)
    as (Hreq & _ & Hsel & Hready).
  - vm_compute. reflexivity.
  - split; [exact Hreq|]. split.
    + apply Hsel. vm_compute. reflexivity.
    + apply Hready; vm_compute; reflexivity.
Defined.

End FineFacts.

(* ================================================================= *)
(** * More on the redactor *)

Section RedactorMore.

Import Text Redactor Spec Frame.

(** Case analysis on the comparisons of code points in the goal. *)
Ltac code_point_cases :=
  repeat match goal with
         | |- context [(?a <=? ?b)%N] => destruct (N.leb_spec a b); try lia
         | |- context [(?a =? ?b)%N] => destruct (N.eqb_spec a b); try lia
         end.

Lemma lower_char_cases (c : N) :
  (lower_char c = c
   ∨ lower_char c = (c + 32)%N
     ∧ ((65 ≤ c ∧ c ≤ 90) ∨ (192 ≤ c ∧ c ≤ 222 ∧ c ≠ 215)))%N.
Proof.
  unfold lower_char. code_point_cases; simpl;
    first [by left | right; split; [done | lia]].
Qed.

Lemma lower_char_idem (c : N) : lower_char (lower_char c) = lower_char c.
Proof.
  destruct (lower_char_cases c) as [H | [-> Hc]]; [by rewrite !H|].
  unfold lower_char. code_point_cases; simpl; lia.
Qed.

Lemma isspace_lower_char (c : N) : isspace (lower_char c) = isspace c.
Proof.
  destruct (lower_char_cases c) as [H | [-> Hc]]; [by rewrite !H|].
  unfold isspace. code_point_cases; simpl; lia.
Qed.

Lemma lower_idem (s : pystr) : Forall latin1 s → lower (lower s) = lower s.
Proof.
  intros H. rewrite (lower_latin1 (lower s)) by by apply Forall_latin1_lower.
  rewrite (lower_latin1 s H), map_map. apply map_ext. intros c.
  apply lower_char_idem.
Qed.

Lemma truthy_lower (s : pystr) : truthy (lower s) = truthy s.
Proof.
  destruct s as [|c s]; [done|]. rewrite lower_cons. unfold lower_full.
  by destruct (c =? 304)%N.
Qed.

Lemma lower_app (s t : pystr) : lower (s ++ t) = lower s ++ lower t.
Proof. unfold lower. apply flat_map_app. Qed.

Lemma startswith_self (s t : pystr) : startswith s (s ++ t) = true.
Proof. apply startswith_app. by exists t. Qed.

Lemma find_self (s t : pystr) : find s (s ++ t) = Some 0.
Proof.
  destruct s as [|c s]; [by destruct t|].
  cbn [find app]. change (c :: s ++ t) with ((c :: s) ++ t).
  by rewrite startswith_self.
Qed.

(** The leftmost occurrence is found wherever the text is cut after it. *)
Lemma find_in_prefix (sub s : pystr) (i : nat) :
  find sub s = Some i → find sub (take (i + length sub) s) = Some i.
Proof.
  intros Hi.
  destruct (find_Some _ _ _ Hi) as (pre & post & -> & Hlen & Hmin).
  assert (take (i + length sub) (pre ++ sub ++ post) = pre ++ sub) as ->.
  { rewrite app_assoc, take_app_length'; [done|]. rewrite length_app. lia. }
  destruct (find_is_Some sub (pre ++ sub) pre []) as [j Hj].
  { by rewrite app_nil_r. }
  rewrite Hj. f_equal.
  destruct (find_Some _ _ _ Hj) as (pre' & post' & Heq & Hlen' & Hmin').
  assert (j ≤ i).
  { rewrite <- Hlen. apply (Hmin' pre []). by rewrite app_nil_r. }
  assert (i ≤ j).
  { rewrite <- Hlen'. apply (Hmin pre' (post' ++ post)).
    rewrite (app_assoc pre), Heq, <- !app_assoc. done. }
  lia.
Qed.

Lemma split_from_lower (cur s : pystr) :
  Forall latin1 s →
  split_from (lower cur) (lower s) = map lower (split_from cur s).
Proof.
  intros Hs. revert cur.
  induction Hs as [|c s Hc Hs IH]; intros cur.
  - cbn [lower flat_map split_from]. rewrite truthy_lower.
    by destruct (truthy cur).
  - assert (lower (c :: s) = lower_char c :: lower s) as ->.
    { rewrite lower_cons. unfold lower_full, latin1 in *.
      by destruct (N.eqb_spec c 304) as [-> | _]; [lia|]. }
    assert (lower (cur ++ [c]) = lower cur ++ [lower_char c]) as Hcur.
    { rewrite lower_app. f_equal. unfold lower. cbn [flat_map].
      unfold lower_full, latin1 in *.
      by destruct (N.eqb_spec c 304) as [-> | _]; [lia|]. }
    cbn [split_from]. rewrite isspace_lower_char, truthy_lower.
    destruct (isspace c).
    + pose proof (IH []) as IH0. change (lower []) with (@nil N) in IH0.
      destruct (truthy cur); cbn [map]; by rewrite IH0.
    + by rewrite <- IH, Hcur.
Qed.

Lemma split_lower (s : pystr) :
  Forall latin1 s → split (lower s) = map lower (split s).
Proof. apply (split_from_lower [] s). Qed.

Lemma join_lower (sep : pystr) (ws : list pystr) :
  join (lower sep) (map lower ws) = lower (join sep ws).
Proof.
  induction ws as [|w ws IH]; [done|].
  destruct ws as [|w' ws]; [done|].
  cbn [join map] in *. by rewrite IH, !lower_app.
Qed.

Lemma joined_length_cons (w : pystr) (ws : list pystr) :
  joined_length (w :: ws)
  = length w + match ws with [] => 0 | _ => 1 + joined_length ws end.
Proof.
  unfold joined_length. destruct ws as [|w' ws]; simpl; [lia|].
  rewrite !length_app. simpl. lia.
Qed.

Lemma joined_length_split_from (cur s : pystr) :
  joined_length (split_from cur s) ≤ length cur + length s.
Proof.
  revert cur. induction s as [|c s IH]; intros cur; simpl.
  - destruct cur; simpl; [unfold joined_length; simpl; lia|].
    rewrite joined_length_cons. simpl. lia.
  - destruct (isspace c).
    + destruct cur as [|d cur]; simpl.
      * specialize (IH []). simpl in IH. lia.
      * rewrite joined_length_cons. specialize (IH []). simpl in *.
        destruct (split_from [] s); lia.
    + specialize (IH (cur ++ [c])). rewrite length_app in IH. simpl in IH. lia.
Qed.

Lemma joined_length_take (p : nat) (ws : list pystr) :
  joined_length (take p ws) ≤ joined_length ws.
Proof.
  revert p. induction ws as [|w ws IH]; intros p; [by destruct p|].
  destruct p as [|p]; [unfold joined_length; simpl; lia|].
  cbn [take]. rewrite !joined_length_cons. specialize (IH p).
  destruct ws as [|w' ws]; [destruct p; simpl; lia|].
  destruct (take p (w' :: ws)) eqn:E; lia.
Qed.

(** X1.  The spoken portion is never longer than the reply it is taken
    from. *)
Theorem spoken_portion_no_longer (T U : pystr) :
  length (find_spoken_portion T U) ≤ length T.
Proof.
  unfold find_spoken_portion.
  destruct (negb (truthy U) || negb (truthy T)); [simpl; lia|].
  destruct (find (lower U) (lower T)) as [i|].
  - rewrite length_take. lia.
  - destruct (split (lower U)); [simpl; lia|].
    destruct (split (lower T)) eqn:E; [simpl; lia|]. rewrite <- E.
    destruct (0 <? best_match_pos _ _); [|simpl; lia].
    fold (joined_length (take (best_match_pos (p :: l) (split (lower T)))
                              (split T))).
    etrans; [apply joined_length_take|].
    pose proof (joined_length_split_from [] T). simpl in *. done.
Qed.

(** X2.  On texts of code points below 256 the redactor does not see
    the casing: lowering the utterance changes nothing, and lowering the
    reply lowers the result. *)
Theorem spoken_portion_case_insensitive (T U : pystr) :
  Forall latin1 T → Forall latin1 U →
  find_spoken_portion T (lower U) = find_spoken_portion T U
  ∧ find_spoken_portion (lower T) U = lower (find_spoken_portion T U).
Proof.
  intros HT HU. split.
  - unfold find_spoken_portion. by rewrite truthy_lower, lower_idem.
  - unfold find_spoken_portion. rewrite truthy_lower, lower_idem by done.
    destruct (negb (truthy U) || negb (truthy T)); [done|].
    destruct (find (lower U) (lower T)) as [i|].
    + by rewrite lower_take.
    + rewrite (split_lower T HT).
      destruct (split (lower U)) as [|u uw]; [done|].
      destruct (map lower (split T)) as [|f fw] eqn:E; [done|]. rewrite <- E.
      destruct (0 <? best_match_pos _ _); [|done].
      change (lit " ") with (lower (lit " ")) at 1.
      by rewrite <- fmap_take, join_lower.
Qed.

Lemma spoken_portion_case_insensitive_witness :
  find_spoken_portion (lit "Our store opens at nine.") (lower (lit "STORE opens"))
  = find_spoken_portion (lit "Our store opens at nine.") (lit "STORE opens")
  ∧ find_spoken_portion (lower (lit "Our store opens at nine.")) (lit "STORE opens")
    = lower (find_spoken_portion (lit "Our store opens at nine.")
                                 (lit "STORE opens")).
Proof.
  apply spoken_portion_case_insensitive; below_256.
Defined.

(** X3.  When the utterance occurs in the reply and the code points of
    the reply are below 256, redacting the result again with the same
    utterance gives the same result. *)
Theorem spoken_portion_idempotent (T U : pystr) :
  Forall latin1 T →
  is_Some (find (lower U) (lower T)) →
  find_spoken_portion (find_spoken_portion T U) U = find_spoken_portion T U.
Proof.
  intros HT [i Hi].
  destruct (negb (truthy U) || negb (truthy T)) eqn:Hg.
  { assert (find_spoken_portion T U = []) as ->.
    { unfold find_spoken_portion. by rewrite Hg. }
    unfold find_spoken_portion. by rewrite orb_true_r. }
  assert (find_spoken_portion T U = take (i + length (lower U)) T) as ->.
  { unfold find_spoken_portion. by rewrite Hg, Hi. }
  apply orb_false_iff in Hg as [HU _].
  apply negb_false_iff in HU.
  pose proof (find_in_prefix _ _ _ Hi) as Hpre.
  rewrite <- lower_take in Hpre by done.
  unfold find_spoken_portion. rewrite HU. cbn [negb orb].
  destruct (take (i + length (lower U)) T) as [|c S] eqn:ES; [done|].
  cbn [truthy negb]. rewrite Hpre, <- ES. apply take_idemp.
Qed.

Lemma spoken_portion_idempotent_witness :
  find_spoken_portion
    (find_spoken_portion (lit "Our store opens at nine.") (lit "store OPENS"))
    (lit "store OPENS")
  = find_spoken_portion (lit "Our store opens at nine.") (lit "store OPENS").
Proof.
  apply spoken_portion_idempotent; [below_256|].
  vm_compute. eauto.
Defined.

(** X4.  If the caller heard the whole reply (the utterance is the reply
    up to casing), the spoken portion is the reply as it is. *)
Theorem spoken_portion_whole_reply (T U : pystr) :
  U ≠ [] → lower U = lower T → find_spoken_portion T U = T.
Proof.
  intros HU Heq. unfold find_spoken_portion.
  assert (T ≠ []) as HT.
  { intros ->. by apply lower_nil_inv in Heq. }
  apply truthy_true in HU, HT. rewrite HU, HT. cbn [negb orb].
  rewrite Heq.
  rewrite <- (app_nil_r (lower T)) at 2. rewrite find_self.
  apply take_ge. simpl. apply length_lower_le.
Qed.

Lemma spoken_portion_whole_reply_witness :
  find_spoken_portion (lit "See you soon!") (lit "SEE YOU SOON!")
  = lit "See you soon!".
Proof.
  apply spoken_portion_whole_reply; [discriminate | vm_compute; reflexivity].
Defined.

(** *** The history store under redaction *)

Lemma redact_cases (session_id : string) (U : pystr)
    (histories : gmap string (list Entry)) :
  let r := redact_conversation_history session_id U histories in
  (r = (histories, failure "No conversation history found")
   ∧ default [] (histories !! session_id) = [])
  ∨ (∃ history, histories !! session_id = Some history ∧ history ≠ []
       ∧ scan history (length history) = None
       ∧ r = (histories, failure "No assistant message found to redact"))
  ∨ (∃ history i e, histories !! session_id = Some history
       ∧ scan history (length history) = Some (i, e)
       ∧ let spoken := find_spoken_portion (content e) U in
         r = (<[session_id := if truthy (strip spoken)
                              then <[i := set_content spoken e]> history
                              else delete i history]> histories,
              {| success := true; message := "Conversation history redacted";
                 spoken_text := Some spoken;
                 original_text := Some (content e);
                 redacted_text := Some (if truthy spoken
                                        then drop (length spoken) (content e)
                                        else content e) |})).
Proof.
  unfold redact_conversation_history.
  destruct (histories !! session_id) as [history|] eqn:Hh; [|by left].
  destruct history as [|e0 h0] eqn:E; [by left|]. rewrite <- E. right.
  destruct (scan history (length history)) as [[i e]|] eqn:Hs.
  - right. exists history, i, e. by rewrite E in *.
  - left. exists history. by rewrite E in *.
Qed.

Lemma filter_insert_same {A} (P : A → Prop) `{∀ x, Decision (P x)}
    (l : list A) (i : nat) (x y : A) :
  l !! i = Some x → ¬ P x → ¬ P y →
  filter P (<[i := y]> l) = filter P l.
Proof.
  intros Hl Hx Hy.
  rewrite insert_take_drop by (by eapply lookup_lt_Some).
  rewrite <- (take_drop_middle l i x Hl) at 3.
  by rewrite !filter_app, !filter_cons_False.
Qed.

Lemma filter_delete_same {A} (P : A → Prop) `{∀ x, Decision (P x)}
    (l : list A) (i : nat) (x : A) :
  l !! i = Some x → ¬ P x → filter P (delete i l) = filter P l.
Proof.
  intros Hl Hx. rewrite delete_take_drop.
  rewrite <- (take_drop_middle l i x Hl) at 3.
  by rewrite !filter_app, filter_cons_False.
Qed.

(** X5.  A successful redaction acts on the most recent entry that is an
    assistant reply and not an interstitial, and on that entry only: the
    entry at that index has its content replaced by the spoken portion of
    its text, or is deleted when the spoken portion is blank; the store
    returned differs in this only, so that the user entries and the
    interstitial entries of the history all stay, unchanged and in
    order. *)
Theorem redaction_targets_latest_reply (session_id : string) (U : pystr)
    (histories : gmap string (list Entry)) :
  let r := redact_conversation_history session_id U histories in
  success r.2 = true →
  ∃ history i e,
    let spoken := find_spoken_portion (content e) U in
    let history' := if truthy (strip spoken)
                    then <[i := set_content spoken e]> history
                    else delete i history in
    histories !! session_id = Some history
    ∧ history !! i = Some e ∧ redactable e = true
    ∧ (∀ j e', i < j → history !! j = Some e' → redactable e' = false)
    ∧ original_text r.2 = Some (content e)
    ∧ spoken_text r.2 = Some spoken
    ∧ r.1 = <[session_id := history']> histories
    ∧ filter (λ e, redactable e = false) history'
      = filter (λ e, redactable e = false) history.
Proof.
  intros r Hok.
  destruct (redact_cases session_id U histories)
    as [[Hr _]|[(h & _ & _ & _ & Hr)|(h & i & e & Hh & Hs & Hr)]];
    fold r in Hr; try (rewrite Hr in Hok; discriminate).
  apply scan_Some in Hs as (Hi & Hl & Hred & Hafter).
  exists h, i, e. rewrite Hr. cbv zeta. cbn [fst snd original_text spoken_text].
  split; [done|]. split; [done|]. split; [done|]. split.
  { intros j e' Hj Hje. eapply Hafter; [|done].
    split; [done|]. by eapply lookup_lt_Some. }
  split; [done|]. split; [done|]. split; [done|].
  destruct (truthy _).
  - eapply filter_insert_same; [done| |]; rewrite ?redactable_set_content;
      congruence.
  - eapply filter_delete_same; [done|]. congruence.
Qed.

Lemma redaction_targets_latest_reply_witness :
  let history :=
    [ Coordinator.user_entry (lit "any beans?");
      Coordinator.assistant_entry (lit "Yes, we have plenty of beans.");
      Coordinator.interstitial_entry (lit "One moment please...") ] in
  let r := redact_conversation_history "s" (lit "yes, we have")
             {[ "s"%string := history ]} in
  ∃ history0 i e,
    let spoken := find_spoken_portion (content e) (lit "yes, we have") in
    let history' := if truthy (strip spoken)
                    then <[i := set_content spoken e]> history0
                    else delete i history0 in
    ({[ "s"%string := history ]} : gmap string (list Entry)) !! "s"%string
    = Some history0
    ∧ history0 !! i = Some e ∧ redactable e = true
    ∧ (∀ j e', i < j → history0 !! j = Some e' → redactable e' = false)
    ∧ original_text r.2 = Some (content e)
    ∧ spoken_text r.2 = Some spoken
    ∧ r.1 = <["s"%string := history']> {[ "s"%string := history ]}
    ∧ filter (λ e, redactable e = false) history'
      = filter (λ e, redactable e = false) history0.
Proof.
  intros history r.
  apply (redaction_targets_latest_reply "s" (lit "yes, we have")
           {[ "s"%string := history ]}).
  vm_compute. reflexivity.
Defined.

(** X6.  Redaction succeeds exactly when the session has a history with
    an assistant reply that is not an interstitial.  Otherwise the store
    is returned as it was, with "No conversation history found" for a
    missing or empty history and "No assistant message found to redact"
    for a history of user and interstitial entries only. *)
Theorem redaction_success_iff (session_id : string) (U : pystr)
    (histories : gmap string (list Entry)) :
  let r := redact_conversation_history session_id U histories in
  let history := default [] (histories !! session_id) in
  (success r.2 = true ↔ 0 < real_assistant_entries history)
  ∧ (success r.2 = false →
     r.1 = histories
     ∧ message r.2 = match history with
                     | [] => "No conversation history found"%string
                     | _ => "No assistant message found to redact"%string
                     end).
Proof.
  intros r history.
  assert (∀ h, scan h (length h) = None → real_assistant_entries h = 0)
    as Hnone.
  { intros h Hs. unfold real_assistant_entries.
    destruct (filter _ h) as [|x l] eqn:Hf; [done|exfalso].
    assert (x ∈ filter (λ e, redactable e = true) h) as Hin
      by (rewrite Hf; apply list_elem_of_here).
    apply list_elem_of_filter in Hin as [Hx Hin].
    apply list_elem_of_lookup_1 in Hin as [j Hj].
    pose proof (proj1 (scan_None _ _) Hs j x (lookup_lt_Some _ _ _ Hj) Hj).
    congruence. }
  destruct (redact_cases session_id U histories)
    as [[Hr Hempty]|[(h & Hh & Hne & Hs & Hr)|(h & i & e & Hh & Hs & Hr)]];
    fold r in Hr; rewrite Hr; simpl.
  - fold history in Hempty. rewrite Hempty. split; [|done].
    split; [done|]. unfold real_assistant_entries. simpl. lia.
  - unfold history. rewrite Hh. simpl. rewrite (Hnone h Hs).
    split; [split; [done | lia]|]. intros _. by destruct h.
  - unfold history. rewrite Hh. simpl. split; [|done]. split; [|done].
    intros _. apply scan_Some in Hs as (_ & Hl & Hred & _).
    unfold real_assistant_entries.
    assert (e ∈ filter (λ e, redactable e = true) h) as Hin.
    { apply list_elem_of_filter. split; [done|].
      by eapply list_elem_of_lookup_2. }
    destruct (filter _ h); [by apply not_elem_of_nil in Hin | simpl; lia].
Qed.

Lemma redaction_success_iff_witness :
  let histories : gmap string (list Entry) :=
    {[ "s"%string := [ Coordinator.user_entry (lit "hi");
                       Coordinator.interstitial_entry
                         (lit "One moment please...") ] ]} in
  let r := redact_conversation_history "s" (lit "one moment") histories in
  r.1 = histories
  ∧ message r.2 = "No assistant message found to redact"%string.
Proof.
  intros histories r.
  destruct (redaction_success_iff "s" (lit "one moment") histories)
    as [_ Hfail].
  apply Hfail. vm_compute. reflexivity.
Defined.

(** X7.  Redaction acts on one session: the histories of all other
    sessions are as before, and no session is added to or removed from
    the store. *)
Theorem redaction_other_sessions (session_id other : string) (U : pystr)
    (histories : gmap string (list Entry)) :
  let r := redact_conversation_history session_id U histories in
  (other ≠ session_id → r.1 !! other = histories !! other)
  ∧ dom r.1 = dom histories.
Proof.
  intros r.
  destruct (redact_cases session_id U histories)
    as [[Hr _]|[(h & _ & _ & _ & Hr)|(h & i & e & Hh & Hs & Hr)]];
    fold r in Hr; rewrite Hr; simpl; try done.
  split.
  - intros Hne. by rewrite lookup_insert_ne.
  - rewrite dom_insert_L. apply subseteq_union_1_L, singleton_subseteq_l.
    apply elem_of_dom. eauto.
Qed.

Lemma redaction_other_sessions_witness :
  let histories : gmap string (list Entry) :=
    {[ "s"%string := [ Coordinator.assistant_entry (lit "Hello there") ];
       "t"%string := [ Coordinator.assistant_entry (lit "Good morning") ] ]} in
  (redact_conversation_history "s" (lit "hello") histories).1 !! "t"%string
  = histories !! "t"%string.
Proof.
  intros histories.
  apply (redaction_other_sessions "s" "t" (lit "hello") histories).
  discriminate.
Defined.

(** X8.  When the utterance occurs in the reply, the texts returned by a
    successful redaction split the reply: the original text is the
    spoken text followed by the redacted text. *)
Theorem redaction_result_splits (session_id : string) (U original : pystr)
    (histories : gmap string (list Entry)) :
  let r := redact_conversation_history session_id U histories in
  success r.2 = true →
  original_text r.2 = Some original →
  is_Some (find (lower U) (lower original)) →
  ∃ spoken redacted,
    spoken_text r.2 = Some spoken
    ∧ redacted_text r.2 = Some redacted
    ∧ spoken = find_spoken_portion original U
    ∧ original = spoken ++ redacted.
Proof.
  intros r Hok.
  destruct (redact_cases session_id U histories)
    as [[Hr _]|[(h & _ & _ & _ & Hr)|(h & i & e & Hh & Hs & Hr)]];
    fold r in Hr; try (rewrite Hr in Hok; discriminate).
  rewrite Hr. simpl. intros [= <-] [k Hk]. do 2 eexists.
  split; [done|]. split; [done|]. split; [done|].
  assert (∃ n, find_spoken_portion (content e) U
               = [] ∨ find_spoken_portion (content e) U
                      = take n (content e)) as [n [->| ->]].
  { exists (k + length (lower U)). unfold find_spoken_portion.
    destruct (negb (truthy U) || negb (truthy (content e))); [by left|].
    right. by rewrite Hk. }
  - done.
  - destruct (truthy (take n (content e))) eqn:E.
    + rewrite length_take.
      destruct (decide (n ≤ length (content e))).
      * rewrite Nat.min_l by done. by rewrite take_drop.
      * rewrite Nat.min_r by lia. rewrite take_ge, drop_all by lia.
        by rewrite app_nil_r.
    + apply truthy_false in E. by rewrite E.
Qed.

Lemma redaction_result_splits_witness :
  let r := redact_conversation_history "s" (lit "hello")
             {[ "s"%string :=
                  [ Coordinator.assistant_entry (lit "Hello there") ] ]} in
  ∃ spoken redacted,
    spoken_text r.2 = Some spoken
    ∧ redacted_text r.2 = Some redacted
    ∧ spoken = find_spoken_portion (lit "Hello there") (lit "hello")
    ∧ lit "Hello there" = spoken ++ redacted.
Proof.
  apply (redaction_result_splits "s" (lit "hello") (lit "Hello there")
           {[ "s"%string :=
                [ Coordinator.assistant_entry (lit "Hello there") ] ]});
    vm_compute; eauto.
Defined.

End RedactorMore.

(* ================================================================= *)
(** * More on the turn *)

Section TurnMore.

Import Handler Coordinator Spec Frame.

Lemma on_buffer (cb : Callback) (h : Handler.t) :
  buffer h = concat (tokens h) → buffer (on cb h) = concat (tokens (on cb h)).
Proof.
  intros Hb. destruct cb; simpl; try done.
  rewrite Hb, concat_app. simpl. by rewrite app_nil_r.
Qed.

Lemma timer_fires_same_reply (h : Handler.t) :
  buffer (timer_fires h) = buffer h
  ∧ clean_response (timer_fires h) = clean_response h
  ∧ final_event (timer_fires h) = final_event h.
Proof. unfold timer_fires. by destruct (interstitial_timer h). Qed.

Lemma get_next_interstitial_buffer (h h' : Handler.t) (phrase : pystr) :
  get_next_interstitial h = Some (phrase, h') → buffer h' = buffer h.
Proof.
  unfold get_next_interstitial.
  destruct (interstitial_phrases !! phrase_index h); [|done].
  simpl. by intros [= <- <-].
Qed.

Lemma selections_closing (evs : list Event) (e : Event) :
  is_interstitial e = false → selections (evs ++ [e]) = selections evs.
Proof.
  intros He. rewrite selections_app, (selections_none [e]).
  - by rewrite app_nil_r.
  - by constructor.
Qed.

Lemma texts_closing (evs : list Event) (e : Event) :
  is_interstitial e = false → texts (evs ++ [e]) = texts evs ++ [chunk e].
Proof.
  intros He. rewrite texts_app. f_equal.
  unfold texts. by rewrite filter_cons_True.
Qed.

Lemma selections_tokens (h : Handler.t) (toks : list pystr) :
  selections (map (token_event h) toks) = [].
Proof. apply selections_none, streamed_not_interstitial, token_events_streamed. Qed.

Section OneTurn.

Variable session_id : string.
Variable histories : gmap string (list Redactor.Entry).
Variable user_message : pystr.

Local Abbreviation inv := (turn_inv session_id histories user_message).

Lemma fail_turn_inv (s : Turn) (evs : list Event) :
  exhausted s = false → inv s evs → inv (fail s).1 (evs ++ (fail s).2).
Proof.
  unfold inv, turn_inv, fail. simpl. intros -> (Hb & Hsent & Hle & _ & Hh).
  split; [done|]. split; [by rewrite selections_closing|]. split; [done|].
  left. by rewrite last_snoc.
Qed.

Lemma poll_turn_inv (s : Turn) (evs : list Event) :
  inv s evs → inv (poll session_id s).1 (evs ++ (poll session_id s).2).
Proof.
  intros Hinv. unfold poll.
  destruct (exhausted s) eqn:Hex.
  { simpl. by rewrite app_nil_r. }
  pose proof (fail_turn_inv s evs Hex Hinv) as Hfail.
  unfold inv, turn_inv in Hinv. rewrite Hex in Hinv.
  destruct Hinv as (Hb & Hsent & Hle & Htexts & Hh).
  assert (texts evs ++ drop (last_token_count s) (tokens (handler s))
          = take (length (tokens (handler s))) (tokens (handler s))) as Hall.
  { by rewrite Htexts, take_drop, firstn_all. }
  destruct (thread_alive s || _) eqn:Hloop.
  - destruct (should_send_interstitial (handler s) && _).
    + destruct (get_next_interstitial (handler s)) as [[phrase h1]|] eqn:Hn;
        [|exact Hfail].
      pose proof (get_next_interstitial_buffer _ _ _ Hn) as Hb1.
      apply get_next_interstitial_Some in Hn as (_ & _ & Htok & _ & _ & Hs1).
      unfold inv, turn_inv. simpl.
      rewrite Hb1, Htok, Hs1, Hsent, selections_app, selections_interstitial,
        selections_tokens, texts_app, texts_interstitial, texts_tokens.
      done.
    + unfold inv, turn_inv. simpl.
      rewrite selections_app, selections_tokens, app_nil_r, texts_app,
        texts_tokens. done.
  - apply orb_false_iff in Hloop as [Hdead Hdrained].
    apply Nat.ltb_ge in Hdrained.
    destruct (error s); [exact Hfail|].
    unfold finalize. rewrite Hh, lookup_insert_eq. simpl.
    unfold inv, turn_inv. simpl.
    rewrite selections_closing, texts_closing, Htexts, take_ge by (done || lia).
    split; [done|]. split; [done|]. split; [done|]. right.
    split; [done|]. split; [done|]. split; [by rewrite last_snoc|].
    rewrite insert_insert_eq, Hsent, <- app_assoc. done.
Qed.

Lemma step_turn_inv (a : Action) (s : Turn) (evs : list Event) :
  inv s evs → inv (step session_id a s).1 (evs ++ (step session_id a s).2).
Proof.
  intros Hinv. destruct a as [cb| |raised|]; simpl.
  - destruct (thread_alive s) eqn:Halive; simpl; rewrite app_nil_r; [|done].
    revert Hinv. unfold inv, turn_inv. simpl.
    intros (Hb & Hsent & Hle & Hrest).
    split; [by apply on_buffer|]. rewrite on_sent_interstitials.
    split; [done|]. destruct (on_tokens cb (handler s)) as [more Hmore].
    rewrite Hmore, length_app. split; [lia|].
    destruct (exhausted s).
    + destruct Hrest as [Hfb|[Hdead _]]; [by left | congruence].
    + by rewrite take_app_le.
  - rewrite app_nil_r. revert Hinv. unfold inv, turn_inv. simpl.
    destruct (timer_fires_same_reply (handler s)) as (-> & -> & ->).
    by rewrite timer_fires_tokens, timer_fires_sent_interstitials.
  - destruct (thread_alive s) eqn:Halive; simpl; rewrite app_nil_r; [|done].
    revert Hinv. unfold inv, turn_inv. simpl.
    intros (Hb & Hsent & Hle & Hrest). repeat (split; [done|]).
    destruct (exhausted s); [|done].
    destruct Hrest as [Hfb|[Hdead _]]; [by left | congruence].
  - by apply poll_turn_inv.
Qed.

Lemma run_turn_inv (sched : list Action) (s : Turn) (evs : list Event) :
  inv s evs → inv (run session_id sched s).1 (evs ++ (run session_id sched s).2).
Proof.
  revert s evs. induction sched as [|a sched IH]; intros s evs Hinv; simpl.
  - by rewrite app_nil_r.
  - pose proof (step_turn_inv a s evs Hinv) as Hstep.
    destruct (step session_id a s) as [s1 out1]. simpl in Hstep.
    specialize (IH s1 _ Hstep).
    destruct (run session_id sched s1) as [s2 out2]. simpl in *.
    by rewrite app_assoc.
Qed.

Lemma generate_turn_inv (sched : list Action)
    (created : bool) (agent_session : option Handler.t) :
  let r := generate_agent_response_stream session_id user_message sched
             created agent_session histories in
  inv r.1 r.2.
Proof.
  unfold generate_agent_response_stream.
  destruct (agent_available created agent_session).
  - apply (run_turn_inv sched (start session_id user_message agent_session
                                 histories) []).
    unfold inv, turn_inv. simpl. repeat split; lia.
  - apply (run_turn_inv [Poll] (unstarted session_id user_message
                                  histories) []).
    unfold inv, turn_inv. simpl. repeat split; lia.
Qed.

End OneTurn.




(** X11.  What a turn leaves in the history store.  Until the generator
    returns, and when it returns with the apology, the session's history
    is the one before the turn followed by the user's message.  When it
    returns without the apology, the history is the one before the turn
    followed by the user's message, the cleaned reply, and one
    interstitial entry for each interstitial yielded, in that order.
    Other sessions are never touched. *)
Theorem history_after_turn (session_id : string) (user_message : pystr)
    (sched : list Action) (created : bool) (agent_session : option Handler.t)
    (histories : gmap string (list Redactor.Entry)) :
  let r := generate_agent_response_stream session_id user_message sched
             created agent_session histories in
  let before := default [] (histories !! session_id) in
  (exhausted r.1 = false ∨ last r.2 = Some fallback_event →
   conversation_histories r.1
   = <[session_id := before ++ [user_entry user_message]]> histories)
  ∧ (exhausted r.1 = true → last r.2 ≠ Some fallback_event →
     conversation_histories r.1
     = <[session_id :=
           before ++ user_entry user_message
             :: assistant_entry (clean_response (handler r.1))
             :: map interstitial_entry (selections r.2)]> histories).
Proof.
  intros r before.
  pose proof (generate_turn_inv session_id histories user_message sched
                created agent_session) as Hinv.
  fold r in Hinv. unfold turn_inv in Hinv. fold before in Hinv.
  destruct Hinv as (_ & _ & _ & Hinv).
  destruct (exhausted r.1).
  - split.
    + intros [?|Hfb]; [done|].
      destruct Hinv as [[_ Hh]|(_ & _ & Hlast & _)]; [done|].
      rewrite Hlast in Hfb. discriminate.
    + intros _ Hlast. by destruct Hinv as [[Hfb _]|(_ & _ & _ & Hh)].
  - split; [|done]. intros _. by destruct Hinv.
Qed.

Lemma history_after_turn_witness :
  let r := generate_agent_response_stream "s" (lit "any beans left?")
             Schedules.words_then_tool true None ∅ in
  conversation_histories r.1
  = <["s"%string :=
        default [] ((∅ : gmap string (list Redactor.Entry)) !! "s"%string)
          ++ user_entry (lit "any beans left?")
          :: assistant_entry (clean_response (handler r.1))
          :: map interstitial_entry (selections r.2)]> ∅.
Proof.
  intros r.
  destruct (history_after_turn "s" (lit "any beans left?")
              Schedules.words_then_tool true None ∅) as [_ Hdone].
  apply Hdone.
  - vm_compute. reflexivity.
  - vm_compute. discriminate.
Defined.

(** *** Turns without a slow tool *)




Lemma poll_exits (session_id : string) (s : Turn) :
  exhausted s = false → thread_alive s = false →
  (last_token_count s <? length (tokens (handler s))) = false →
  exhausted (poll session_id s).1 = true
  ∧ ∃ e, (poll session_id s).2 = [e] ∧ closing e.
Proof.
  intros Hex Hdead Hlast. unfold poll, fail. rewrite Hex, Hdead, Hlast. simpl.
  destruct (error s); simpl; [split; [done|]; by eexists|].
  destruct (finalize session_id s); simpl; split; try done; by eexists.
Qed.

Lemma poll_drains (session_id : string) (s : Turn) :
  exhausted s = false → thread_alive s = false →
  (last_token_count s <? length (tokens (handler s))) = true →
  let p := poll session_id s in
  (exhausted p.1 = true ∧ ∃ e, last p.2 = Some e ∧ closing e)
  ∨ (exhausted p.1 = false ∧ thread_alive p.1 = false
     ∧ (last_token_count p.1 <? length (tokens (handler p.1))) = false).
Proof.
  intros Hex Hdead Hlast. unfold poll, fail. rewrite Hex, Hdead, Hlast. simpl.
  destruct (should_send_interstitial (handler s) && _).
  - destruct (get_next_interstitial (handler s)) as [[phrase h1]|] eqn:Hn;
      simpl.
    + right. apply get_next_interstitial_Some in Hn as (_ & _ & Htok & _).
      rewrite Htok. by rewrite Nat.ltb_irrefl.
    + left. split; [done|]. by eexists.
  - simpl. right. by rewrite Nat.ltb_irrefl.
Qed.

(** X13.  Once the agent thread has finished, the generator needs at
    most two more evaluations of its loop condition to return: the first
    drains the tokens left, the second ends the stream with a final
    event that is not an interstitial. *)
Theorem drains_in_two_polls (session_id : string) (s : Turn) :
  thread_alive s = false →
  let r := run session_id [Poll; Poll] s in
  exhausted r.1 = true
  ∧ (exhausted s = false → ∃ e, last r.2 = Some e ∧ closing e).
Proof.
  intros Hdead. cbn [run step].
  assert (∀ s0, exhausted s0 = true → poll session_id s0 = (s0, [])) as Hnoop.
  { intros s0 Hx. unfold poll. by rewrite Hx. }
  destruct (exhausted s) eqn:Hex.
  { rewrite (Hnoop s Hex), (Hnoop s Hex). simpl. by rewrite Hex. }
  destruct (last_token_count s <? length (tokens (handler s))) eqn:Hlast.
  - destruct (poll_drains session_id s Hex Hdead Hlast)
      as [(Hx & e & He & Hc)|(Hx & Hd & Hl)].
    + destruct (poll session_id s) as [s1 out1]. simpl in *.
      rewrite (Hnoop s1 Hx). simpl. split; [done|]. intros _.
      exists e. by rewrite app_nil_r.
    + destruct (poll session_id s) as [s1 out1]. simpl in *.
      destruct (poll_exits session_id s1 Hx Hd Hl) as (Hx2 & e & He & Hc).
      destruct (poll session_id s1) as [s2 out2]. simpl in *. subst out2.
      split; [done|]. intros _. exists e.
      change ([e] ++ []) with [e]. by rewrite last_snoc.
  - destruct (poll_exits session_id s Hex Hdead Hlast) as (Hx & e & He & Hc).
    destruct (poll session_id s) as [s1 out1]. simpl in *. subst out1.
    rewrite (Hnoop s1 Hx). simpl. split; [done|]. intros _. by exists e.
Qed.

Lemma drains_in_two_polls_witness :
  let s := (run "s" [Agent LlmStart; Agent (NewToken (lit "Hello."));
                     Agent LlmEnd; ThreadExit false]
                (start "s" (lit "hi") None ∅)).1 in
  let r := run "s" [Poll; Poll] s in
  exhausted r.1 = true ∧ ∃ e, last r.2 = Some e ∧ closing e.
Proof.
  intros s r.
  destruct (drains_in_two_polls "s" s eq_refl) as [Hdone Hlast].
  split; [exact Hdone | exact (Hlast eq_refl)].
Defined.

(** *** The cursor stays in range *)

Lemma advance_in_range (k n : nat) :
  k < length interstitial_phrases → advance k n < length interstitial_phrases.
Proof.
  revert k. induction n as [|n IH]; intros k Hk; cbn [advance]; [done|].
  apply IH. apply Nat.mod_upper_bound. discriminate.
Qed.

(** X14.  In a session that starts with a new handler the rotation
    cursor is a valid index of the phrase list after every turn, so that
    selecting a phrase never fails. *)
Theorem cursor_in_range (session_id : string)
    (requests : list (pystr * list Action)) (created : bool)
    (histories : gmap string (list Redactor.Entry)) :
  Forall (λ r : Turn * list Event,
            phrase_index (handler r.1) < length interstitial_phrases
            ∧ is_Some (get_next_interstitial (handler r.1)))
         (session session_id requests created None histories).
Proof.
  assert (∀ agent_session,
            phrase_index (default Handler.init agent_session)
              < length interstitial_phrases →
            ∀ histories,
            Forall (λ r : Turn * list Event,
                      phrase_index (handler r.1) < length interstitial_phrases
                      ∧ is_Some (get_next_interstitial (handler r.1)))
                   (session session_id requests created agent_session histories))
    as Hgen.
  { induction requests as [|[user_message sched] requests IH];
      intros agent_session Hk hs; simpl; [done|].
    pose proof (run_rotation session_id sched
                  (start session_id user_message agent_session hs))
      as [_ Hidx].
    unfold generate_agent_response_stream, stored.
    destruct (agent_available created agent_session).
    - destruct (run session_id sched _) as [s evs]. simpl in Hidx.
      assert (phrase_index (handler s) < length interstitial_phrases) as Hs.
      { rewrite Hidx. by apply advance_in_range. }
      constructor; [|by apply (IH (Some (handler s)))].
      simpl. split; [done|]. unfold get_next_interstitial.
      destruct (lookup_lt_is_Some_2 interstitial_phrases
                  (phrase_index (handler s)) Hs) as [p ->].
      simpl. eauto.
    - constructor; [|apply (IH None); simpl; lia].
      simpl. split; [lia | eauto]. }
  apply (Hgen None). simpl. lia.
Qed.

End TurnMore.

(* ================================================================= *)
(** * The call-ending tools and their markers *)

Section ToolFacts.

Import Handler Coordinator Relay Spec Frame.

Lemma contains_self (marker rest : pystr) :
  Text.contains marker (marker ++ rest) = true.
Proof. unfold Text.contains. by rewrite find_self. Qed.

Lemma after_first_self (marker rest : pystr) :
  Text.after_first marker (marker ++ rest) = Some rest.
Proof.
  unfold Text.after_first. rewrite find_self. simpl.
  by rewrite drop_app_length.
Qed.

Lemma end_call_message_stripped (reason : pystr) :
  Text.strip (Tools.end_call_message reason) = Tools.end_call_message reason.
Proof.
  unfold Tools.end_call_message.
  destruct (_ || _); [by vm_compute|].
  destruct (_ || _); by vm_compute.
Qed.

(** X15.  The tool [end_call] and the history agree on the marker: when
    the reply of a turn is what [end_call] returned and the call-end
    flag is set, the reply stored in the history is the goodbye message
    without the marker. *)
Theorem end_call_reply_cleaned (reason : pystr) (h : Handler.t) :
  call_end_detected h = true →
  concat (tokens h) = Tools.end_call reason →
  clean_response h = Tools.end_call_message reason
  ∧ Text.contains (lit "CALL_END:") (clean_response h) = false.
Proof.
  intros Hflag Hreply.
  assert (clean_response h = Tools.end_call_message reason) as Hclean.
  { unfold clean_response. rewrite Hflag, Hreply. unfold Tools.end_call.
    rewrite contains_self, after_first_self. simpl.
    apply end_call_message_stripped. }
  split; [done|]. rewrite Hclean. unfold Tools.end_call_message.
  destruct (_ || _); [by vm_compute|].
  destruct (_ || _); by vm_compute.
Qed.

Lemma end_call_reply_cleaned_witness :
  let h := on_llm_new_token (Tools.end_call (lit "Customer said goodbye"))
             (on_tool_start "end_call" Handler.init) in
  clean_response h
  = lit "Thank you for calling CoffeeMarket! Have a great day and enjoy your coffee!".
Proof.
  intros h.
  destruct (end_call_reply_cleaned (lit "Customer said goodbye") h
              eq_refl eq_refl) as [Hclean _].
  rewrite Hclean. vm_compute. reflexivity.
Defined.

(** X16.  The tool [escalate_to_human_agent] and the relay agree on the
    marker: when the text relayed in a turn is what the tool returned,
    the hand-off is decided, with or without the flag, and the response
    is the transfer message without the marker; with the flag set, the
    reply stored in the history is that message too. *)
Theorem escalation_reply_cleaned (reason : pystr) :
  (∀ st, concat (full_response_parts st) = Tools.escalate_to_human_agent reason →
         handoff (decide_outcome st) = true
         ∧ full_response (decide_outcome st) = Tools.handoff_message)
  ∧ (∀ h, call_end_detected h = false → handoff_detected h = true →
          concat (tokens h) = Tools.escalate_to_human_agent reason →
          clean_response h = Tools.handoff_message).
Proof.
  assert (Text.strip Tools.handoff_message = Tools.handoff_message) as Hs
    by (by vm_compute).
  split.
  - intros st Hreply. unfold decide_outcome. rewrite Hreply.
    unfold Tools.escalate_to_human_agent.
    rewrite contains_self, after_first_self. simpl. rewrite Hs.
    by destruct (should_handoff st).
  - intros h Hend Hflag Hreply. unfold clean_response.
    rewrite Hend, Hflag, Hreply. unfold Tools.escalate_to_human_agent.
    rewrite contains_self, after_first_self. simpl. exact Hs.
Qed.

Lemma escalation_reply_cleaned_witness :
  let st := (consume_all
               [ token_event Handler.init
                   (Tools.escalate_to_human_agent (lit "wants a person")) ]
               Relay.init).1 in
  handoff (decide_outcome st) = true
  ∧ full_response (decide_outcome st) = Tools.handoff_message.
Proof.
  intros st.
  destruct (escalation_reply_cleaned (lit "wants a person")) as [Hrelay _].
  apply Hrelay. vm_compute. reflexivity.
Defined.

End ToolFacts.

(* ================================================================= *)
(** * More on the relay *)

Section RelayMore.

Import Handler Coordinator Relay Spec Frame.

Lemma strip_nil_truthy (s : pystr) : truthy (Text.strip s) = true → s ≠ [].
Proof. by intros H ->. Qed.

Lemma send_chunk_nonempty (buf : pystr) : buf ≠ [] → send_chunk buf ≠ [].
Proof.
  unfold send_chunk. destruct (200 <? length buf); [|done].
  intros _ H. apply (f_equal length) in H. rewrite length_app in H.
  change (length (lit "...")) with 3 in H. simpl in H. lia.
Qed.

Lemma phrases_nonempty (phrase : pystr) :
  phrase ∈ interstitial_phrases → phrase ≠ [].
Proof.
  unfold interstitial_phrases. rewrite !elem_of_cons, elem_of_nil.
  intros [->|[->|[->|[->|[->|[->|[]]]]]]]; discriminate.
Qed.

Lemma generated_interstitials_nonempty (session_id : string)
    (user_message : pystr) (sched : list Action)
    (created : bool) (agent_session : option Handler.t)
    (histories : gmap string (list Redactor.Entry)) :
  Forall (λ ev, is_interstitial ev = true → chunk ev ≠ [])
    (generate_agent_response_stream session_id user_message sched
       created agent_session histories).2.
Proof.
  unfold generate_agent_response_stream.
  destruct (agent_available created agent_session);
    [|by constructor; [|constructor]].
  pose proof (run_rotation session_id sched
                (start session_id user_message agent_session histories))
    as [Hrot _].
  apply rotation_phrases in Hrot. rewrite Forall_forall in Hrot.
  apply Forall_forall. intros ev Hin Hev.
  apply phrases_nonempty, Hrot. by apply selections_elem.
Qed.

Lemma consume_all_carry (evs : list Event) (st : Loop) :
  Forall (λ ev, is_interstitial ev = true → chunk ev ≠ []) evs →
  Forall carries_text (consume_all evs st).2
  ∧ fillers (consume_all evs st).2 = selections evs.
Proof.
  intros Hall. revert st.
  induction Hall as [|ev evs Hev _ IH]; intros st; simpl; [done|].
  assert (Forall carries_text (consume ev st).2
          ∧ fillers (consume ev st).2 = selections [ev]) as [Hc Hf].
  { unfold consume, selections. destruct (is_interstitial ev) eqn:Hi; simpl.
    - rewrite filter_cons_True by done. simpl.
      specialize (Hev eq_refl). split.
      + constructor; [|done]. by exists (chunk ev), true.
      + unfold fillers. simpl. by destruct (chunk ev).
    - rewrite filter_cons_False by congruence. simpl.
      destruct (_ && truthy (Text.strip _)) eqn:Hs; simpl; [|done].
      split; [|done]. constructor; [|done].
      eexists _, false. split; [done|].
      apply andb_true_iff in Hs as [_ Hs].
      by apply send_chunk_nonempty, strip_nil_truthy. }
  destruct (consume ev st) as [st1 out1]. destruct (IH st1) as [Hc2 Hf2].
  destruct (consume_all evs st1) as [st2 out2]. simpl in *.
  split; [by apply Forall_app|].
  unfold fillers in *. rewrite omap_app, Hf, Hf2.
  change (ev :: evs) with ([ev] ++ evs). by rewrite selections_app.
Qed.

(** X17.  What a turn sends to the websocket.  While the generator runs,
    every message is a text message that carries text.  When it has
    returned, these are followed by exactly one empty text message
    marked last and then by at most one signal: the hand-off if it was
    decided, else the hang-up if the call end was decided.  The empty
    completion marker is the only text message without text. *)
Theorem relay_message_shape (session_id : string) (text : pystr)
    (sched : list Action) (created : bool) (agent_session : option Handler.t)
    (histories : gmap string (list Redactor.Entry)) :
  let g := generate_agent_response_stream session_id text sched
             created agent_session histories in
  let r := llm_call_response_streaming session_id text sched
             created agent_session histories in
  ∃ loop,
    Forall carries_text loop
    ∧ match r.2 with
      | None => exhausted g.1 = false ∧ r.1 = loop
      | Some o =>
          exhausted g.1 = true
          ∧ r.1 = loop ++ TextMsg [] true
                    :: (if handoff o then [HandoffMsg]
                        else if end_call o then [EndMsg] else [])
      end.
Proof.
  intros g r.
  pose proof (generated_interstitials_nonempty session_id text sched
                created agent_session histories) as Hne. fold g in Hne.
  destruct (consume_all_carry g.2 init Hne) as [Hcarry _].
  assert (exhausted g.1 = true →
          truthy (Text.strip (token_buffer (consume_all g.2 init).1)) = false)
    as Hblank.
  { intros Hex.
    destruct (exhausted_stream_closed session_id text sched
                created agent_session histories Hex) as (pre & e & Heq & _ & Hclosing).
    fold g in Heq. rewrite Heq, consume_all_app. simpl.
    pose proof (consume_closing e (consume_all pre init).1 Hclosing) as Hc.
    destruct (consume e (consume_all pre init).1) as [st1 out1]. done. }
  unfold r, llm_call_response_streaming. fold g.
  destruct g as [s evs]. simpl in *.
  destruct (consume_all evs init) as [st sent]. simpl in *.
  exists sent. split; [done|].
  destruct (exhausted s); [|done]. simpl. split; [done|].
  unfold finish. by rewrite (Hblank eq_refl).
Qed.

(** X18.  The interstitials yielded in a turn are relayed as they are:
    the non-empty text messages marked last are the interstitial phrases
    of the turn, in order. *)
Theorem fillers_relayed (session_id : string) (text : pystr)
    (sched : list Action) (created : bool) (agent_session : option Handler.t)
    (histories : gmap string (list Redactor.Entry)) :
  let g := generate_agent_response_stream session_id text sched
             created agent_session histories in
  let r := llm_call_response_streaming session_id text sched
             created agent_session histories in
  fillers r.1 = selections g.2.
Proof.
  intros g r.
  pose proof (generated_interstitials_nonempty session_id text sched
                created agent_session histories) as Hne. fold g in Hne.
  destruct (consume_all_carry g.2 init Hne) as [_ Hfill].
  unfold r, llm_call_response_streaming. fold g.
  destruct g as [s evs]. simpl in *.
  destruct (consume_all evs init) as [st sent]. simpl in *.
  destruct (exhausted s); [|done]. simpl.
  unfold fillers in *. rewrite omap_app, Hfill. unfold finish.
  destruct (truthy (Text.strip (token_buffer st))); simpl;
    destruct (handoff (decide_outcome st)), (end_call (decide_outcome st));
    simpl; by rewrite app_nil_r.
Qed.

(** *** Chunking keeps the text *)

Lemma payload_app (l1 l2 : list Message) :
  payload (l1 ++ l2) = payload l1 ++ payload l2.
Proof.
  induction l1 as [|m l1 IH]; [done|].
  destruct m as [token [|]| |]; simpl; try done.
  by rewrite IH, app_assoc.
Qed.

Lemma consume_all_payload (evs : list Event) (st : Loop) (acc : pystr) :
  acc ++ token_buffer st = concat (full_response_parts st) →
  length (concat (full_response_parts st ++ texts evs)) ≤ 200 →
  let r := consume_all evs st in
  acc ++ payload r.2 ++ token_buffer r.1
  = concat (full_response_parts st ++ texts evs).
Proof.
  revert st acc. induction evs as [|ev evs IH]; intros st acc Hacc Hlen; simpl.
  - by rewrite app_nil_r.
  - assert (∃ acc1, acc1 = acc ++ payload (consume ev st).2
              ∧ acc1 ++ token_buffer (consume ev st).1
                = concat (full_response_parts (consume ev st).1)
              ∧ full_response_parts (consume ev st).1 ++ texts evs
                = full_response_parts st ++ texts (ev :: evs))
      as (acc1 & Hacc1 & Hinv & Hparts).
    { unfold consume, texts in *.
      destruct (is_interstitial ev) eqn:Hi; simpl.
      - rewrite filter_cons_False by congruence.
        exists acc. by rewrite app_nil_r.
      - rewrite filter_cons_True in * by done. simpl in *.
        rewrite <- app_assoc. simpl.
        assert (concat (full_response_parts st ++ [chunk ev])
                = acc ++ token_buffer st ++ chunk ev) as Hc.
        { rewrite concat_app, <- Hacc. simpl.
          by rewrite app_nil_r, app_assoc. }
        assert (length (token_buffer st ++ chunk ev) ≤ 200) as Hshort.
        { rewrite !concat_app, !length_app in Hlen. simpl in Hlen.
          rewrite length_app in Hlen. rewrite <- Hacc, length_app in Hlen.
          rewrite length_app. lia. }
        destruct (_ && truthy (Text.strip _)); simpl.
        + rewrite (proj2 (proj2 (send_chunk_bounded _)) Hshort).
          eexists. split; [done|]. rewrite !app_nil_r.
          by rewrite Hc.
        + exists acc. rewrite app_nil_r. by rewrite Hc. }
    destruct (consume ev st) as [st1 out1]. simpl in *.
    specialize (IH st1 acc1 Hinv). rewrite Hparts in IH.
    specialize (IH Hlen).
    destruct (consume_all evs st1) as [st2 out2]. simpl in *.
    rewrite payload_app, <- IH, Hacc1, <- !app_assoc. done.
Qed.

(** X19.  Chunking keeps a short reply whole.  When the generator has
    returned without the apology and the reply has at most 200
    characters, the chunks sent (the text messages not marked last),
    put end to end, are the reply, up to white space at its very end. *)
Theorem short_reply_relayed_whole (session_id : string) (text : pystr)
    (sched : list Action) (created : bool) (agent_session : option Handler.t)
    (histories : gmap string (list Redactor.Entry)) :
  let g := generate_agent_response_stream session_id text sched
             created agent_session histories in
  let r := llm_call_response_streaming session_id text sched
             created agent_session histories in
  exhausted g.1 = true →
  last g.2 ≠ Some fallback_event →
  length (concat (tokens (handler g.1))) ≤ 200 →
  ∃ blank,
    payload r.1 ++ blank = concat (tokens (handler g.1))
    ∧ truthy (Text.strip blank) = false.
Proof.
  intros g r Hex Hlast Hshort.
  pose proof (generate_turn_inv session_id histories text sched
      created agent_session)
    as Hinv.
  fold g in Hinv. unfold turn_inv in Hinv. rewrite Hex in Hinv.
  destruct Hinv as (_ & _ & _ & [[Hfb _]|(_ & Htexts & _)]); [done|].
  assert (concat (texts g.2) = concat (tokens (handler g.1))) as Hconcat.
  { rewrite Htexts, concat_app. simpl. by rewrite app_nil_r. }
  assert (truthy (Text.strip (token_buffer (consume_all g.2 init).1)) = false)
    as Hblank.
  { destruct (exhausted_stream_closed session_id text sched
                created agent_session histories Hex) as (pre & e & Heq & _ & Hclosing).
    fold g in Heq. rewrite Heq, consume_all_app. simpl.
    pose proof (consume_closing e (consume_all pre init).1 Hclosing) as Hc.
    destruct (consume e (consume_all pre init).1) as [st1 out1]. done. }
  pose proof (consume_all_payload g.2 init [] eq_refl) as Hpay.
  simpl in Hpay. rewrite Hconcat in Hpay. specialize (Hpay Hshort).
  unfold r, llm_call_response_streaming. fold g.
  destruct g as [s evs]. simpl in *.
  destruct (consume_all evs init) as [st sent]. simpl in *.
  rewrite Hex. simpl. exists (token_buffer st). split; [|done].
  unfold finish. rewrite Hblank, payload_app. simpl.
  destruct (handoff (decide_outcome st)), (end_call (decide_outcome st));
    simpl; by rewrite app_nil_r.
Qed.

Lemma short_reply_relayed_whole_witness :
  let g := generate_agent_response_stream "s" (lit "any beans left?")
             Schedules.words_then_tool true None ∅ in
  let r := llm_call_response_streaming "s" (lit "any beans left?")
             Schedules.words_then_tool true None ∅ in
  ∃ blank,
    payload r.1 ++ blank = concat (tokens (handler g.1))
    ∧ truthy (Text.strip blank) = false.
Proof.
  apply (short_reply_relayed_whole "s" (lit "any beans left?")
           Schedules.words_then_tool true None ∅).
  - vm_compute. reflexivity.
  - vm_compute. discriminate.
  - vm_compute. lia.
Defined.

(** X26.  A session for which no agent can be made: whatever the
    requests, every turn yields the apology and nothing else, adds the
    user's message to the history and nothing else, and leaves
    [AGENT_SESSIONS] without an entry, so that the next turn tries to
    make the agent again; what is sent is the apology and the empty
    message that ends the reply, and neither a hang-up nor a hand-off. *)
Theorem agent_creation_failure (session_id : string) (text : pystr)
    (sched : list Action) (requests : list (pystr * list Action))
    (histories : gmap string (list Redactor.Entry)) :
  let g := generate_agent_response_stream session_id text sched false None
             histories in
  let r := llm_call_response_streaming session_id text sched false None
             histories in
  g.2 = [fallback_event]
  ∧ conversation_histories g.1
    = <[session_id := default [] (histories !! session_id)
                        ++ [user_entry text]]> histories
  ∧ stored false None g.1 = None
  ∧ r.1 = [TextMsg apology false; TextMsg [] true]
  ∧ r.2 = Some {| end_call := false; handoff := false;
                  full_response := apology |}
  ∧ Forall (λ t : Turn * list Event, t.2 = [fallback_event])
      (session session_id requests false None histories).
Proof.
  intros g r. split; [done|]. split; [done|]. split; [done|].
  split; [by vm_compute|]. split; [by vm_compute|].
  revert histories g r.
  induction requests as [|[user_message schedule] requests IH];
    intros histories _ _; [done|].
  cbn [session]. constructor; [done|]. apply IH.
Qed.

End RelayMore.

(* ================================================================= *)
(** * The receive loop and the session tables *)

Section ConversationFacts.

Import Redactor Handler Coordinator Relay Spec Frame Conversation.

Lemma given_Some (id : string) : given (Some id) = true ↔ id ≠ ""%string.
Proof. unfold given. apply bool_decide_eq_true. Qed.

(** X20.  Cleaning a session up removes it from the session table, the
    connection table and the logger table, and removes nothing else from
    them; it removes at most one call mapping; and it keeps the
    conversation histories and the agent sessions as they are. *)
Theorem cleanup_removes_session (sid : string) (call_sid : option string)
    (w : World) :
  sid ≠ ""%string →
  let w' := cleanup_session_data (Some sid) call_sid w in
  session_state w' = delete sid (session_state w)
  ∧ connections w' = delete sid (connections w)
  ∧ session_conversation_loggers w'
    = delete sid (session_conversation_loggers w)
  ∧ (∀ k v, call_sid_to_session_id w' !! k = Some v →
            call_sid_to_session_id w !! k = Some v)
  ∧ (∀ k, k ≠ call_sid →
          (∀ info, session_state w !! sid = Some info →
                   k ≠ Conversation.call_sid info) →
          call_sid_to_session_id w' !! k = call_sid_to_session_id w !! k)
  ∧ conversation_histories w' = conversation_histories w
  ∧ agent_sessions w' = agent_sessions w.
Proof.
  intros Hsid. unfold cleanup_session_data.
  rewrite (proj2 (given_Some sid) Hsid). simpl.
  repeat (split; [done|]). split; [|split; [|done]].
  - intros k v. destruct (given _); [|done].
    intros Hk. apply lookup_delete_Some in Hk. tauto.
  - intros k Hk Hinfo. destruct (given _) eqn:Hg; [|done].
    apply lookup_delete_ne.
    destruct (session_state w !! sid) as [info|]; [|congruence].
    destruct (given call_sid); [congruence|].
    intros Heq. by apply (Hinfo info).
Qed.

Lemma cleanup_removes_session_witness :
  let w := {| session_state :=
                {[ "a"%string := {| call_sid := Some "CA1"%string;
                                    call_state := "on_call" |} ]};
              connections := {[ "a"%string := 7 ]};
              session_conversation_loggers := {[ "a"%string := () ]};
              conversation_histories :=
                {[ "a"%string := [ user_entry (lit "hi") ] ]};
              call_sid_to_session_id := {[ Some "CA1"%string := "a"%string ]};
              agent_sessions := {[ "a"%string := Handler.init ]} |} in
  let w' := cleanup_session_data (Some "a"%string) None w in
  session_state w' = delete "a"%string (session_state w)
  ∧ conversation_histories w' = conversation_histories w
  ∧ agent_sessions w' = agent_sessions w.
Proof.
  intros w w'.
  destruct (cleanup_removes_session "a" None w ltac:(discriminate))
    as (Hs & _ & _ & _ & _ & Hh & Ha).
  by repeat split.
Defined.

(** X21.  Cleaning up twice is cleaning up once. *)
Theorem cleanup_idempotent (session_id call_sid : option string) (w : World) :
  cleanup_session_data session_id call_sid
    (cleanup_session_data session_id call_sid w)
  = cleanup_session_data session_id call_sid w.
Proof.
  unfold cleanup_session_data. destruct session_id as [sid|]; [|done].
  destruct (given (Some sid)); [|done]. simpl.
  rewrite lookup_delete_eq, !delete_delete_eq.
  f_equal.
  destruct (session_state w !! sid) as [info|];
    destruct (given call_sid) eqn:Hg; rewrite ?Hg, ?delete_delete_eq; done.
Qed.

(** X22.  A set-up followed by the end of the connection leaves the
    tables as they were, when the session and the call were not known
    before: what the set-up registers, the clean-up removes. *)
Theorem setup_then_disconnect (ws : nat) (sid cs : string)
    (sched : list Action) (created : bool) (c : Conn) :
  sid ≠ ""%string → cs ≠ ""%string →
  session_state (world c) !! sid = None →
  connections (world c) !! sid = None →
  session_conversation_loggers (world c) !! sid = None →
  call_sid_to_session_id (world c) !! Some cs = None →
  let r := receive ws (Setup (Some sid) (Some cs)) sched created c in
  r.2 = [] ∧ Conversation.session_id r.1 = Some sid
  ∧ disconnect r.1 = world c.
Proof.
  intros Hsid Hcs Hs Hc Hl Hm.
  assert (bool_decide (sid ≠ ""%string) = true) as Hgs
    by by apply bool_decide_eq_true.
  assert (bool_decide (cs ≠ ""%string) = true) as Hgc
    by by apply bool_decide_eq_true.
  unfold receive, disconnect, cleanup_session_data, given.
  rewrite Hgs. cbn [negb fst snd Conversation.session_id world].
  split; [done|]. split; [done|].
  rewrite Hgs. cbn [negb session_state connections
    session_conversation_loggers conversation_histories
    call_sid_to_session_id agent_sessions].
  rewrite lookup_insert_eq. cbn [Conversation.call_sid]. rewrite Hgc.
  rewrite !delete_insert_id by done. by destruct c as [? []].
Qed.

Lemma setup_then_disconnect_witness :
  let c := {| Conversation.session_id := None;
              world := {| session_state := ∅; connections := ∅;
                          session_conversation_loggers := ∅;
                          conversation_histories := ∅;
                          call_sid_to_session_id := ∅;
                          agent_sessions := ∅ |} |} in
  let r := receive 1 (Setup (Some "a"%string) (Some "CA1"%string)) [] true c in
  r.2 = [] ∧ Conversation.session_id r.1 = Some "a"%string
  ∧ disconnect r.1 = world c.
Proof.
  intros c.
  apply (setup_then_disconnect 1 "a" "CA1" [] true c);
    first [discriminate | apply lookup_empty].
Defined.



Lemma receive_prompt (ws : nat) (vp lang : pystr) (sched : list Action)
    (created : bool) (c : Conn) (sid : string) :
  Conversation.session_id c = Some sid → sid ≠ ""%string →
  Text.contains (lit "en") lang = true →
  truthy (Text.strip vp) = true →
  is_Some (session_conversation_loggers (world c) !! sid) →
  receive ws (Prompt vp lang) sched created c
  = ({| Conversation.session_id := Some sid;
        world := (respond sid (Text.strip vp) sched created (world c)).1 |},
     (respond sid (Text.strip vp) sched created (world c)).2).
Proof.
  intros Hc Hsid Hen Hvp [l Hl]. unfold receive. rewrite Hc.
  rewrite (proj2 (given_Some sid) Hsid), Hen, Hvp, Hl.
  cbn [negb]. by destruct (respond _ _ _ _ _).
Qed.

(** X24.  A prompt that starts a turn: for a connection whose session is
    set up and has a logger, a prompt in a language containing "en" and
    with text that is not blank runs one turn on the stripped prompt.
    Afterwards the session's history is what it was, followed by the
    stripped prompt as a user entry and by what the turn recorded; the
    histories of the other sessions, the session table, the connection
    table and the call mapping are as before; the session has a handler
    in [AGENT_SESSIONS] exactly when it had one before or an agent could
    be made, and the entries of the other sessions are as before; and
    the connection still belongs to the session. *)
Theorem prompt_runs_turn (ws : nat) (vp lang : pystr) (sched : list Action)
    (created : bool) (c : Conn) (sid : string) :
  Conversation.session_id c = Some sid → sid ≠ ""%string →
  Text.contains (lit "en") lang = true →
  truthy (Text.strip vp) = true →
  is_Some (session_conversation_loggers (world c) !! sid) →
  let r := receive ws (Prompt vp lang) sched created c in
  let before := default [] (conversation_histories (world c) !! sid) in
  (∃ rest, conversation_histories (world r.1) !! sid
           = Some (before ++ user_entry (Text.strip vp) :: rest))
  ∧ (∀ other, other ≠ sid →
       conversation_histories (world r.1) !! other
       = conversation_histories (world c) !! other)
  ∧ session_state (world r.1) = session_state (world c)
  ∧ connections (world r.1) = connections (world c)
  ∧ call_sid_to_session_id (world r.1) = call_sid_to_session_id (world c)
  ∧ (is_Some (agent_sessions (world r.1) !! sid)
     ↔ created = true ∨ is_Some (agent_sessions (world c) !! sid))
  ∧ (∀ other, other ≠ sid →
       agent_sessions (world r.1) !! other
       = agent_sessions (world c) !! other)
  ∧ Conversation.session_id r.1 = Some sid.
Proof.
  intros Hc Hsid Hen Hvp Hl r before. subst r.
  rewrite (receive_prompt ws vp lang sched created c sid Hc Hsid Hen Hvp Hl).
  unfold respond. cbn [fst snd world conversation_histories session_state
    connections call_sid_to_session_id agent_sessions Conversation.session_id].
  pose proof (generate_turn_inv sid (conversation_histories (world c))
                (Text.strip vp) sched created
                (agent_sessions (world c) !! sid)) as Hinv.
  cbv zeta in Hinv. destruct Hinv as (_ & _ & _ & Hinv).
  assert (∃ rest,
    Coordinator.conversation_histories
      (generate_agent_response_stream sid (Text.strip vp) sched created
         (agent_sessions (world c) !! sid)
         (conversation_histories (world c))).1
    = <[sid := before ++ user_entry (Text.strip vp) :: rest]>
        (conversation_histories (world c))) as [rest Hrest].
  { destruct (exhausted _).
    - destruct Hinv as [[_ ->] | (_ & _ & _ & ->)]; by eexists.
    - destruct Hinv as [_ ->]. by eexists. }
  rewrite Hrest. split; [|split].
  - exists rest. apply lookup_insert_eq.
  - intros other Hother. by apply lookup_insert_ne.
  - repeat (split; [done|]). split; [|split; [|done]].
    + unfold stored, agent_available.
      destruct (agent_sessions (world c) !! sid) as [h|] eqn:Hh.
      * rewrite lookup_insert_eq. split; [intros _; right|]; eauto.
      * destruct created.
        -- rewrite lookup_insert_eq. split; [intros _; by left | eauto].
        -- rewrite Hh. split; [by intros [? ?] | intros [? | [? ?]]; done].
    + intros other Hother. destruct (stored _ _ _); [|done].
      by apply lookup_insert_ne.
Qed.

Lemma prompt_runs_turn_witness :
  let c := {| Conversation.session_id := Some "a"%string;
              world := {| session_state := ∅; connections := ∅;
                          session_conversation_loggers := {[ "a"%string := () ]};
                          conversation_histories := ∅;
                          call_sid_to_session_id := ∅;
                          agent_sessions := ∅ |} |} in
  let r := receive 1 (Prompt (lit "  any beans left? ") (lit "en-GB"))
             Schedules.words_then_tool true c in
  ∃ rest, conversation_histories (world r.1) !! "a"%string
          = Some (user_entry (lit "any beans left?") :: rest).
Proof.
  intros c r.
  destruct (prompt_runs_turn 1 (lit "  any beans left? ") (lit "en-GB")
              Schedules.words_then_tool true c "a") as [Hrest _].
  - reflexivity.
  - discriminate.
  - vm_compute. reflexivity.
  - vm_compute. reflexivity.
  - exists (). vm_compute. reflexivity.
  - exact Hrest.
Defined.

Lemma receive_interrupt (ws : nat) (U : pystr) (sched : list Action)
    (created : bool) (c : Conn) (sid : string) :
  Conversation.session_id c = Some sid → sid ≠ ""%string →
  receive ws (Interrupt U) sched created c
  = ({| Conversation.session_id := Some sid;
        world := with_histories
                   (redact_conversation_history sid U
                      (conversation_histories (world c))).1 (world c) |}, []).
Proof.
  intros Hc Hsid. unfold receive. rewrite Hc.
  by rewrite (proj2 (given_Some sid) Hsid).
Qed.

Lemma scan_after_turn (before : list Entry) (user_message reply : pystr)
    (sels : list pystr) :
  let history := before ++ user_entry user_message
                   :: assistant_entry reply :: map interstitial_entry sels in
  scan history (length history)
  = Some (S (length before), assistant_entry reply).
Proof.
  intros history. subst history.
  apply scan_found.
  - rewrite length_app. simpl. lia.
  - change (before ++ user_entry user_message :: assistant_entry reply
              :: map interstitial_entry sels)
      with (before ++ [user_entry user_message] ++ assistant_entry reply
              :: map interstitial_entry sels).
    rewrite app_assoc. apply list_lookup_middle.
    rewrite length_app. simpl. lia.
  - done.
  - intros j e' Hj Hje.
    rewrite lookup_app_r in Hje by lia.
    destruct (j - length before) as [|[|k]] eqn:Hk; [lia | lia |].
    simpl in Hje. rewrite list_lookup_fmap in Hje.
    destruct (sels !! k); [|done]. by injection Hje as <-.
Qed.

(** X25.  An interruption after a completed turn acts on the reply of
    that turn, although the interstitial entries of the turn come after
    it in the history: the reply is cut down to the spoken portion, or
    removed when the spoken portion is blank; the user entry, the
    interstitial entries and the earlier history stay; the interruption
    sends nothing. *)
Theorem interrupt_redacts_last_turn (ws : nat) (vp lang U : pystr)
    (sched : list Action) (created : bool) (c : Conn) (sid : string) :
  Conversation.session_id c = Some sid → sid ≠ ""%string →
  Text.contains (lit "en") lang = true →
  truthy (Text.strip vp) = true →
  is_Some (session_conversation_loggers (world c) !! sid) →
  let g := generate_agent_response_stream sid (Text.strip vp) sched
             created (agent_sessions (world c) !! sid)
             (conversation_histories (world c)) in
  exhausted g.1 = true → last g.2 ≠ Some fallback_event →
  let r := serve ws [ (Prompt vp lang, sched); (Interrupt U, []) ]
             created c in
  let before := default [] (conversation_histories (world c) !! sid) in
  let reply := clean_response (handler g.1) in
  let spoken := find_spoken_portion reply U in
  conversation_histories (world r.1)
  = <[sid := before ++ user_entry (Text.strip vp)
               :: (if truthy (Text.strip spoken)
                   then [assistant_entry spoken] else [])
               ++ map interstitial_entry (selections g.2)]>
      (conversation_histories (world c))
  ∧ r.2 = (respond sid (Text.strip vp) sched created (world c)).2.
Proof.
  intros Hc Hsid Hen Hvp Hl g Hex Hlast r before reply spoken. subst r.
  cbn [serve].
  rewrite (receive_prompt ws vp lang sched created c sid Hc Hsid Hen Hvp Hl).
  rewrite (receive_interrupt ws U [] created
             {| Conversation.session_id := Some sid;
                world := (respond sid (Text.strip vp) sched created
                            (world c)).1 |}
             sid eq_refl Hsid).
  cbn [fst snd Conversation.session_id world].
  rewrite !app_nil_r. split; [|done].
  unfold with_histories, respond.
  cbn [fst snd world conversation_histories].
  fold g.
  pose proof (generate_turn_inv sid (conversation_histories (world c))
                (Text.strip vp) sched created
                (agent_sessions (world c) !! sid)) as Hinv.
  cbv zeta in Hinv. fold g in Hinv. destruct Hinv as (_ & _ & _ & Hinv).
  rewrite Hex in Hinv. destruct Hinv as [[Hfb _] | (_ & _ & _ & Hh)]; [done|].
  rewrite Hh. fold before reply.
  erewrite redact_found;
    [| apply lookup_insert_eq | apply scan_after_turn].
  cbn [fst content assistant_entry]. fold spoken.
  rewrite insert_insert_eq. f_equal.
  destruct (truthy (Text.strip spoken)).
  - change (before ++ user_entry (Text.strip vp) :: assistant_entry reply
              :: map interstitial_entry (selections g.2))
      with (before ++ [user_entry (Text.strip vp)] ++ assistant_entry reply
              :: map interstitial_entry (selections g.2)).
    rewrite app_assoc.
    replace (S (length before))
      with (length (before ++ [user_entry (Text.strip vp)]) + 0)
      by (rewrite length_app; simpl; lia).
    rewrite insert_app_r. by rewrite <- app_assoc.
  - change (before ++ user_entry (Text.strip vp) :: assistant_entry reply
              :: map interstitial_entry (selections g.2))
      with (before ++ [user_entry (Text.strip vp)] ++ assistant_entry reply
              :: map interstitial_entry (selections g.2)).
    rewrite app_assoc.
    replace (S (length before))
      with (length (before ++ [user_entry (Text.strip vp)]))
      by (rewrite length_app; simpl; lia).
    rewrite delete_middle. by rewrite <- app_assoc.
Qed.

Lemma interrupt_redacts_last_turn_witness :
  let c := {| Conversation.session_id := Some "a"%string;
              world := {| session_state := ∅; connections := ∅;
                          session_conversation_loggers := {[ "a"%string := () ]};
                          conversation_histories := ∅;
                          call_sid_to_session_id := ∅;
                          agent_sessions := ∅ |} |} in
  let g := generate_agent_response_stream "a" (lit "any beans left?")
             Schedules.slow_tool true None ∅ in
  let r := serve 1 [ (Prompt (lit "any beans left?") (lit "en-US"),
                      Schedules.slow_tool);
                     (Interrupt (lit "zzz"), []) ] true c in
  let spoken := find_spoken_portion (clean_response (handler g.1)) (lit "zzz") in
  conversation_histories (world r.1)
  = <["a"%string := user_entry (lit "any beans left?")
         :: (if truthy (Text.strip spoken)
             then [assistant_entry spoken] else [])
         ++ map interstitial_entry (selections g.2)]> ∅.
Proof.
  intros c g r spoken.
  destruct (interrupt_redacts_last_turn 1 (lit "any beans left?")
              (lit "en-US") (lit "zzz") Schedules.slow_tool true c "a")
    as [Hh _].
  - reflexivity.
  - discriminate.
  - vm_compute. reflexivity.
  - vm_compute. reflexivity.
  - exists (). vm_compute. reflexivity.
  - vm_compute. reflexivity.
  - vm_compute. discriminate.
  - exact Hh.
Defined.

End ConversationFacts.
